From Stdlib Require Import ZArith QArith Qminmax Lia Lqa Floats.
From Stdlib Require Import Permutation Sorted Ascii String OrderedTypeEx.
From stdpp Require Import base list gmap strings relations.

(** * Smart Scheduler: the scheduling core of [scheduler.js]

    A shallow embedding of [scheduleTasks], of its helpers and of the request
    handler of [server.js] that calls it, followed by the properties of the
    order it recommends and of the calendar it fills.

    Conventions of the embedding.
    - A JavaScript [Map] whose iteration order matters ([taskMap]) is a list
      in insertion order; the maps that are only read and written by key
      ([indeg], [adj], [remaining], [finishedAt]) are [gmap string _].
    - A JavaScript number that counts hours is an IEEE 754 double: a
      primitive [float], with its rounding to nearest even, its [NaN], its
      infinities and its two zeros.
    - A [dayjs] object is an instant, in milliseconds of local time since
      1970-01-01 00:00, or the invalid date.  The time zone has a fixed
      offset: a day is 86400000 ms long.  [format("YYYY-MM-DD")] followed by
      [dayjs(...)] gives midnight of the same day (years 0100 to 9999), so a
      day record keeps that midnight where the source keeps the formatted
      string.
    - The module never loads the custom-parse-format plugin of dayjs, so
      [dayjs(s, "YYYY-MM-DD")] and [dayjs(s, "YYYY-MM-DD", true)] ignore the
      format and the strictness and parse as [dayjs(s)] does: ten characters
      "dddd-dd-dd" go through the [Date] constructor, which carries a month
      or a day that is out of range over into the next ones; what becomes of
      any other string is up to the host.  Years 0000 to 0099, which the
      [Date] constructor reads as 1900 to 1999, are outside the model, and so
      is a due date that is not a string.
    - Every [while] loop runs on a budget of [fuel] iterations; a loop that
      exhausts it yields [OutOfFuel]. *)

From Stdlib Require Import ZArith QArith Qminmax Lia Lqa Floats.
From Stdlib Require Import Permutation Sorted Ascii String OrderedTypeEx.
From stdpp Require Import base list gmap strings relations.

(** ** JavaScript numbers *)

(** [x > 0] and [x <= 0]; both are false of [NaN]. *)
Definition gt0 (x : float) : bool := (0 <? x)%float.
Definition le0 (x : float) : bool := (x <=? 0)%float.

(** [Math.min(a, b)]: [NaN] if either is; of the two zeros, the negative. *)
Definition Math_min (a b : float) : float :=
  if is_nan a || is_nan b then nan
  else if (a <? b)%float then a
  else if (b <? a)%float then b
  else if get_sign a then a else b.

(** ** The calendar utility (dayjs) *)

(** A [dayjs] value: milliseconds of local time since 1970-01-01 00:00, or
    the invalid date. *)
Inductive Dayjs : Type :=
| Time (t : Z)
| InvalidDate.

Global Instance Dayjs_eq_dec : EqDecision Dayjs.
Proof. solve_decision. Defined.

Definition msPerDay : Z := 86400000.

(** Midnight at the start of day [n], counted from 1970-01-01. *)
Definition Day (n : Z) : Dayjs := Time (n * msPerDay).
Global Arguments Day : simpl never.

(** [d.isValid()] *)
Definition isValid (d : Dayjs) : bool :=
  match d with Time _ => true | InvalidDate => false end.

(** [a.isBefore(b)]; with an invalid date every comparison is false. *)
Definition isBefore (a b : Dayjs) : bool :=
  match a, b with
  | Time x, Time y => bool_decide (x < y)%Z
  | _, _ => false
  end.

(** [a.isAfter(b)] *)
Definition isAfter (a b : Dayjs) : bool :=
  match a, b with
  | Time x, Time y => bool_decide (y < x)%Z
  | _, _ => false
  end.

(** [d.add(1, "day")] *)
Definition addDay (d : Dayjs) : Dayjs :=
  match d with Time t => Time (t + msPerDay) | InvalidDate => InvalidDate end.

(** [d.day()]: 0 is Sunday; 1970-01-01 was a Thursday.  [None] stands for
    the [NaN] of an invalid date. *)
Definition day (d : Dayjs) : option nat :=
  match d with
  | Time t => Some (Z.to_nat ((t / msPerDay + 4) mod 7))
  | InvalidDate => None
  end.

(** [dayjs(d.format("YYYY-MM-DD"))]: midnight of the day of [d]. *)
Definition startOfDay (d : Dayjs) : Dayjs :=
  match d with Time t => Day (t / msPerDay) | InvalidDate => InvalidDate end.

(** [dayjs("1970-01-01")] *)
Definition epoch : Dayjs := Day 0.

(** [dayjs.max(a, b)] of the minMax plugin. *)
Definition dayjsMax (a b : Dayjs) : Dayjs := if isAfter b a then b else a.

(** *** Parsing "YYYY-MM-DD" *)

Definition digit (c : ascii) : option Z :=
  let n := Z.of_nat (nat_of_ascii c) in
  if (48 <=? n)%Z && (n <=? 57)%Z then Some (n - 48)%Z else None.

Definition isHyphen (c : ascii) : bool := bool_decide (c = "-"%char).

Definition parseYMD (s : string) : option (Z * Z * Z) :=
  match list_ascii_of_string s with
  | [y1; y2; y3; y4; h1; m1; m2; h2; d1; d2] =>
      if isHyphen h1 && isHyphen h2 then
        a ← digit y1; b ← digit y2; c ← digit y3; d ← digit y4;
        e ← digit m1; f ← digit m2; g ← digit d1; h ← digit d2;
        Some (1000 * a + 100 * b + 10 * c + d, 10 * e + f, 10 * g + h)%Z
      else None
  | _ => None
  end.

Definition isLeap (y : Z) : bool :=
  bool_decide (y mod 4 = 0)%Z
  && (negb (bool_decide (y mod 100 = 0)%Z) || bool_decide (y mod 400 = 0)%Z).

Definition daysInMonth (y m : Z) : Z :=
  if bool_decide (m = 2)%Z then (if isLeap y then 29 else 28)%Z
  else if bool_decide (m = 4 ∨ m = 6 ∨ m = 9 ∨ m = 11)%Z then 30%Z
  else 31%Z.

(** Days from 1970-01-01 to the civil date [y]-[m]-[d] (proleptic Gregorian). *)
Definition daysFromCivil (y m d : Z) : Z :=
  let y' := (if bool_decide (m <= 2)%Z then y - 1 else y)%Z in
  let era := (y' / 400)%Z in
  let yoe := (y' - era * 400)%Z in
  let mp := (if bool_decide (m <= 2)%Z then m + 9 else m - 3)%Z in
  let doy := ((153 * mp + 2) / 5 + d - 1)%Z in
  let doe := (yoe * 365 + yoe / 4 - yoe / 100 + doy)%Z in
  (era * 146097 + doe - 719468)%Z.

(** The day a string denotes when it is a real date written exactly as
    "YYYY-MM-DD"; [None] otherwise.  This is what the strict parser of the
    custom-parse-format plugin would accept. *)
Definition strictParse (s : string) : option Z :=
  '(y, m, d) ← parseYMD s;
  if bool_decide (1 <= m <= 12)%Z && bool_decide (1 <= d <= daysInMonth y m)%Z
  then Some (daysFromCivil y m d)
  else None.

(** [new Date(y, m - 1, d)], to the day: months beyond the year and days
    beyond the month carry over. *)
Definition dateOverflow (y m d : Z) : Z :=
  (daysFromCivil (y + (m - 1) / 12) ((m - 1) mod 12 + 1) 1 + (d - 1))%Z.

(** ** What the host supplies

    The collation behind [String.prototype.localeCompare], the wall clock
    behind [dayjs()], what [dayjs(s)] makes of a string that is not of the
    form "dddd-dd-dd" (the [Date] parser of the engine may read it as some
    instant or yield the invalid date), and whether [dayjs.max] is
    defined. *)
Record Host : Type := {
  localeCompare : string → string → Z;
  now : Z;
  lenientParse : string → Dayjs;
  hasMinMax : bool
}.

(** [dayjs(s, "YYYY-MM-DD")] and [dayjs(s, "YYYY-MM-DD", true)]: without the
    plugin, [dayjs(s)]. *)
Definition dayjsFormat (host : Host) (s : string) : Dayjs :=
  match parseYMD s with
  | Some (y, m, d) => Day (dateOverflow y m d)
  | None => lenientParse host s
  end.

(** [parseDate] *)
Definition parseDate (host : Host) (s : string) : option Dayjs :=
  if isValid (dayjsFormat host s) then Some (dayjsFormat host s) else None.

(** [WEEKDAY_NAME] *)
Definition WEEKDAY_NAME : list string :=
  ["Sun"; "Mon"; "Tue"; "Wed"; "Thu"; "Fri"; "Sat"].

(** [WEEKDAY_NAME[d.day()]]; [None] is [undefined]. *)
Definition weekdayName (d : Dayjs) : option string :=
  i ← day d; WEEKDAY_NAME !! i.

(** [workDays.includes(x)] *)
Definition includes (workDays : list string) (x : option string) : bool :=
  match x with
  | Some s => bool_decide (s ∈ workDays)
  | None => false
  end.

(** [nextWorkday]: the [while] loop, on a budget of [fuel] iterations. *)
Fixpoint nextWorkday (fuel : nat) (date : Dayjs) (workDays : list string)
  : option Dayjs :=
  if includes workDays (weekdayName date) then Some date
  else match fuel with
       | O => None
       | S fuel' => nextWorkday fuel' (addDay date) workDays
       end.

(** ** Data model *)

(** A task descriptor as received: a missing field is [None]; an
    [estimatedHours] that is not of type number is [None]; a [dependencies]
    that is not an array is [None]. *)
Record RawTask : Type := {
  raw_title : option string;
  raw_estimatedHours : option float;
  raw_dueDate : string;
  raw_dependencies : option (list string)
}.

(** An entry of [taskMap]; its key is its [title]. *)
Record Task : Type := {
  title : string;
  estimatedHours : float;
  dueDate : Dayjs;
  dependencies : list string
}.

Record Allocation : Type := {
  alloc_title : string;
  hours : float
}.

Record DayRecord : Type := {
  date : Dayjs;
  allocations : list Allocation
}.

(** The data interpolated into a warning message: the task, its due date and
    the day the allocator had reached, both as [format("YYYY-MM-DD")] prints
    them. *)
Record Warning : Type := {
  warn_title : string;
  warn_due : Dayjs;
  warn_day : Dayjs
}.

Record Input : Type := {
  tasks : option (list RawTask);
  workHoursPerDay : option float;
  workDays : option (list string);
  startDate : option string
}.

Record Output : Type := {
  recommendedOrder : list string;
  schedule : list DayRecord;
  warnings : list Warning
}.

Inductive Error : Type :=
| TasksNotArray
| InvalidTask (t : RawTask)
| InvalidDueDate (title : string)
| DuplicateTitle (title : string)
| UnknownDependency (title dep : string)
| SelfDependency (title : string)
| CycleDetected
| TypeError.

(** The three ways a call can go: it returns, it throws, or a loop is still
    running when the fuel is spent. *)
Inductive Outcome (A : Type) : Type :=
| Returned (a : A)
| Threw (e : Error)
| OutOfFuel.
Arguments Returned {A} a.
Arguments Threw {A} e.
Arguments OutOfFuel {A}.

Global Instance Outcome_ret : MRet Outcome := λ A a, Returned a.
Global Instance Outcome_bind : MBind Outcome := λ A B f m,
  match m with
  | Returned a => f a
  | Threw e => Threw e
  | OutOfFuel => OutOfFuel
  end.

(** ** Task registry (lines 18-42) *)

(** [taskMap.get(a)] *)
Definition lookupTask (taskMap : list Task) (a : string) : option Task :=
  List.find (λ t, bool_decide (title t = a)) taskMap.

(** [taskMap.has(a)] *)
Definition has (taskMap : list Task) (a : string) : bool :=
  bool_decide (a ∈ map title taskMap).

(** [taskMap.get(a)] where the source reads a field of the result at once.
    Every such read is on a key that was validated to be present (see
    [getTask_lookup]); for an absent key, where JavaScript would fail, the
    model reads an empty task. *)
Definition getTask (taskMap : list Task) (a : string) : Task :=
  default {| title := a; estimatedHours := 0; dueDate := epoch;
             dependencies := [] |}
          (lookupTask taskMap a).

(** The body of [tasks.forEach], with [taskMap] threaded through.  The test
    of line 22 lets every number through that is not [<= 0]: the positive
    doubles, [Infinity] and [NaN]. *)
Fixpoint registry (host : Host) (ts : list RawTask) (taskMap : list Task)
  : Outcome (list Task) :=
  match ts with
  | [] => Returned taskMap
  | t :: rest =>
      match raw_title t, raw_estimatedHours t with
      | Some ttl, Some h =>
          if bool_decide (ttl = "") || le0 h then Threw (InvalidTask t)
          else
            match parseDate host (raw_dueDate t) with
            | None => Threw (InvalidDueDate ttl)
            | Some due =>
                if has taskMap ttl then Threw (DuplicateTitle ttl)
                else registry host rest
                       (taskMap ++
                          [{| title := ttl; estimatedHours := h; dueDate := due;
                              dependencies := default [] (raw_dependencies t) |}])
            end
      | _, _ => Threw (InvalidTask t)
      end
  end.

(** The inner loop of lines 38-41. *)
Fixpoint checkDeps (taskMap : list Task) (ttl : string) (deps : list string)
  : Outcome unit :=
  match deps with
  | [] => Returned ()
  | d :: rest =>
      if negb (has taskMap d) then Threw (UnknownDependency ttl d)
      else if bool_decide (d = ttl) then Threw (SelfDependency ttl)
      else checkDeps taskMap ttl rest
  end.

(** The outer loop of lines 37-42, over the entries [ts] of [taskMap]. *)
Fixpoint checkAllDeps (taskMap ts : list Task) : Outcome unit :=
  match ts with
  | [] => Returned ()
  | t :: rest =>
      _ ← checkDeps taskMap (title t) (dependencies t);
      checkAllDeps taskMap rest
  end.

(** ** Dependency sequencer (lines 44-89) *)

(** [m.get(k)] where the source goes on to compute with the result.  Every
    key read this way was set before (lines 48-49 and 98 initialise all
    titles); for an absent key the model reads [dflt]. *)
Definition getOr {A : Type} (dflt : A) (m : gmap string A) (k : string) : A :=
  default dflt (m !! k).

Record Graph : Type := {
  indeg : gmap string Z;
  adj : gmap string (list string)
}.

(** Lines 47-50. *)
Fixpoint initGraph (keys : list string) (g : Graph) : Graph :=
  match keys with
  | [] => g
  | k :: rest =>
      initGraph rest {| indeg := <[k := 0%Z]> (indeg g);
                        adj := <[k := []]> (adj g) |}
  end.

(** Lines 52-55, for one task. *)
Fixpoint addEdges (ttl : string) (deps : list string) (g : Graph) : Graph :=
  match deps with
  | [] => g
  | dep :: rest =>
      addEdges ttl rest
        {| indeg := <[ttl := (getOr 0 (indeg g) ttl + 1)%Z]> (indeg g);
           adj := <[dep := getOr [] (adj g) dep ++ [ttl]]> (adj g) |}
  end.

(** Lines 51-56. *)
Fixpoint buildEdges (ts : list Task) (g : Graph) : Graph :=
  match ts with
  | [] => g
  | t :: rest => buildEdges rest (addEdges (title t) (dependencies t) g)
  end.

Definition buildGraph (taskMap : list Task) : Graph :=
  buildEdges taskMap
    (initGraph (map title taskMap) {| indeg := ∅; adj := ∅ |}).

(** [cmp] (lines 59-67) *)
Definition cmp (host : Host) (taskMap : list Task) (a b : string) : Z :=
  let ta := getTask taskMap a in
  let tb := getTask taskMap b in
  if isBefore (dueDate ta) (dueDate tb) then (-1)%Z
  else if isAfter (dueDate ta) (dueDate tb) then 1%Z
  else if (estimatedHours tb <? estimatedHours ta)%float then (-1)%Z
  else if (estimatedHours ta <? estimatedHours tb)%float then 1%Z
  else localeCompare host a b.

(** [Array.prototype.sort] is stable: an element stays in front of the later
    elements it does not compare greater than.  (With a comparator that is
    not consistent the order is up to the engine; the model sorts by
    insertion all the same.) *)
Fixpoint insertSorted (c : string → string → Z) (x : string) (l : list string)
  : list string :=
  match l with
  | [] => [x]
  | y :: l' => if (c x y <=? 0)%Z then x :: l else y :: insertSorted c x l'
  end.

Fixpoint sort (c : string → string → Z) (l : list string) : list string :=
  match l with
  | [] => []
  | x :: l' => insertSorted c x (sort c l')
  end.

(** The [for (const nb of adj.get(cur))] loop of lines 78-85. *)
Fixpoint relax (c : string → string → Z) (nbs : list string)
    (deg : gmap string Z) (available : list string)
  : gmap string Z * list string :=
  match nbs with
  | [] => (deg, available)
  | nb :: rest =>
      let deg' := <[nb := (getOr 0 deg nb - 1)%Z]> deg in
      if bool_decide (getOr 0 deg' nb = 0)%Z
      then relax c rest deg' (sort c (available ++ [nb]))
      else relax c rest deg' available
  end.

(** The [while (available.length > 0)] loop of lines 75-86. *)
Fixpoint kahn (fuel : nat) (c : string → string → Z)
    (adjacency : gmap string (list string)) (deg : gmap string Z)
    (available topo : list string) : Outcome (list string) :=
  match available with
  | [] => Returned topo
  | cur :: available' =>
      match fuel with
      | O => OutOfFuel
      | S fuel' =>
          let '(deg', available'') :=
            relax c (getOr [] adjacency cur) deg available' in
          kahn fuel' c adjacency deg' available'' (topo ++ [cur])
      end
  end.

(** Lines 44-89: the order, or the cycle error. *)
Definition sequence (host : Host) (fuel : nat) (taskMap : list Task)
  : Outcome (list string) :=
  let g := buildGraph taskMap in
  let available :=
    sort (cmp host taskMap)
      (filter (λ t, getOr 0 (indeg g) t = 0)%Z (map title taskMap)) in
  topo ← kahn fuel (cmp host taskMap) (adj g) (indeg g) available [];
  if bool_decide (length topo ≠ length taskMap) then Threw CycleDetected
  else Returned topo.

(** ** Calendar allocator (lines 91-179) *)

(** The mutable locals of the allocation walk.  ([readyAfter] is written at
    line 99 and never read; it is left out.) *)
Record AllocState : Type := {
  currentDay : Dayjs;
  freeHoursToday : float;
  st_schedule : list DayRecord;
  st_warnings : list Warning;
  finishedAt : gmap string Dayjs
}.

(** Lines 97-100. *)
Fixpoint buildRemaining (ts : list Task) (remaining : gmap string float)
  : gmap string float :=
  match ts with
  | [] => remaining
  | t :: rest => buildRemaining rest (<[title t := estimatedHours t]> remaining)
  end.

(** [addAllocation] (lines 111-115): [findIndex] takes the first record of
    that date. *)
Fixpoint addAllocation (sched : list DayRecord) (d : Dayjs) (ttl : string)
    (h : float) : list DayRecord :=
  match sched with
  | [] => [{| date := d;
              allocations := [{| alloc_title := ttl; hours := h |}] |}]
  | r :: rest =>
      if bool_decide (date r = d)
      then {| date := date r;
              allocations :=
                allocations r ++ [{| alloc_title := ttl; hours := h |}] |}
           :: rest
      else r :: addAllocation rest d ttl h
  end.

Definition runNextWorkday (fuel : nat) (d : Dayjs) (wd : list string)
  : Outcome Dayjs :=
  match nextWorkday fuel d wd with
  | Some d' => Returned d'
  | None => OutOfFuel
  end.

(** [advanceToNextWorkday] (lines 121-124) *)
Definition advanceToNextWorkday (fuel : nat) (wd : list string)
    (hoursPerDay : float) (st : AllocState) : Outcome AllocState :=
  d ← runNextWorkday fuel (addDay (currentDay st)) wd;
  Returned {| currentDay := d; freeHoursToday := hoursPerDay;
              st_schedule := st_schedule st; st_warnings := st_warnings st;
              finishedAt := finishedAt st |}.

(** The [while (rem > 0)] loop of lines 151-173.  [fuel0] is the budget of
    the loops it starts, [fuel] its own. *)
Fixpoint allocate (fuel0 fuel : nat) (wd : list string) (hoursPerDay : float)
    (taskMap : list Task) (ttl : string) (rem : float) (st : AllocState)
  : Outcome AllocState :=
  if gt0 rem then
    match fuel with
    | O => OutOfFuel
    | S fuel' =>
        let taskDue := dueDate (getTask taskMap ttl) in
        let st1 :=
          if isAfter (currentDay st) taskDue && gt0 rem
          then {| currentDay := currentDay st;
                  freeHoursToday := freeHoursToday st;
                  st_schedule := st_schedule st;
                  st_warnings :=
                    st_warnings st ++
                      [{| warn_title := ttl; warn_due := startOfDay taskDue;
                          warn_day := startOfDay (currentDay st) |}];
                  finishedAt := finishedAt st |}
          else st in
        if le0 (freeHoursToday st1) then
          st2 ← advanceToNextWorkday fuel0 wd hoursPerDay st1;
          allocate fuel0 fuel' wd hoursPerDay taskMap ttl rem st2
        else
          let alloc := Math_min (freeHoursToday st1) rem in
          let st2 :=
            {| currentDay := currentDay st1;
               freeHoursToday := (freeHoursToday st1 - alloc)%float;
               st_schedule :=
                 addAllocation (st_schedule st1) (startOfDay (currentDay st1))
                   ttl alloc;
               st_warnings := st_warnings st1;
               finishedAt := finishedAt st1 |} in
          let rem' := (rem - alloc)%float in
          if gt0 rem' then
            st3 ← advanceToNextWorkday fuel0 wd hoursPerDay st2;
            allocate fuel0 fuel' wd hoursPerDay taskMap ttl rem' st3
          else allocate fuel0 fuel' wd hoursPerDay taskMap ttl rem' st2
    end
  else Returned st.

(** Lines 130-140: the latest finish among the dependencies.  The first
    branch is the one the source calls a logic error. *)
Fixpoint earliestReadyOf (host : Host) (deps : list string)
    (fin : gmap string Dayjs) (earliestReady : Dayjs) : Dayjs :=
  match deps with
  | [] => earliestReady
  | d :: rest =>
      earliestReadyOf host rest fin
        match fin !! d with
        | None =>
            if hasMinMax host then dayjsMax earliestReady (Time (now host))
            else Time (now host)
        | Some f => if isAfter f earliestReady then f else earliestReady
        end
  end.

(** Line 176: the last day record, in schedule order, that mentions [ttl]. *)
Definition lastDayRecord (sched : list DayRecord) (ttl : string)
  : option DayRecord :=
  List.find
    (λ r, existsb (λ a, bool_decide (alloc_title a = ttl)) (allocations r))
    (reverse sched).

(** The body of [for (const title of topo)] (lines 128-178).  Reading
    [.date] of a record that was not found is the [TypeError] of line 177. *)
Definition scheduleTask (host : Host) (fuel : nat) (wd : list string)
    (hoursPerDay : float) (taskMap : list Task) (remaining : gmap string float)
    (ttl : string) (st : AllocState) : Outcome AllocState :=
  let deps := dependencies (getTask taskMap ttl) in
  let earliestReady := earliestReadyOf host deps (finishedAt st) epoch in
  st1 ← (if isAfter earliestReady (currentDay st) then
           d ← runNextWorkday fuel earliestReady wd;
           Returned {| currentDay := d; freeHoursToday := hoursPerDay;
                       st_schedule := st_schedule st;
                       st_warnings := st_warnings st;
                       finishedAt := finishedAt st |}
         else Returned st);
  st2 ← allocate fuel fuel wd hoursPerDay taskMap ttl
         (getOr 0%float remaining ttl) st1;
  match lastDayRecord (st_schedule st2) ttl with
  | None => Threw TypeError
  | Some r =>
      Returned {| currentDay := currentDay st2;
                  freeHoursToday := freeHoursToday st2;
                  st_schedule := st_schedule st2;
                  st_warnings := st_warnings st2;
                  finishedAt := <[ttl := date r]> (finishedAt st2) |}
  end.

(** The [for (const title of topo)] loop. *)
Fixpoint scheduleAll (host : Host) (fuel : nat) (wd : list string)
    (hoursPerDay : float) (taskMap : list Task) (remaining : gmap string float)
    (order : list string) (st : AllocState) : Outcome AllocState :=
  match order with
  | [] => Returned st
  | ttl :: rest =>
      st' ← scheduleTask host fuel wd hoursPerDay taskMap remaining ttl st;
      scheduleAll host fuel wd hoursPerDay taskMap remaining rest st'
  end.

(** ** Scheduling facade *)

(** Registry and sequencer (lines 18-89), after the array check. *)
Definition prepare (host : Host) (fuel : nat) (ts : list RawTask)
  : Outcome (list Task * list string) :=
  taskMap ← registry host ts [];
  _ ← checkAllDeps taskMap taskMap;
  topo ← sequence host fuel taskMap;
  Returned (taskMap, topo).

(** [startDate ? dayjs(startDate, "YYYY-MM-DD") : dayjs()], then the
    normalisation to midnight of line 93. *)
Definition startOf (host : Host) (start : option string) : Dayjs :=
  startOfDay
    match start with
    | Some s => if bool_decide (s = "") then Time (now host)
                else dayjsFormat host s
    | None => Time (now host)
    end.

(** Lines 91-188. *)
Definition allocatePhase (host : Host) (fuel : nat) (wd : list string)
    (hoursPerDay : float) (start : option string) (taskMap : list Task)
    (topo : list string) : Outcome Output :=
  cur ← runNextWorkday fuel (startOf host start) wd;
  st ← scheduleAll host fuel wd hoursPerDay taskMap (buildRemaining taskMap ∅)
         topo
         {| currentDay := cur; freeHoursToday := hoursPerDay;
            st_schedule := []; st_warnings := []; finishedAt := ∅ |};
  Returned {| recommendedOrder := topo; schedule := st_schedule st;
              warnings := st_warnings st |}.

Definition defaultWorkDays : list string := ["Mon"; "Tue"; "Wed"; "Thu"; "Fri"].

(** [scheduleTasks] *)
Definition scheduleTasks (host : Host) (fuel : nat) (inp : Input)
  : Outcome Output :=
  let hoursPerDay := default 8%float (workHoursPerDay inp) in
  let wd := default defaultWorkDays (workDays inp) in
  match tasks inp with
  | None | Some [] => Threw TasksNotArray
  | Some ts =>
      '(taskMap, topo) ← prepare host fuel ts;
      allocatePhase host fuel wd hoursPerDay (startDate inp) taskMap topo
  end.

(** ** Request handler ([server.js], lines 206-224) *)

(** The reply: the result as JSON, or status 400 with the error. *)
Inductive Response : Type :=
| Json (out : Output)
| Status400 (e : Error).

(** [body.workHoursPerDay || 8]: both zeros and [NaN] are falsy. *)
Definition orNumber (x : option float) (dflt : float) : float :=
  match x with
  | Some q => if is_zero q || is_nan q then dflt else q
  | None => dflt
  end.

(** [body.startDate || null]: the empty string is falsy. *)
Definition orNull (x : option string) : option string :=
  match x with
  | Some s => if bool_decide (s = "") then None else Some s
  | None => None
  end.

(** The argument the handler builds from [req.body || {}].  Without a task
    list the call gets the empty one, which line 18 refuses as it refuses
    what is not an array; an array of workdays, be it empty, is truthy and
    kept. *)
Definition requestInput (body : option Input) : Input :=
  let b := default {| tasks := None; workHoursPerDay := None;
                      workDays := None; startDate := None |} body in
  {| tasks := Some (default [] (tasks b));
     workHoursPerDay := Some (orNumber (workHoursPerDay b) 8);
     workDays := Some (default defaultWorkDays (workDays b));
     startDate := orNull (startDate b) |}.

(** The handler of [POST /api/v1/projects/:projectId/schedule]: the result,
    or status 400 for whatever the call throws. *)
Definition handler (host : Host) (fuel : nat) (body : option Input)
  : Outcome Response :=
  match scheduleTasks host fuel (requestInput body) with
  | Returned out => Returned (Json out)
  | Threw e => Returned (Status400 e)
  | OutOfFuel => OutOfFuel
  end.

(** ** A concrete host and the examples of the specification *)

(** Titles compared by character code, the clock stopped on 2024-01-08 at
    09:30, a [Date] parser that gives up on every string it is asked
    about. *)
Definition codeHost : Host := {|
  localeCompare := λ a b,
    match String.compare a b with Lt => (-1)%Z | Eq => 0%Z | Gt => 1%Z end;
  now := 1704706200000;
  lenientParse := λ _, InvalidDate;
  hasMinMax := false
|}.

Definition mkRaw (t : string) (h : float) (due : string) (deps : list string)
  : RawTask :=
  {| raw_title := Some t; raw_estimatedHours := Some h; raw_dueDate := due;
     raw_dependencies := Some deps |}.

Definition mkInput (ts : list RawTask) (h : float) (wd : list string)
    (start : string) : Input :=
  {| tasks := Some ts; workHoursPerDay := Some h; workDays := Some wd;
     startDate := Some start |}.

Definition mkAlloc (t : string) (h : float) : Allocation :=
  {| alloc_title := t; hours := h |}.

(** B depends on A; A is due far in the future. *)
Definition exampleChain : Input :=
  mkInput [mkRaw "A" 8 "2030-01-10" []; mkRaw "B" 4 "2024-01-10" ["A"]]
    8 defaultWorkDays "2024-01-08".

Definition exampleChainOutput : Output :=
  {| recommendedOrder := ["A"; "B"];
     schedule := [ {| date := Day 19730; allocations := [mkAlloc "A" 8] |};
                   {| date := Day 19731; allocations := [mkAlloc "B" 4] |} ];
     warnings := [] |}.

(** A is due first but waits for C, which is due last. *)
Definition examplePriorityTasks : list RawTask :=
  [mkRaw "C" 1 "2024-01-30" []; mkRaw "A" 1 "2024-01-01" ["C"];
   mkRaw "B" 1 "2024-01-15" []].

Definition examplePriority : Input :=
  mkInput examplePriorityTasks 8 defaultWorkDays "2024-01-08".

Definition examplePriorityOutput : Output :=
  {| recommendedOrder := ["B"; "C"; "A"];
     schedule :=
       [ {| date := Day 19730;
            allocations := [mkAlloc "B" 1; mkAlloc "C" 1; mkAlloc "A" 1] |} ];
     warnings := [ {| warn_title := "A"; warn_due := Day 19723;
                      warn_day := Day 19730 |} ] |}.

(** The tasks of [examplePriority], listed in another order. *)
Definition examplePriorityShuffled : Input :=
  mkInput [mkRaw "A" 1 "2024-01-01" ["C"]; mkRaw "C" 1 "2024-01-30" [];
           mkRaw "B" 1 "2024-01-15" []]
    8 defaultWorkDays "2024-01-08".



(** A due date that is no day of the calendar. *)
Definition exampleBadDue : Input :=
  mkInput [mkRaw "A" 1 "2024-02-30" []] 8 defaultWorkDays "2024-01-08".

(** A start date written with slashes. *)
Definition exampleBadStart : Input :=
  mkInput [mkRaw "A" 1 "2024-01-30" []] 8 defaultWorkDays "2024/01/08".

(** A host whose [Date] parser reads any string as 2024-01-08. *)
Definition coercingHost : Host := {|
  localeCompare := localeCompare codeHost;
  now := 1704706200000;
  lenientParse := λ _, Day 19730;
  hasMinMax := false
|}.


(** A needs B and B needs A. *)
Definition exampleCycle : Input :=
  mkInput [mkRaw "A" 1 "2024-01-30" ["B"]; mkRaw "B" 1 "2024-01-01" ["A"]]
    8 defaultWorkDays "2024-01-08".

(** Ten hours from a Monday. *)
Definition exampleSplit : Input :=
  mkInput [mkRaw "A" 10 "2024-01-10" []] 8 defaultWorkDays "2024-01-08".

(** Ten hours from a Friday. *)
Definition exampleWeekend : Input :=
  mkInput [mkRaw "A" 10 "2024-01-20" []] 8 defaultWorkDays "2024-01-12".

(** One hour at 0.3 hours a day: 0.3 is the double 0x1.3333333333333p-2. *)
Definition exampleThirds : Input :=
  mkInput [mkRaw "A" 1 "2024-01-30" []] 0x1.3333333333333p-2 defaultWorkDays
    "2024-01-08".

Definition exampleThirdsOutput : Output :=
  {| recommendedOrder := ["A"];
     schedule :=
       [ {| date := Day 19730;
            allocations := [mkAlloc "A" 0x1.3333333333333p-2] |};
         {| date := Day 19731;
            allocations := [mkAlloc "A" 0x1.3333333333333p-2] |};
         {| date := Day 19732;
            allocations := [mkAlloc "A" 0x1.3333333333333p-2] |};
         {| date := Day 19733;
            allocations := [mkAlloc "A" 0x1.9999999999998p-4] |} ];
     warnings := [] |}.

(** 0.1, 0.1 and 7.5 hours at 7.5 hours a day: 0.1 is the double
    0x1.999999999999ap-4. *)
Definition exampleTenths : Input :=
  mkInput [mkRaw "A" 0x1.999999999999ap-4 "2024-01-10" [];
           mkRaw "B" 0x1.999999999999ap-4 "2024-01-11" [];
           mkRaw "C" 7.5 "2024-01-12" []]
    7.5 defaultWorkDays "2024-01-08".

(** A day without end and a task without end, followed by a task of one
    hour. *)
Definition exampleInfinity : Input :=
  mkInput [mkRaw "A" infinity "2024-01-10" []; mkRaw "B" 1 "2024-01-11" []]
    infinity defaultWorkDays "2024-01-08".


(** A task whose hours are [NaN], after a task of one hour. *)
Definition exampleNaN : Input :=
  mkInput [mkRaw "A" 1 "2024-01-10" []; mkRaw "B" nan "2024-01-11" []]
    8 defaultWorkDays "2024-01-08".

Definition exampleTenthsOutput : Output :=
  {| recommendedOrder := ["A"; "B"; "C"];
     schedule :=
       [ {| date := Day 19730;
            allocations := [mkAlloc "A" 0x1.999999999999ap-4;
                            mkAlloc "B" 0x1.999999999999ap-4;
                            mkAlloc "C" 0x1.d333333333334p+2] |};
         {| date := Day 19731;
            allocations := [mkAlloc "C" 0x1.999999999998p-3] |} ];
     warnings := [] |}.

Definition exampleInfinityOutput : Output :=
  {| recommendedOrder := ["A"; "B"];
     schedule :=
       [ {| date := Day 19730;
            allocations := [mkAlloc "A" infinity; mkAlloc "B" nan] |} ];
     warnings := [] |}.

(** ** Specification vocabulary *)

(** *** Doubles *)

(** The position of a double among the doubles: its bit pattern read as a
    signed integer, so that the order of the doubles is the order of their
    positions.  [NaN] has no position; it is given 0, as the zeros are. *)
Definition SFord (x : spec_float) : Z :=
  match x with
  | S754_zero _ => 0
  | S754_nan => 0
  | S754_infinity s => cond_Zopp s 9218868437227405312
  | S754_finite s m e => cond_Zopp s (Zpos m + (e + 1074) * 4503599627370496)
  end.

Definition SFis_nan (x : spec_float) : bool :=
  match x with S754_nan => true | _ => false end.

Definition ord (x : float) : Z := SFord (Prim2SF x).

(** The position of [Infinity]. *)
Definition ordInf : Z := 9218868437227405312.



(** A number greater than zero that is not [Infinity]. *)
Definition finitePositive (x : float) : Prop :=
  (0 <? x)%float = true ∧ (x <? infinity)%float = true.

(** The rational a double stands for; 0 for [NaN] and the infinities, which
    stand for none. *)
Definition SF2Q (x : spec_float) : Q :=
  match x with
  | S754_finite s m e =>
      (if s then -1 else 1) * inject_Z (Zpos m) * Qpower 2 e
  | _ => 0
  end.

Definition toQ (x : float) : Q := SF2Q (Prim2SF x).

(** What is left of [x] when the numbers of [l] are taken from it one after
    the other, in double arithmetic. *)
Definition countDown (x : float) (l : list float) : float :=
  fold_left (λ a h, (a - h)%float) l x.

(** The numbers of [l] added up from zero, in double arithmetic. *)
Definition floatSum (l : list float) : float :=
  fold_left (λ a h, (a + h)%float) l 0%float.

(** *** Orders and graphs *)

(** [a] occurs strictly before [b] in [l]. *)
Definition precedes (l : list string) (a b : string) : Prop :=
  ∃ l1 l2 l3, l = l1 ++ a :: l2 ++ b :: l3.

(** Number of occurrences of [x] in [l]. *)
Definition occ (x : string) (l : list string) : nat :=
  length (filter (λ y, y = x) l).

(** The dependencies of [s] that are not yet in [seen]. *)
Definition unmet (taskMap : list Task) (seen : list string) (s : string)
  : nat :=
  length (filter (λ d, d ∉ seen) (dependencies (getTask taskMap s))).

(** [a] is ranked no later than [b] by the comparator. *)
Definition ranked (c : string → string → Z) (a b : string) : Prop :=
  (c a b <= 0)%Z.

(** [t] is the normalised form of the descriptor [raw]. *)
Definition normalizes (host : Host) (raw : RawTask) (t : Task) : Prop :=
  raw_title raw = Some (title t) ∧ title t ≠ "" ∧
  raw_estimatedHours raw = Some (estimatedHours t) ∧
  le0 (estimatedHours t) = false ∧
  parseDate host (raw_dueDate raw) = Some (dueDate t) ∧
  dependencies t = default [] (raw_dependencies raw).

(** [dep] is listed among the dependencies of the task titled [ttl]. *)
Definition depEdge (ts : list RawTask) (dep ttl : string) : Prop :=
  ∃ raw, raw ∈ ts ∧ raw_title raw = Some ttl
         ∧ dep ∈ default [] (raw_dependencies raw).

(** The same, on the task map. *)
Definition edge (taskMap : list Task) (dep ttl : string) : Prop :=
  dep ∈ dependencies (getTask taskMap ttl).

(** What the ready list needs from the host's collation: it compares any two
    titles, consistently. *)
Record Collation (host : Host) : Prop := {
  lc_total : ∀ a b,
    (localeCompare host a b <= 0)%Z ∨ (localeCompare host b a <= 0)%Z;
  lc_trans : ∀ a b d,
    (localeCompare host a b <= 0)%Z → (localeCompare host b d <= 0)%Z →
    (localeCompare host a d <= 0)%Z;
  lc_antisym : ∀ a b,
    (localeCompare host a b < 0)%Z → (0 < localeCompare host b a)%Z
}.

(** The collation tells distinct titles apart. *)
Definition Separating (host : Host) : Prop :=
  ∀ a b, localeCompare host a b = 0%Z → a = b.

(** Every dependency of an emitted task was emitted before it. *)
Definition Prec (taskMap : list Task) (topo : list string) : Prop :=
  ∀ l1 t l2, topo = l1 ++ t :: l2 →
    ∀ d, d ∈ dependencies (getTask taskMap t) → d ∈ l1.

(** When [a] was emitted, it was ranked before every other task that was
    ready then. *)
Definition Hist (taskMap : list Task) (R : string → string → Prop)
    (topo : list string) : Prop :=
  ∀ l1 a l2, topo = l1 ++ a :: l2 →
    ∀ b, b ∈ map title taskMap → b ∉ l1 → b ≠ a →
      (∀ d, d ∈ dependencies (getTask taskMap b) → d ∈ l1) → R a b.

Record KahnInv (taskMap : list Task) (S : list string → Prop)
    (R : string → string → Prop)
    (deg : gmap string Z) (available topo : list string)
  : Prop := {
  inv_nodup : NoDup (topo ++ available);
  inv_titles : ∀ s, s ∈ topo ++ available → s ∈ map title taskMap;
  inv_deg : ∀ s, getOr 0%Z deg s = Z.of_nat (unmet taskMap topo s);
  inv_ready : ∀ s, s ∈ map title taskMap →
    unmet taskMap topo s = 0%nat ↔ s ∈ topo ++ available;
  inv_avail : S available;
  inv_prec : Prec taskMap topo;
  inv_hist : Hist taskMap R topo
}.

(** *** Days and schedules *)

(** The weekday of [d] is one of [wd]. *)
Definition isWorkday (wd : list string) (d : Dayjs) : Prop :=
  includes wd (weekdayName d) = true.

(** [n'] is the first workday on or after day [n]. *)
Definition firstWorkday (wd : list string) (n n' : Z) : Prop :=
  (n <= n')%Z ∧ isWorkday wd (Day n')
  ∧ ∀ m, (n <= m < n')%Z → ¬ isWorkday wd (Day m).

(** [r] carries an allocation for [ttl]. *)
Definition mentions (ttl : string) (r : DayRecord) : Prop :=
  ∃ a, a ∈ allocations r ∧ alloc_title a = ttl.

(** Records in strictly increasing date order. *)
Definition chronological (sched : list DayRecord) : Prop :=
  StronglySorted (λ r1 r2, isBefore (date r1) (date r2) = true) sched.

(** The date of the last allocation of [ttl], as line 176 finds it. *)
Definition finishDate (sched : list DayRecord) (ttl : string) : option Dayjs :=
  date <$> lastDayRecord sched ttl.

(** The titles of a day record, and of a schedule read record by record. *)
Definition titlesOf (r : DayRecord) : list string :=
  map alloc_title (allocations r).

Definition allTitles (sched : list DayRecord) : list string :=
  concat (map titlesOf sched).

(** A list with each run of equal neighbours reduced to one element. *)
Fixpoint squash (l : list string) : list string :=
  match l with
  | [] => []
  | x :: l' =>
      match l' with
      | [] => [x]
      | y :: _ => if bool_decide (x = y) then squash l' else x :: squash l'
      end
  end.

(** The hours of the allocations of [r], in order; those given to [ttl] over
    a schedule, in order. *)
Definition hoursOf (r : DayRecord) : list float := map hours (allocations r).

Definition hoursGiven (ttl : string) (sched : list DayRecord) : list float :=
  map hours
    (filter (λ a, alloc_title a = ttl) (concat (map allocations sched))).

(** Hours allocated to [ttl] in a list of allocations, in a schedule, as
    exact sums. *)
Fixpoint hoursOfIn (ttl : string) (l : list Allocation) : Q :=
  match l with
  | [] => 0
  | a :: l' =>
      ((if bool_decide (alloc_title a = ttl) then toQ (hours a) else 0)
       + hoursOfIn ttl l')%Q
  end.

Fixpoint hoursFor (ttl : string) (sched : list DayRecord) : Q :=
  match sched with
  | [] => 0
  | r :: rest => (hoursOfIn ttl (allocations r) + hoursFor ttl rest)%Q
  end.

(** Hours allocated on day [d], over all tasks, as an exact sum. *)
Fixpoint totalIn (l : list Allocation) : Q :=
  match l with
  | [] => 0
  | a :: l' => (toQ (hours a) + totalIn l')%Q
  end.

Fixpoint hoursOn (d : Dayjs) (sched : list DayRecord) : Q :=
  match sched with
  | [] => 0
  | r :: rest =>
      ((if bool_decide (date r = d) then totalIn (allocations r) else 0)
       + hoursOn d rest)%Q
  end.

(** The state of the walk when the current day is day [c]. *)
Record AllocInv (wd : list string) (c : Z) (st : AllocState) : Prop := {
  ai_day : currentDay st = Day c;
  ai_workday : isWorkday wd (Day c);
  ai_dates : ∀ r, r ∈ st_schedule st →
    ∃ n, date r = Day n ∧ (n <= c)%Z ∧ isWorkday wd (Day n);
  ai_chrono : chronological (st_schedule st)
}.

(** The warnings after the check of lines 155-157 on day [c]. *)
Definition warned (taskMap : list Task) (ttl : string) (c : Dayjs)
    (warns : list Warning) : list Warning :=
  if isAfter c (dueDate (getTask taskMap ttl))
  then warns ++ [{| warn_title := ttl;
                    warn_due := startOfDay (dueDate (getTask taskMap ttl));
                    warn_day := startOfDay c |}]
  else warns.

(** What the schedule holds once the tasks of [seen] have been walked, in
    that order. *)
Record WalkInv (seen : list string) (sched : list DayRecord) : Prop := {
  wi_known : ∀ r t, r ∈ sched → mentions t r → t ∈ seen;
  wi_present : ∀ t, t ∈ seen → ∃ r, r ∈ sched ∧ mentions t r;
  wi_order : ∀ a b ra rb, precedes seen a b →
    ra ∈ sched → rb ∈ sched → mentions a ra → mentions b rb →
    isBefore (date rb) (date ra) = false
}.

(** What the walk keeps: the state of the day, the schedule, a finish date
    for every walked task, no later than the current day, and nothing
    allocated before 1970-01-01. *)
Record WalkBase (wd : list string) (seen : list string) (c : Z)
    (st : AllocState) : Prop := {
  wb_alloc : AllocInv wd c st;
  wb_walk : WalkInv seen (st_schedule st);
  wb_fin : ∀ t, t ∈ seen →
    ∃ n, finishedAt st !! t = Some (Day n) ∧ (n <= c)%Z;
  wb_epoch : st_schedule st ≠ [] → (0 <= c)%Z
}.

(** *** What the checks refuse *)

(** The descriptor is one that line 22 or line 26 refuses: it lacks a
    non-empty title, its hours are not a number or are [<= 0], or dayjs does
    not read its due date as a date. *)
Definition badDescriptor (host : Host) (raw : RawTask) : Prop :=
  (raw_title raw = None ∨ raw_title raw = Some "")
  ∨ (raw_estimatedHours raw = None
     ∨ ∃ h, raw_estimatedHours raw = Some h ∧ le0 h = true)
  ∨ parseDate host (raw_dueDate raw) = None.

(** Some dependency names no task of the list, or the task that lists it. *)
Definition badDependency (ts : list RawTask) : Prop :=
  ∃ raw d, raw ∈ ts ∧ d ∈ default [] (raw_dependencies raw)
           ∧ (Some d ∉ map raw_title ts ∨ raw_title raw = Some d).

(** The inputs that lines 18-89 refuse: no task list or an empty one, a bad
    descriptor, a repeated title, a bad dependency, a cycle. *)
Definition refused (host : Host) (inp : Input) : Prop :=
  match tasks inp with
  | None => True
  | Some ts =>
      ts = []
      ∨ (∃ raw, raw ∈ ts ∧ badDescriptor host raw)
      ∨ ¬ NoDup (map raw_title ts)
      ∨ badDependency ts
      ∨ ∃ t, tc (depEdge ts) t t
  end.

(** How a schedule changes while [ttl] is allocated from day [c] on. *)
Definition Grows (ttl : string) (c : Z) (s1 s2 : list DayRecord) : Prop :=
  (∀ r' t', r' ∈ s2 → mentions t' r' →
     (t' = ttl ∧ ∃ n, date r' = Day n ∧ (c <= n)%Z)
     ∨ ∃ r, r ∈ s1 ∧ date r = date r' ∧ mentions t' r)
  ∧ (∀ r t', r ∈ s1 → mentions t' r →
       ∃ r', r' ∈ s2 ∧ date r' = date r ∧ mentions t' r').

(** All the allocations of a schedule, record by record. *)
Definition allAllocations (sched : list DayRecord) : list Allocation :=
  concat (map allocations sched).

(** The record of day [d], as [findIndex] finds it at line 112, and the
    hours it lists, in order. *)
Definition recordOf (d : Dayjs) (sched : list DayRecord) : option DayRecord :=
  List.find (λ r, bool_decide (date r = d)) sched.

Definition hoursOnDay (d : Dayjs) (sched : list DayRecord) : list float :=
  match recordOf d sched with
  | Some r => hoursOf r
  | None => []
  end.

(** What the allocator keeps of the hours, when the current day is day [c]
    and [free] hours of it are left: [free] is what remains of
    [hoursPerDay] after the allocations of the day, the earlier days of the
    schedule are used up, and every allocation is more than zero and no more
    than [hoursPerDay]. *)
Record Hours (hoursPerDay : float) (c : Z) (free : float)
    (sched : list DayRecord) : Prop := {
  ho_nan : is_nan free = false;
  ho_ord : (0 <= ord free <= ord hoursPerDay)%Z;
  ho_free : free = countDown hoursPerDay (hoursOnDay (Day c) sched);
  ho_full : ∀ n, (n < c)%Z → Day n ∈ map date sched →
    (countDown hoursPerDay (hoursOnDay (Day n) sched) =? 0)%float = true;
  ho_pos : ∀ r a, r ∈ sched → a ∈ allocations r →
    gt0 (hours a) = true ∧ (ord (hours a) <= ord hoursPerDay)%Z
}.

(** The hours of the tasks of [seen] are placed: counting the allocations of
    each of them down from its [estimatedHours] ends at zero. *)
Definition Placed (taskMap : list Task) (seen : list string)
    (sched : list DayRecord) : Prop :=
  ∀ t, t ∈ seen →
    (countDown (estimatedHours (getTask taskMap t)) (hoursGiven t sched)
     =? 0)%float = true.

(** What the loop keeps of the hours of the task it places: [rem] is what
    remains of [est] after the allocations made so far. *)
Record Placing (est : float) (ttl : string) (rem : float)
    (sched : list DayRecord) : Prop := {
  pl_nan : is_nan rem = false;
  pl_ord : (0 <= ord rem <= ord est)%Z;
  pl_rem : rem = countDown est (hoursGiven ttl sched)
}.

(** The hours between two tasks, and at the head of the loop that places
    [ttl]. *)
Definition HoursBetween (hoursPerDay : float) (taskMap : list Task)
    (seen : list string) (c : Z) (free : float) (sched : list DayRecord)
    (warns : list Warning) : Prop :=
  Hours hoursPerDay c free sched ∧ Placed taskMap seen sched.

Definition HoursWithin (hoursPerDay : float) (taskMap : list Task)
    (seen : list string) (ttl : string) (c : Z) (rem free : float)
    (sched : list DayRecord) (warns : list Warning) : Prop :=
  Hours hoursPerDay c free sched ∧ Placed taskMap seen sched
  ∧ Placing (estimatedHours (getTask taskMap ttl)) ttl rem sched.



(** *** The claims, spelled out *)

(** The key [cmp] ranks by, spelled out on due instants, hours and titles:
    [a] before [b] ([strict]) or not after it. *)
Definition keyBefore (strict : bool) (host : Host)
    (da db : Z) (ha hb : float) (a b : string) : Prop :=
  (da < db)%Z
  ∨ (da = db ∧ (hb <? ha)%float = true)
  ∨ (da = db ∧ (ha =? hb)%float = true
     ∧ if strict then (localeCompare host a b < 0)%Z
       else (localeCompare host a b <= 0)%Z).







(** *** Invariants of the walk *)



(** What the titles of the schedule are while [ttl] is allocated, after the
    tasks of [seen]. *)
Definition TitlesInv (seen : list string) (ttl : string) (c : Z)
    (rem : float) (sched : list DayRecord) : Prop :=
  (squash (allTitles sched) = seen ∨ squash (allTitles sched) = seen ++ [ttl])
  ∧ (gt0 rem = false → squash (allTitles sched) = seen ++ [ttl])
  ∧ ∀ r, r ∈ sched →
      NoDup (titlesOf r)
      ∧ (∀ t, t ∈ titlesOf r → t ∈ seen ∨ t = ttl)
      ∧ (gt0 rem = true → date r = Day c → ttl ∉ titlesOf r).




(** *** Which error is thrown *)

(** The descriptors of [l] pass the registry: none is bad, no title
    repeats. *)
Definition accepted (host : Host) (l : list RawTask) : Prop :=
  (∀ raw, raw ∈ l → ¬ badDescriptor host raw) ∧ NoDup (map raw_title l).

(** The dependency [d] of the task titled [ttl] passes lines 39-40. *)
Definition goodDep (ts : list RawTask) (ttl d : string) : Prop :=
  Some d ∈ map raw_title ts ∧ d ≠ ttl.

(** The dependencies of the descriptors of [l] pass lines 37-42. *)
Definition depsChecked (ts l : list RawTask) : Prop :=
  ∀ raw ttl d, raw ∈ l → raw_title raw = Some ttl →
    d ∈ default [] (raw_dependencies raw) → goodDep ts ttl d.

(** What an error says about the task list: what it names is the first
    thing at fault, in the order of the checks.  The [TypeError] of line 177
    comes last, from a task list that passes every check and has a task
    whose hours are [NaN]. *)
Definition firstFault (host : Host) (ts : list RawTask) (e : Error) : Prop :=
  match e with
  | TasksNotArray => ts = []
  | InvalidTask raw =>
      ∃ l1 l2, ts = l1 ++ raw :: l2 ∧ accepted host l1
        ∧ ((raw_title raw = None ∨ raw_title raw = Some "")
           ∨ raw_estimatedHours raw = None
           ∨ ∃ h, raw_estimatedHours raw = Some h ∧ le0 h = true)
  | InvalidDueDate ttl =>
      ∃ l1 raw l2 h, ts = l1 ++ raw :: l2 ∧ accepted host l1
        ∧ raw_title raw = Some ttl ∧ ttl ≠ ""
        ∧ raw_estimatedHours raw = Some h ∧ le0 h = false
        ∧ parseDate host (raw_dueDate raw) = None
  | DuplicateTitle ttl =>
      ∃ l1 raw l2, ts = l1 ++ raw :: l2 ∧ accepted host l1
        ∧ raw_title raw = Some ttl ∧ ¬ badDescriptor host raw
        ∧ Some ttl ∈ map raw_title l1
  | UnknownDependency ttl d =>
      accepted host ts
      ∧ ∃ l1 raw l2 d1 d2, ts = l1 ++ raw :: l2 ∧ depsChecked ts l1
          ∧ raw_title raw = Some ttl
          ∧ default [] (raw_dependencies raw) = d1 ++ d :: d2
          ∧ (∀ x, x ∈ d1 → goodDep ts ttl x)
          ∧ Some d ∉ map raw_title ts
  | SelfDependency ttl =>
      accepted host ts
      ∧ ∃ l1 raw l2 d1 d2, ts = l1 ++ raw :: l2 ∧ depsChecked ts l1
          ∧ raw_title raw = Some ttl
          ∧ default [] (raw_dependencies raw) = d1 ++ ttl :: d2
          ∧ (∀ x, x ∈ d1 → goodDep ts ttl x)
  | CycleDetected =>
      accepted host ts ∧ depsChecked ts ts ∧ ∃ t, tc (depEdge ts) t t
  | TypeError =>
      accepted host ts ∧ depsChecked ts ts ∧ (¬ ∃ t, tc (depEdge ts) t t)
      ∧ ∃ raw h, raw ∈ ts ∧ raw_estimatedHours raw = Some h
                 ∧ is_nan h = true
  end.

(** The task map with every dependency list emptied. *)
Definition withoutDependencies (taskMap : list Task) : list Task :=
  map (λ t, {| title := title t; estimatedHours := estimatedHours t;
               dueDate := dueDate t; dependencies := [] |}) taskMap.

(** * Doubles *)

Section Doubles.
Local Open Scope Z_scope.

(** ** Binary digits *)

Lemma digits2_pos_bounds p :
  2 ^ (Zpos (digits2_pos p) - 1) <= Zpos p < 2 ^ Zpos (digits2_pos p).
Proof.
  induction p as [p IH|p IH|]; cbn [digits2_pos].
  - rewrite Pos2Z.inj_succ, Z.pow_succ_r by lia.
    replace (Z.succ (Z.pos (digits2_pos p)) - 1) with (Z.succ (Z.pos (digits2_pos p) - 1)) by lia.
    rewrite Z.pow_succ_r by lia. lia.
  - rewrite Pos2Z.inj_succ, Z.pow_succ_r by lia.
    replace (Z.succ (Z.pos (digits2_pos p)) - 1) with (Z.succ (Z.pos (digits2_pos p) - 1)) by lia.
    rewrite Z.pow_succ_r by lia. lia.
  - simpl. lia.
Qed.

Lemma digits2_pos_unique p k :
  2 ^ (k - 1) <= Zpos p < 2 ^ k → Zpos (digits2_pos p) = k.
Proof.
  intros [H1 H2]. pose proof (digits2_pos_bounds p) as [H3 H4].
  assert (0 < k).
  { destruct (Z_lt_le_dec 0 k) as [|Hk]; [done|].
    destruct (Z.eq_dec k 0) as [->|]; [rewrite Z.pow_0_r in H2; lia|].
    rewrite Z.pow_neg_r in H2 by lia. lia. }
  destruct (Z_lt_le_dec (Zpos (digits2_pos p)) k) as [Hlt|Hge].
  - assert (2 ^ Zpos (digits2_pos p) <= 2 ^ (k - 1)) by (apply Z.pow_le_mono_r; lia). lia.
  - destruct (Z_lt_le_dec k (Zpos (digits2_pos p))) as [Hlt|Hle]; [|lia].
    assert (2 ^ k <= 2 ^ (Zpos (digits2_pos p) - 1)) by (apply Z.pow_le_mono_r; lia). lia.
Qed.


Lemma iter_xO m d : Zpos (Pos.iter xO m d) = Zpos m * 2 ^ Zpos d.
Proof.
  induction d as [|d IH] using Pos.peano_ind.
  - simpl. lia.
  - rewrite Pos.iter_succ, Pos2Z.inj_succ, Z.pow_succ_r by lia.
    rewrite Pos2Z.inj_xO, IH. lia.
Qed.

(** ** Shifting right, bit by bit *)

Lemma iter_pos_nat {A} (f : A → A) n x :
  SpecFloat.iter_pos f n x = Nat.iter (Pos.to_nat n) f x.
Proof.
  revert x. induction n as [n IH|n IH|]; intros x; cbn [SpecFloat.iter_pos].
  - rewrite !IH, Pos2Nat.inj_xI.
    replace (S (2 * Pos.to_nat n))%nat with (Pos.to_nat n + (Pos.to_nat n + 1))%nat by lia.
    rewrite !Nat.iter_add. simpl. done.
  - rewrite !IH, Pos2Nat.inj_xO.
    replace (2 * Pos.to_nat n)%nat with (Pos.to_nat n + Pos.to_nat n)%nat by lia.
    by rewrite Nat.iter_add.
  - done.
Qed.

Lemma shr_1_m mrs : 0 <= shr_m mrs → shr_m (shr_1 mrs) = shr_m mrs / 2.
Proof.
  destruct mrs as [m r s]. cbn [shr_m shr_1]. intros Hm.
  destruct m as [|[p|p|]|p]; cbn [shr_m]; [done| | |done|lia].
  - apply (Z.div_unique _ _ _ 1); lia.
  - apply (Z.div_unique _ _ _ 0); lia.
Qed.

Lemma shr_n_m k mrs :
  0 <= shr_m mrs → shr_m (Nat.iter k shr_1 mrs) = shr_m mrs / 2 ^ Z.of_nat k.
Proof.
  intros Hm. induction k as [|k IH].
  - simpl. by rewrite Z.div_1_r.
  - rewrite Nat.iter_succ, shr_1_m, IH.
    + rewrite Nat2Z.inj_succ, Z.pow_succ_r by lia.
      rewrite Z.div_div by lia. f_equal. lia.
    + rewrite IH. apply Z.div_pos; lia.
Qed.

Lemma shr_1_r mrs : 0 <= shr_m mrs → shr_r (shr_1 mrs) = Z.odd (shr_m mrs).
Proof.
  destruct mrs as [m r s]. cbn [shr_m shr_1]. intros Hm.
  by destruct m as [|[p|p|]|p]; [..|lia].
Qed.

Lemma shr_n_r k mrs :
  0 <= shr_m mrs →
  shr_r (Nat.iter (S k) shr_1 mrs) = Z.odd (shr_m mrs / 2 ^ Z.of_nat k).
Proof.
  intros Hm. rewrite Nat.iter_succ, shr_1_r, shr_n_m; [done|done|].
  rewrite shr_n_m by done. apply Z.div_pos; lia.
Qed.

(** Rounding moves up only from a remainder of a half or more. *)
Lemma round_nearest_even_up mrs :
  round_nearest_even (shr_m mrs) (loc_of_shr_record mrs) ≠ shr_m mrs →
  shr_r mrs = true.
Proof. destruct mrs as [m [] []]; cbn; congruence. Qed.

Lemma round_nearest_even_bounds m l :
  m <= round_nearest_even m l <= m + 1.
Proof.
  destruct l as [|[]]; cbn [round_nearest_even]; try lia.
  destruct (Z.even m); lia.
Qed.

Lemma shr_record_of_loc_m m l : shr_m (shr_record_of_loc m l) = m.
Proof. by destruct l as [|[]]. Qed.

(** One call of [shr_fexp]: the mantissa is divided by a power of two and
    the exponent raised by as much; the record remembers whether the
    remainder reaches a half. *)
Lemma shr_fexp_spec m e :
  0 <= m →
  let n := Z.max 0 (fexp prec emax (Zdigits2 m + e) - e) in
  shr_m (fst (shr_fexp prec emax m e loc_Exact)) = m / 2 ^ n
  ∧ snd (shr_fexp prec emax m e loc_Exact) = e + n
  ∧ (shr_r (fst (shr_fexp prec emax m e loc_Exact)) = true →
     0 < n ∧ Z.odd (m / 2 ^ (n - 1)) = true).
Proof.
  intros Hm n. unfold shr_fexp, shr. subst n.
  destruct (fexp prec emax (Zdigits2 m + e) - e) as [|p|p] eqn:Hn;
    cbn [fst snd shr_record_of_loc shr_m shr_r].
  - rewrite Z.max_id. simpl. rewrite Z.div_1_r. split_and!; [done|lia|done].
  - replace (Z.max 0 (Z.pos p)) with (Z.pos p) by lia.
    rewrite iter_pos_nat.
    destruct (Pos.to_nat p) as [|k] eqn:Ek; [lia|].
    rewrite shr_n_m by done. rewrite shr_n_r by done. cbn [shr_m].
    replace (Z.of_nat (S k)) with (Z.pos p) by lia.
    replace (Z.of_nat k) with (Z.pos p - 1) by lia.
    split_and!; [done|done|]. intros ->. split; [lia|done].
  - replace (Z.max 0 (Z.neg p)) with 0 by lia. simpl. rewrite Z.div_1_r.
    split_and!; [done|lia|done].
Qed.

Lemma Zdigits2_nonneg_bounds m :
  0 < m → 2 ^ (Zdigits2 m - 1) <= m < 2 ^ Zdigits2 m.
Proof. destruct m as [|p|p]; [lia| |lia]. intros _. apply digits2_pos_bounds. Qed.

Lemma Zdigits2_le_of_lt m k : 0 <= m → 0 <= k → m < 2 ^ k → Zdigits2 m <= k.
Proof.
  intros Hm Hk Hlt. destruct (Z.eq_dec m 0) as [->|]; [simpl; lia|].
  destruct (Zdigits2_nonneg_bounds m) as [H1 _]; [lia|].
  destruct (Z_lt_le_dec k (Zdigits2 m)) as [Hgt|]; [|done].
  assert (2 ^ k <= 2 ^ (Zdigits2 m - 1)) by (apply Z.pow_le_mono_r; lia). lia.
Qed.

Lemma fexp_mono a b : a <= b → fexp prec emax a <= fexp prec emax b.
Proof. unfold fexp, SpecFloat.emin. lia. Qed.

Lemma fexp_emin a : -1074 <= fexp prec emax a.
Proof. unfold fexp, SpecFloat.emin, prec, emax. lia. Qed.

Lemma bounded_spec m e :
  bounded prec emax m e = true →
  fexp prec emax (Zpos (digits2_pos m) + e) = e ∧ e <= 971.
Proof.
  unfold bounded, canonical_mantissa. intros [H1 H2]%andb_prop.
  apply Z.eqb_eq in H1. apply Z.leb_le in H2. unfold prec, emax in H2. lia.
Qed.

(** Rounding what is below a float of the format gives nothing above it;
    and something below it, when it is more than half a unit in the last
    place away. *)
Lemma binary_round_aux_le D e mx ex :
  0 < D → e <= ex → bounded prec emax mx ex = true →
  D < Zpos mx * 2 ^ (ex - e) →
  match binary_round_aux prec emax false D e loc_Exact with
  | S754_zero s => s = false
  | S754_finite s m' e' =>
      s = false
      ∧ (e' < ex
         ∨ (e' = ex ∧ Zpos m' <= Zpos mx
            ∧ (2 ^ (ex - e) < 2 * (Zpos mx * 2 ^ (ex - e) - D) →
               Zpos m' < Zpos mx)))
  | _ => False
  end.
Proof.
  intros HD Hee [Hcan Hex]%bounded_spec Hlt.
  pose proof (digits2_pos_bounds mx) as [_ Hmx].
  set (dmx := Zpos (digits2_pos mx)) in *.
  (* the first shift *)
  unfold binary_round_aux.
  destruct (shr_fexp_spec D e) as (Hm1 & He1 & Hr1); [lia|].
  destruct (shr_fexp prec emax D e loc_Exact) as [mrs1 e1]. cbn [fst snd] in *.
  set (f := fexp prec emax (Zdigits2 D + e)) in *.
  assert (Zdigits2 D + e <= dmx + ex) as Hdig.
  { assert (Zdigits2 D <= dmx + (ex - e)); [|lia].
    apply Zdigits2_le_of_lt; [lia|lia|].
    rewrite Z.pow_add_r by lia.
    assert (0 < 2 ^ (ex - e)) by (apply Z.pow_pos_nonneg; lia). nia. }
  assert (f <= ex) as Hf by (rewrite <- Hcan; apply fexp_mono; done).
  assert (-1074 <= f) as Hf' by apply fexp_emin.
  set (k := Z.max 0 (f - e)) in *.
  assert (e1 <= ex ∧ -1074 <= e1 ∧ e <= e1) as (He1x & He1m & He1e) by lia.
  set (m1 := shr_m mrs1) in *.
  set (M := Zpos mx * 2 ^ (ex - e1)).
  assert (0 < 2 ^ (ex - e1)) as HpowM by (apply Z.pow_pos_nonneg; lia).
  assert (0 < 2 ^ k) as Hpowk by (apply Z.pow_pos_nonneg; lia).
  assert (Zpos mx * 2 ^ (ex - e) = M * 2 ^ k) as HX.
  { unfold M. replace (ex - e) with ((ex - e1) + k) by lia.
    rewrite Z.pow_add_r by lia. lia. }
  assert (0 <= m1 ∧ m1 + 1 <= M) as [Hm1' Hm1M].
  { rewrite Hm1. split; [apply Z.div_pos; lia|].
    assert (D / 2 ^ k < M); [|lia].
    apply Z.div_lt_upper_bound; [lia|]. lia. }
  (* the rounding *)
  pose proof (round_nearest_even_bounds m1 (loc_of_shr_record mrs1)) as Hrnd.
  pose proof (round_nearest_even_up mrs1) as Hup. fold m1 in Hup.
  set (m2 := round_nearest_even m1 (loc_of_shr_record mrs1)) in *.
  assert (2 ^ (ex - e) < 2 * (Zpos mx * 2 ^ (ex - e) - D) → m2 < M) as Hstrict.
  { intros Hfar. destruct (Z.eq_dec m2 m1) as [|Hne]; [lia|].
    destruct (Hr1 (Hup Hne)) as [Hk Hodd].
    (* the remainder of [D] reaches a half *)
    assert (2 ^ k = 2 ^ (k - 1) * 2) as Hk2.
    { rewrite Z.mul_comm, <- Z.pow_succ_r by lia. f_equal. lia. }
    assert (0 < 2 ^ (k - 1)) as Hpowk1 by (apply Z.pow_pos_nonneg; lia).
    pose proof (Z.div_mod D (2 ^ (k - 1)) ltac:(lia)) as Hdm.
    pose proof (Z.mod_pos_bound D (2 ^ (k - 1)) ltac:(lia)) as Hmod.
    set (q := D / 2 ^ (k - 1)) in *.
    assert (m1 = q / 2) as Hq.
    { rewrite Hm1. unfold q. rewrite Z.div_div by lia. by rewrite <- Hk2. }
    pose proof (Zdiv2_odd_eqn q) as Hq2. rewrite Hodd, Z.div2_div, <- Hq in Hq2.
    assert (2 ^ k <= 2 ^ (ex - e)) by (apply Z.pow_le_mono_r; lia).
    nia. }
  (* the second shift *)
  destruct (shr_fexp_spec m2 e1) as (Hm3 & He2 & _); [lia|].
  destruct (shr_fexp prec emax m2 e1 loc_Exact) as [mrs2 e2]. cbn [fst snd] in *.
  set (f2 := fexp prec emax (Zdigits2 m2 + e1)) in *.
  assert (f2 <= ex) as Hf2.
  { rewrite <- Hcan. apply fexp_mono.
    assert (Zdigits2 m2 <= dmx + (ex - e1)); [|lia].
    apply Zdigits2_le_of_lt; [lia|lia|].
    rewrite Z.pow_add_r by lia. unfold M in Hm1M. nia. }
  set (k2 := Z.max 0 (f2 - e1)) in *.
  assert (0 < 2 ^ k2) as Hpowk2 by (apply Z.pow_pos_nonneg; lia).
  assert (0 <= shr_m mrs2) as Hm3' by (rewrite Hm3; apply Z.div_pos; lia).
  destruct (shr_m mrs2) as [|m3|m3] eqn:Em3; [done| |lia].
  assert (e2 <= ex) as He2x by lia.
  destruct (Z.leb_spec e2 (emax - prec)) as [_|Hbad];
    [|unfold emax, prec in Hbad; lia].
  split; [done|].
  destruct (Z.eq_dec e2 ex) as [Heq|]; [right|left; lia].
  split; [done|]. rewrite Hm3.
  assert (k2 = ex - e1) as -> by lia. split.
  - assert (m2 / 2 ^ (ex - e1) <= Zpos mx); [|lia].
    apply Z.div_le_upper_bound; [lia|]. unfold M in Hm1M. lia.
  - intros Hfar%Hstrict.
    assert (m2 / 2 ^ (ex - e1) < Zpos mx); [|lia].
    apply Z.div_lt_upper_bound; [lia|]. unfold M in Hfar. lia.
Qed.

Lemma shl_align_spec m e e' :
  let '(m', e'') := shl_align m e e' in
  e'' = Z.min e e' ∧ Zpos m' = Zpos m * 2 ^ (e - e'').
Proof.
  unfold shl_align. destruct (e' - e) as [|p|p] eqn:E.
  - replace (Z.min e e') with e by lia. rewrite Z.sub_diag. simpl. lia.
  - replace (Z.min e e') with e by lia. rewrite Z.sub_diag. simpl. lia.
  - replace (Z.min e e') with e' by lia. split; [done|].
    rewrite iter_xO. do 2 f_equal. lia.
Qed.

Lemma binary_round_le D e mx ex :
  e <= ex → bounded prec emax mx ex = true →
  Zpos D < Zpos mx * 2 ^ (ex - e) →
  match binary_round prec emax false D e with
  | S754_zero s => s = false
  | S754_finite s m' e' =>
      s = false
      ∧ (e' < ex
         ∨ (e' = ex ∧ Zpos m' <= Zpos mx
            ∧ (2 ^ (ex - e) < 2 * (Zpos mx * 2 ^ (ex - e) - Zpos D) →
               Zpos m' < Zpos mx)))
  | _ => False
  end.
Proof.
  intros Hee Hb Hlt. unfold binary_round.
  pose proof (shl_align_spec D e (fexp prec emax (Z.pos (digits2_pos D) + e))) as Hs.
  destruct (shl_align D e _) as [mz ez]. destruct Hs as [Hez Hmz].
  assert (0 < 2 ^ (e - ez)) as Hpow by (apply Z.pow_pos_nonneg; lia).
  assert (2 ^ (ex - ez) = 2 ^ (ex - e) * 2 ^ (e - ez)) as Hsplit.
  { rewrite <- Z.pow_add_r by lia. f_equal. lia. }
  pose proof (binary_round_aux_le (Zpos mz) ez mx ex) as Haux.
  destruct (binary_round_aux prec emax false (Z.pos mz) ez loc_Exact)
    as [s|s| |s m' e']; try (apply Haux; [lia|lia|done|rewrite Hmz, Hsplit; nia]).
  destruct Haux as [-> Haux]; [lia|lia|done|rewrite Hmz, Hsplit; nia|].
  split; [done|]. destruct Haux as [?|(? & ? & Hst)]; [by left|right].
  split_and!; [done..|]. intros Hfar. apply Hst. rewrite Hmz, Hsplit. nia.
Qed.

(** What a valid finite float looks like. *)
Lemma bounded_range m e :
  bounded prec emax m e = true →
  -1074 <= e <= 971 ∧ Zpos m < 9007199254740992
  ∧ (-1074 < e → 4503599627370496 <= Zpos m).
Proof.
  intros [Hcan He]%bounded_spec.
  pose proof (digits2_pos_bounds m) as [Hlo Hhi].
  pose proof (fexp_emin (Z.pos (digits2_pos m) + e)) as Hmin.
  unfold fexp, SpecFloat.emin, prec, emax in Hcan.
  split; [lia|]. split.
  - assert (2 ^ Z.pos (digits2_pos m) <= 2 ^ 53) by (apply Z.pow_le_mono_r; lia).
    change (2 ^ 53) with 9007199254740992 in *. lia.
  - intros Hnorm. assert (Z.pos (digits2_pos m) = 53) as Hd by lia.
    rewrite Hd in Hlo. change (2 ^ (53 - 1)) with 4503599627370496 in Hlo. done.
Qed.

(** ** The order of the doubles, as integers *)

Lemma SFcompare_ord x y :
  valid_binary x = true → valid_binary y = true →
  SFis_nan x = false → SFis_nan y = false →
  SFcompare x y = Some (SFord x ?= SFord y).
Proof.
  intros Hx Hy Nx Ny.
  destruct x as [sx|sx| |sx mx ex]; [| |done|];
    (destruct y as [sy|sy| |sy my ey]; [| |done|]);
    cbn [valid_binary] in Hx, Hy;
    try (apply bounded_range in Hx as (Hx1 & Hx2 & Hx3));
    try (apply bounded_range in Hy as (Hy1 & Hy2 & Hy3));
    cbn [SFcompare SFord];
    try (destruct sx); try (destruct sy); cbn [cond_Zopp]; f_equal; symmetry;
    try (apply Z.compare_eq_iff; lia); try (apply Z.compare_lt_iff; lia);
    try (apply Z.compare_gt_iff; lia).
  - change (Pos.compare_cont Eq mx my) with (Pos.compare mx my).
    destruct (Z.compare_spec ex ey) as [->|Hlt|Hgt].
    + destruct (Pos.compare_spec mx my) as [->|E|E]; cbn [CompOpp];
        [apply Z.compare_eq_iff|apply Z.compare_gt_iff|apply Z.compare_lt_iff]; lia.
    + apply Z.compare_gt_iff. lia.
    + apply Z.compare_lt_iff. lia.
  - change (Pos.compare_cont Eq mx my) with (Pos.compare mx my).
    destruct (Z.compare_spec ex ey) as [->|Hlt|Hgt].
    + destruct (Pos.compare_spec mx my) as [->|E|E];
        [apply Z.compare_eq_iff|apply Z.compare_lt_iff|apply Z.compare_gt_iff]; lia.
    + apply Z.compare_lt_iff. lia.
    + apply Z.compare_gt_iff. lia.
Qed.

Lemma SFord_finite_pos m e :
  bounded prec emax m e = true →
  0 < SFord (S754_finite false m e) < ordInf.
Proof.
  intros (H1 & H2 & H3)%bounded_range. cbn [SFord cond_Zopp]. unfold ordInf. lia.
Qed.

(** Taking a smaller non-negative double from a finite one gives a double
    between zero and the larger one. *)
Lemma SFsub_ord x y :
  valid_binary x = true → valid_binary y = true →
  valid_binary (SFsub prec emax x y) = true →
  SFis_nan x = false → SFis_nan y = false →
  0 <= SFord y <= SFord x → SFord x < ordInf →
  SFis_nan (SFsub prec emax x y) = false
  ∧ 0 <= SFord (SFsub prec emax x y) <= SFord x.
Proof.
  intros Hx Hy Hr Nx Ny [Hy0 Hyx] Hxi.
  destruct y as [sy|sy| |sy my ey]; [| |done|].
  - (* y is a zero *)
    destruct x as [sx|sx| |sx mx ex]; [| |done|].
    + by destruct sx, sy.
    + destruct sx; cbn [SFord cond_Zopp] in Hxi, Hyx; unfold ordInf in *; lia.
    + cbn [SFsub]. change (SFord (S754_zero sy)) with 0 in Hyx. split; [done|lia].
  - destruct sy; cbn [SFord cond_Zopp] in Hy0, Hyx; unfold ordInf in *; lia.
  - cbn [valid_binary] in Hy.
    pose proof (bounded_range _ _ Hy) as (Hy1 & Hy2 & Hy3).
    destruct sy; [cbn [SFord cond_Zopp] in Hy0; lia|].
    destruct x as [sx|sx| |sx mx ex]; [| |done|].
    + cbn [SFord cond_Zopp] in Hyx. lia.
    + destruct sx; cbn [SFord cond_Zopp] in *; unfold ordInf in *; lia.
    + cbn [valid_binary] in Hx.
      pose proof (bounded_range _ _ Hx) as (Hx1 & Hx2 & Hx3).
      destruct sx; [cbn [SFord cond_Zopp] in Hyx; lia|].
      assert (ey < ex ∨ (ey = ex ∧ Z.pos my <= Z.pos mx)) as Hlex
        by (cbn [SFord cond_Zopp] in Hyx; lia).
      revert Hr. cbn [SFsub cond_Zopp].
      replace (Z.min ex ey) with ey by lia.
      pose proof (shl_align_spec mx ex ey) as Hsx.
      pose proof (shl_align_spec my ey ey) as Hsy.
      destruct (shl_align mx ex ey) as [mx' ex'].
      destruct (shl_align my ey ey) as [my' ey']. cbn [fst].
      destruct Hsx as [Hex' Hmx'], Hsy as [Hey' Hmy'].
      replace (Z.min ey ey) with ey in Hey' by lia. subst ey'.
      replace (Z.min ex ey) with ey in Hex' by lia. subst ex'.
      rewrite Z.sub_diag in Hmy'. simpl in Hmy'. rewrite Z.mul_1_r in Hmy'.
      assert (0 < 2 ^ (ex - ey)) as Hpow by (apply Z.pow_pos_nonneg; lia).
      assert (0 <= Z.pos mx' - Z.pos my') as Hnn.
      { rewrite Hmx', Hmy'. destruct Hlex as [Hlt|[-> Hle]].
        - assert (2 ^ 1 <= 2 ^ (ex - ey)) by (apply Z.pow_le_mono_r; lia).
          change (2 ^ 1) with 2 in *. nia.
        - rewrite Z.sub_diag. simpl. lia. }
      destruct (Z.pos mx' - Z.pos my') as [|D|D] eqn:ED; [| |lia].
      * cbn [binary_normalize SFis_nan]. intros _. split; [done|].
        change (SFord (S754_zero false)) with 0.
        pose proof (SFord_finite_pos _ _ Hx). lia.
      * cbn [binary_normalize].
        pose proof (binary_round_le D ey mx ex) as Hle.
        destruct (binary_round prec emax false D ey) as [s|s| |s m' e'];
          intros Hr.
        -- split; [done|]. change (SFord (S754_zero s)) with 0.
           pose proof (SFord_finite_pos _ _ Hx). lia.
        -- exfalso. apply Hle; [lia|done|lia].
        -- exfalso. apply Hle; [lia|done|lia].
        -- destruct Hle as [-> Hle]; [lia|done|lia|].
           cbn [valid_binary] in Hr. apply bounded_range in Hr as (Hr1 & Hr2 & Hr3).
           split; [done|]. cbn [SFord cond_Zopp]. lia.
Qed.

Lemma SFsub_self x :
  SFis_nan x = false → - ordInf < SFord x < ordInf →
  SFsub prec emax x x = S754_zero false.
Proof.
  intros Nx Hx. destruct x as [s|s| |s m e]; [| |done|].
  - by destruct s.
  - destruct s; cbn [SFord cond_Zopp] in Hx; unfold ordInf in Hx; lia.
  - cbn [SFsub]. 
    destruct (shl_align m e (Z.min e e)) as [m' e'].
    cbn [fst]. by rewrite Z.sub_diag.
Qed.

Lemma SFsub_inf y :
  SFis_nan y = false → SFord y < ordInf →
  valid_binary y = true →
  SFsub prec emax (S754_infinity false) y = S754_infinity false.
Proof.
  intros Ny Hy Hv. destruct y as [s|s| |s m e]; [done| |done|done].
  destruct s; [done|]. cbn [SFord cond_Zopp] in Hy. unfold ordInf in Hy. lia.
Qed.



(** ** Primitive doubles *)


Lemma is_nan_SF x : is_nan x = SFis_nan (Prim2SF x).
Proof.
  unfold is_nan. rewrite FloatAxioms.eqb_spec. unfold SFeqb.
  destruct (SFis_nan (Prim2SF x)) eqn:E.
  - by destruct (Prim2SF x).
  - rewrite SFcompare_ord by (done || apply Prim2SF_valid).
    by rewrite Z.compare_refl.
Qed.

Lemma ltb_ord x y :
  is_nan x = false → is_nan y = false → (x <? y)%float = (ord x <? ord y).
Proof.
  rewrite !is_nan_SF. intros Nx Ny. rewrite FloatAxioms.ltb_spec. unfold SFltb.
  rewrite SFcompare_ord by (done || apply Prim2SF_valid).
  unfold ord, Z.ltb. by destruct (_ ?= _).
Qed.

Lemma leb_ord x y :
  is_nan x = false → is_nan y = false → (x <=? y)%float = (ord x <=? ord y).
Proof.
  rewrite !is_nan_SF. intros Nx Ny. rewrite FloatAxioms.leb_spec. unfold SFleb.
  rewrite SFcompare_ord by (done || apply Prim2SF_valid).
  unfold ord, Z.leb. by destruct (_ ?= _).
Qed.

Lemma eqb_ord x y :
  is_nan x = false → is_nan y = false → (x =? y)%float = (ord x =? ord y).
Proof.
  rewrite !is_nan_SF. intros Nx Ny. rewrite FloatAxioms.eqb_spec. unfold SFeqb.
  rewrite SFcompare_ord by (done || apply Prim2SF_valid).
  fold (ord x) (ord y). symmetry.
  destruct (Z.compare_spec (ord x) (ord y)) as [->|?|?];
    [apply Z.eqb_refl|apply Z.eqb_neq; lia..].
Qed.

Lemma ltb_nan x y :
  is_nan x = true ∨ is_nan y = true → (x <? y)%float = false.
Proof.
  rewrite !is_nan_SF, FloatAxioms.ltb_spec. unfold SFltb.
  intros [H|H]; destruct (Prim2SF x), (Prim2SF y); done.
Qed.

Lemma leb_nan x y :
  is_nan x = true ∨ is_nan y = true → (x <=? y)%float = false.
Proof.
  rewrite !is_nan_SF, FloatAxioms.leb_spec. unfold SFleb.
  intros [H|H]; destruct (Prim2SF x), (Prim2SF y); done.
Qed.

Lemma ord_zero : ord 0%float = 0.
Proof. reflexivity. Qed.

Lemma ord_infinity : ord infinity = ordInf.
Proof. reflexivity. Qed.

Lemma sub_ord x y :
  is_nan x = false → is_nan y = false →
  0 <= ord y <= ord x → ord x < ordInf →
  is_nan (x - y)%float = false ∧ 0 <= ord (x - y)%float <= ord x.
Proof.
  rewrite !is_nan_SF. unfold ord. rewrite sub_spec. intros Nx Ny Hyx Hx.
  apply SFsub_ord; try done; try apply Prim2SF_valid.
  change (SFsub prec emax) with SF64sub. rewrite <- sub_spec. apply Prim2SF_valid.
Qed.


Lemma sub_self x :
  is_nan x = false → - ordInf < ord x < ordInf → (x - x)%float = 0%float.
Proof.
  rewrite is_nan_SF. intros Nx Hx. apply Prim2SF_inj.
  rewrite sub_spec. change SF64sub with (SFsub prec emax).
  change (Prim2SF 0) with (S754_zero false). by apply SFsub_self.
Qed.

Lemma sub_infinity y :
  is_nan y = false → ord y < ordInf → (infinity - y)%float = infinity.
Proof.
  rewrite is_nan_SF. intros Ny Hy. apply Prim2SF_inj.
  rewrite sub_spec. change SF64sub with (SFsub prec emax).
  change (Prim2SF infinity) with (S754_infinity false).
  apply SFsub_inf; [done..|apply Prim2SF_valid].
Qed.

Lemma ord_infinity_inv x : is_nan x = false → ord x = ordInf → x = infinity.
Proof.
  rewrite is_nan_SF. unfold ord. intros Nx Hx. apply Prim2SF_inj.
  change (Prim2SF infinity) with (S754_infinity false).
  pose proof (Prim2SF_valid x) as Hv.
  destruct (Prim2SF x) as [s|s| |s m e]; [| |done|].
  - cbn in Hx. unfold ordInf in Hx. lia.
  - destruct s; [|done]. cbn in Hx. unfold ordInf in Hx. lia.
  - cbn [valid_binary] in Hv. apply bounded_range in Hv.
    destruct s; cbn [SFord cond_Zopp] in Hx; unfold ordInf in Hx; lia.
Qed.

Lemma ord_range x : - ordInf <= ord x <= ordInf.
Proof.
  unfold ord. pose proof (Prim2SF_valid x) as Hv.
  destruct (Prim2SF x) as [s|s| |s m e]; cbn [SFord]; unfold ordInf; [lia| |lia|].
  - destruct s; cbn; lia.
  - cbn [valid_binary] in Hv. apply bounded_range in Hv.
    destruct s; cbn [cond_Zopp]; lia.
Qed.

(** *** The tests of the loop *)

Lemma is_nan_nan : is_nan nan = true.
Proof. reflexivity. Qed.

Lemma gt0_ord x : gt0 x = true ↔ is_nan x = false ∧ 0 < ord x.
Proof.
  unfold gt0. destruct (is_nan x) eqn:Nx.
  - rewrite ltb_nan by auto. split; [done|by intros [? _]].
  - rewrite ltb_ord by done. rewrite ord_zero, Z.ltb_lt.
    split; [by split|by intros [_ ?]].
Qed.

Lemma gt0_false x : gt0 x = false → is_nan x = false → ord x <= 0.
Proof.
  unfold gt0. intros H Nx. rewrite ltb_ord in H by done.
  rewrite ord_zero in H. by apply Z.ltb_ge in H.
Qed.

Lemma le0_ord x : le0 x = true ↔ is_nan x = false ∧ ord x <= 0.
Proof.
  unfold le0. destruct (is_nan x) eqn:Nx.
  - rewrite leb_nan by auto. split; [done|by intros [? _]].
  - rewrite leb_ord by done. rewrite ord_zero, Z.leb_le.
    split; [by split|by intros [_ ?]].
Qed.

Lemma le0_false x : le0 x = false → is_nan x = false → 0 < ord x.
Proof.
  unfold le0. intros H Nx. rewrite leb_ord in H by done.
  rewrite ord_zero in H. by apply Z.leb_gt in H.
Qed.

Lemma gt0_not_le0 x : gt0 x = true → le0 x = false.
Proof.
  intros [Nx Hx]%gt0_ord. unfold le0. rewrite leb_ord, ord_zero by done.
  apply Z.leb_gt. done.
Qed.

Lemma finitePositive_ord x :
  finitePositive x ↔ is_nan x = false ∧ 0 < ord x < ordInf.
Proof.
  unfold finitePositive. destruct (is_nan x) eqn:Nx.
  - rewrite !ltb_nan by auto. split; [by intros [? _]|by intros [? _]].
  - rewrite !ltb_ord by done. rewrite ord_zero, ord_infinity, !Z.ltb_lt.
    split; [by split|by intros [_ ?]].
Qed.

Lemma eqb_zero x : is_nan x = false → ord x = 0 → (x =? 0)%float = true.
Proof.
  rewrite is_nan_SF. intros Nx Hx. rewrite FloatAxioms.eqb_spec. unfold SFeqb.
  rewrite SFcompare_ord; [|apply Prim2SF_valid|done|done|done].
  fold (ord x). rewrite Hx. done.
Qed.

(** [Math.min] of two numbers is one of them, the one that comes first. *)
Lemma Math_min_ord a b :
  is_nan a = false → is_nan b = false →
  (Math_min a b = a ∨ Math_min a b = b)
  ∧ is_nan (Math_min a b) = false
  ∧ ord (Math_min a b) = Z.min (ord a) (ord b).
Proof.
  intros Na Nb. unfold Math_min. rewrite Na, Nb. cbn [orb].
  rewrite !ltb_ord by done.
  destruct (Z.ltb_spec (ord a) (ord b)); [split_and!; auto; lia|].
  destruct (Z.ltb_spec (ord b) (ord a)); [split_and!; auto; lia|].
  destruct (get_sign a); split_and!; auto; lia.
Qed.

Lemma Math_min_nan a b :
  is_nan a = true ∨ is_nan b = true → Math_min a b = nan.
Proof. unfold Math_min. by intros [->| ->]; rewrite ?orb_true_r. Qed.

(** *** Exponents *)



End Doubles.

(** * The calendar *)

Lemma Day_inj a b : Day a = Day b → a = b.
Proof. unfold Day, msPerDay. intros [= H]. lia. Qed.

Lemma Day_div n : (n * msPerDay / msPerDay = n)%Z.
Proof. unfold msPerDay. by rewrite Z.div_mul. Qed.

Lemma isValid_Day n : isValid (Day n) = true.
Proof. done. Qed.

Lemma addDay_Day n : addDay (Day n) = Day (n + 1).
Proof. unfold Day, addDay. f_equal. unfold msPerDay. lia. Qed.

Lemma startOfDay_Day n : startOfDay (Day n) = Day n.
Proof. unfold startOfDay. unfold Day at 1. by rewrite Day_div. Qed.

Lemma isAfter_Day a b : isAfter (Day a) (Day b) = bool_decide (b < a)%Z.
Proof.
  unfold Day, isAfter, msPerDay. apply bool_decide_ext. lia.
Qed.

Lemma isBefore_Day a b : isBefore (Day a) (Day b) = bool_decide (a < b)%Z.
Proof.
  unfold Day, isBefore, msPerDay. apply bool_decide_ext. lia.
Qed.

Lemma day_Day n : day (Day n) = Some (Z.to_nat ((n + 4) mod 7)).
Proof. unfold day. unfold Day. by rewrite Day_div. Qed.

Lemma weekdayName_Day n :
  weekdayName (Day n) = WEEKDAY_NAME !! Z.to_nat ((n + 4) mod 7).
Proof. unfold weekdayName. by rewrite day_Day. Qed.

Lemma weekdayName_period n : weekdayName (Day (n + 7)) = weekdayName (Day n).
Proof.
  rewrite !weekdayName_Day.
  replace (n + 7 + 4)%Z with (n + 4 + 1 * 7)%Z by lia.
  by rewrite Z.mod_add by lia.
Qed.

(** A midnight and an instant of some day: the midnight is after the instant
    exactly when its day is after that day. *)
Lemma isAfter_startOfDay c d :
  isAfter (Day c) (startOfDay d) = isAfter (Day c) d.
Proof.
  destruct d as [t|]; [|done]. unfold startOfDay. rewrite isAfter_Day.
  unfold Day, isAfter. apply bool_decide_ext. unfold msPerDay.
  pose proof (Z.div_mod t 86400000 ltac:(lia)).
  pose proof (Z.mod_pos_bound t 86400000 ltac:(lia)). lia.
Qed.

Lemma nextWorkday_invalid fuel wd : nextWorkday fuel InvalidDate wd = None.
Proof. induction fuel as [|fuel IH]; simpl; [done|apply IH]. Qed.

Lemma nextWorkday_valid fuel wd : ∀ d d',
  nextWorkday fuel d wd = Some d' → isValid d = true.
Proof.
  intros [t|] d'; [done|]. by rewrite nextWorkday_invalid.
Qed.

Lemma nextWorkday_minimal wd : ∀ fuel n d',
  nextWorkday fuel (Day n) wd = Some d' →
  ∃ n', d' = Day n' ∧ firstWorkday wd n n'.
Proof.
  assert (∀ n, includes wd (weekdayName (Day n)) = true → firstWorkday wd n n)
    as Hhere.
  { intros n Hin. split_and!; [lia|done|]. intros m ?. lia. }
  induction fuel as [|fuel IH]; intros n d'; cbn [nextWorkday];
    destruct (includes wd (weekdayName (Day n))) eqn:Hin; try done.
  - intros [= <-]. eauto.
  - intros [= <-]. eauto.
  - rewrite addDay_Day. intros Hnext.
    destruct (IH _ _ Hnext) as (n' & -> & Hle & Hw & Hmin).
    exists n'. split; [done|]. split_and!; [lia|done|].
    intros m Hm. destruct (decide (m = n)) as [->|Hne].
    + unfold isWorkday. by rewrite Hin.
    + apply Hmin. lia.
Qed.

Lemma firstWorkday_week wd n n' : firstWorkday wd n n' → (n' <= n + 6)%Z.
Proof.
  intros (Hle & Hw & Hmin).
  destruct (decide (n' <= n + 6)%Z) as [|Hfar]; [done|].
  destruct (Hmin (n' - 7)%Z ltac:(lia)).
  unfold isWorkday in *. rewrite <- weekdayName_period.
  by replace (n' - 7 + 7)%Z with n' by lia.
Qed.

Lemma firstWorkday_unique wd n a b :
  firstWorkday wd n a → firstWorkday wd n b → a = b.
Proof.
  intros (Ha & Hwa & Hma) (Hb & Hwb & Hmb).
  destruct (Z.lt_trichotomy a b) as [Hlt|[->|Hlt]]; [|done|].
  - destruct (Hmb a ltac:(lia) Hwa).
  - destruct (Hma b ltac:(lia) Hwb).
Qed.






(** ** Sorting *)

Lemma insertSorted_perm c x l : insertSorted c x l ≡ₚ x :: l.
Proof.
  induction l as [|y l IH]; simpl; [done|].
  destruct (c x y <=? 0)%Z; [done|]. rewrite IH. apply Permutation_swap.
Qed.

Lemma sort_perm c l : sort c l ≡ₚ l.
Proof.
  induction l as [|x l IH]; simpl; [done|].
  by rewrite insertSorted_perm, IH.
Qed.

Section Sortedness.
Variable c : string → string → Z.
Hypothesis c_total : ∀ a b, ranked c a b ∨ ranked c b a.
Hypothesis c_trans : ∀ a b d, ranked c a b → ranked c b d → ranked c a d.

Lemma insertSorted_sorted x l :
  StronglySorted (ranked c) l → StronglySorted (ranked c) (insertSorted c x l).
Proof.
  induction 1 as [|y l Hs IH Hall]; simpl.
  - repeat constructor.
  - destruct (c x y <=? 0)%Z eqn:Hxy.
    + apply Z.leb_le in Hxy. constructor; [by constructor|].
      constructor; [done|].
      eapply Forall_impl; [exact Hall|]. intros z Hz. by eapply c_trans.
    + apply Z.leb_gt in Hxy. constructor; [done|].
      rewrite insertSorted_perm. constructor; [|done].
      destruct (c_total x y) as [H'|H']; [unfold ranked in H'; lia|done].
Qed.

Lemma sort_sorted l : StronglySorted (ranked c) (sort c l).
Proof.
  induction l as [|x l IH]; simpl; [constructor|by apply insertSorted_sorted].
Qed.
End Sortedness.

(** ** Counting and positions in lists *)

Lemma occ_nil x : occ x [] = 0%nat.
Proof. done. Qed.

Lemma occ_cons x y l :
  occ x (y :: l) = ((if bool_decide (y = x) then 1 else 0) + occ x l)%nat.
Proof.
  unfold occ. rewrite filter_cons.
  destruct (decide (y = x)) as [->|Hne].
  - by rewrite bool_decide_eq_true_2.
  - by rewrite bool_decide_eq_false_2.
Qed.

Lemma occ_app x l1 l2 : occ x (l1 ++ l2) = (occ x l1 + occ x l2)%nat.
Proof. unfold occ. by rewrite filter_app, length_app. Qed.

Lemma occ_pos x l : (0 < occ x l)%nat ↔ x ∈ l.
Proof.
  induction l as [|y l IH].
  - rewrite occ_nil. split; [lia|]. by intros ?%elem_of_nil.
  - rewrite occ_cons, elem_of_cons. case_bool_decide as Hy.
    + split; [by left|lia].
    + simpl. rewrite IH. split; [by right|]. by intros [?|?].
Qed.

(** Moving [x] into the set of finished tasks removes exactly its
    occurrences from what is unmet. *)
Lemma unmet_snoc (done : list string) (x : string) (l : list string) :
  x ∉ done →
  length (filter (λ d, d ∉ done) l)
  = (length (filter (λ d, d ∉ done ++ [x]) l) + occ x l)%nat.
Proof.
  intros Hx. induction l as [|y l IH]; [done|].
  rewrite !filter_cons, occ_cons.
  destruct (decide (y = x)) as [->|Hne].
  - rewrite bool_decide_eq_true_2 by done.
    rewrite decide_True by done.
    rewrite decide_False by (rewrite elem_of_app, list_elem_of_singleton; tauto).
    simpl. lia.
  - rewrite bool_decide_eq_false_2 by done.
    destruct (decide (y ∉ done)) as [Hy|Hy].
    + rewrite decide_True
        by (rewrite elem_of_app, list_elem_of_singleton; tauto).
      simpl. lia.
    + rewrite decide_False
        by (rewrite elem_of_app, list_elem_of_singleton; tauto).
      simpl. lia.
Qed.

Lemma filter_length_zero (P : string → Prop) `{∀ x, Decision (P x)}
    (l : list string) :
  length (filter P l) = 0%nat ↔ ∀ x, x ∈ l → ¬ P x.
Proof.
  rewrite length_zero_iff_nil. split.
  - intros Hnil x Hx HP.
    assert (x ∈ filter P l) as Hin by (by apply list_elem_of_filter).
    rewrite Hnil in Hin. by apply elem_of_nil in Hin.
  - intros Hall. destruct (filter P l) as [|y l'] eqn:Heq; [done|].
    assert (y ∈ filter P l) as Hin by (rewrite Heq; left).
    apply list_elem_of_filter in Hin as [HP Hy]. by destruct (Hall y Hy).
Qed.

Lemma NoDup_split_unique (a : string) l1 l2 m1 m2 :
  NoDup (l1 ++ a :: l2) → l1 ++ a :: l2 = m1 ++ a :: m2 → l1 = m1.
Proof.
  revert m1. induction l1 as [|x l1 IH]; intros m1 Hnd Heq.
  - destruct m1 as [|y m1]; [done|]. simpl in *. injection Heq as <- Heq.
    apply NoDup_cons in Hnd as [Hnot _]. destruct Hnot. rewrite Heq.
    rewrite elem_of_app, elem_of_cons. tauto.
  - destruct m1 as [|y m1]; simpl in *.
    + injection Heq as -> Heq. apply NoDup_cons in Hnd as [Hnot _].
      destruct Hnot. rewrite elem_of_app, elem_of_cons. tauto.
    + injection Heq as <- Heq. f_equal. apply IH; [|done].
      by apply NoDup_cons in Hnd as [_ ?].
Qed.

Lemma precedes_split (l : list string) a b l1 l2 :
  NoDup l → l = l1 ++ b :: l2 → precedes l a b → a ∈ l1.
Proof.
  intros Hnd Hl (m1 & m2 & m3 & Hm). subst l.
  assert (l1 = m1 ++ a :: m2) as ->.
  { eapply NoDup_split_unique; [exact Hnd|].
    rewrite Hm. by rewrite <- app_assoc. }
  rewrite elem_of_app, elem_of_cons. tauto.
Qed.

Lemma precedes_intro (l1 l2 : list string) a b :
  a ∈ l1 → precedes (l1 ++ b :: l2) a b.
Proof.
  intros (m1 & m2 & ->)%list_elem_of_split. exists m1, m2, l2.
  by rewrite <- app_assoc.
Qed.

Lemma precedes_irrefl (l : list string) a : NoDup l → ¬ precedes l a a.
Proof.
  intros Hnd (l1 & l2 & l3 & ->).
  apply NoDup_app in Hnd as (_ & _ & Hnd).
  apply NoDup_cons in Hnd as [Hnot _]. destruct Hnot.
  rewrite elem_of_app, elem_of_cons. tauto.
Qed.

Lemma precedes_trans (l : list string) a b d :
  NoDup l → precedes l a b → precedes l b d → precedes l a d.
Proof.
  intros Hnd Hab (m1 & m2 & m3 & Hm).
  pose proof (precedes_split l a b m1 (m2 ++ d :: m3) Hnd Hm Hab) as Ha.
  apply list_elem_of_split in Ha as (k1 & k2 & ->).
  exists k1, (k2 ++ b :: m2), m3. rewrite Hm.
  by rewrite <- !app_assoc.
Qed.

(** ** The task map *)

Lemma getTask_cons t ts s :
  getTask (t :: ts) s = if bool_decide (title t = s) then t else getTask ts s.
Proof. unfold getTask, lookupTask. simpl. by case_bool_decide. Qed.

Lemma getTask_absent ts s :
  s ∉ map title ts → dependencies (getTask ts s) = [].
Proof.
  induction ts as [|t ts IH]; [done|]. simpl.
  rewrite not_elem_of_cons. intros [Hne Hnot].
  rewrite getTask_cons, bool_decide_eq_false_2 by done. by apply IH.
Qed.

Lemma getTask_title ts s : title (getTask ts s) = s.
Proof.
  induction ts as [|t ts IH]; [done|].
  rewrite getTask_cons. by case_bool_decide.
Qed.

Lemma getTask_lookup ts t :
  NoDup (map title ts) → t ∈ ts → getTask ts (title t) = t.
Proof.
  induction ts as [|u ts IH]; simpl; [by intros _ ?%elem_of_nil|].
  intros [Hnot Hnd]%NoDup_cons [->|Hin]%elem_of_cons;
    rewrite getTask_cons.
  - by rewrite bool_decide_eq_true_2.
  - rewrite bool_decide_eq_false_2; [by apply IH|].
    intros Heq. destruct Hnot. rewrite Heq. by apply list_elem_of_fmap_2.
Qed.

Lemma getTask_elem ts s : s ∈ map title ts → getTask ts s ∈ ts.
Proof.
  induction ts as [|u ts IH]; simpl; [by intros ?%elem_of_nil|].
  rewrite getTask_cons. case_bool_decide; [left|].
  intros [?|Hin]%elem_of_cons; [congruence|]. right. by apply IH.
Qed.

(** ** The dependency graph *)

Lemma getOr_insert_eq {A} (dflt : A) (m : gmap string A) k v :
  getOr dflt (<[k := v]> m) k = v.
Proof. unfold getOr. by rewrite lookup_insert_eq. Qed.

Lemma getOr_insert_ne {A} (dflt : A) (m : gmap string A) k k' v :
  k ≠ k' → getOr dflt (<[k := v]> m) k' = getOr dflt m k'.
Proof. intros. unfold getOr. by rewrite lookup_insert_ne. Qed.

Lemma getOr_empty {A} (dflt : A) k : getOr dflt (∅ : gmap string A) k = dflt.
Proof. unfold getOr. by rewrite lookup_empty. Qed.

Lemma initGraph_indeg keys : ∀ g s,
  getOr 0%Z (indeg g) s = 0%Z → getOr 0%Z (indeg (initGraph keys g)) s = 0%Z.
Proof.
  induction keys as [|k keys IH]; intros g s Hg; simpl; [done|].
  apply IH. simpl. destruct (decide (k = s)) as [->|Hne].
  - by rewrite getOr_insert_eq.
  - by rewrite getOr_insert_ne.
Qed.

Lemma initGraph_adj keys : ∀ g s,
  getOr [] (adj g) s = [] → getOr [] (adj (initGraph keys g)) s = [].
Proof.
  induction keys as [|k keys IH]; intros g s Hg; simpl; [done|].
  apply IH. simpl. destruct (decide (k = s)) as [->|Hne].
  - by rewrite getOr_insert_eq.
  - by rewrite getOr_insert_ne.
Qed.

Lemma addEdges_indeg ttl deps : ∀ g s,
  getOr 0%Z (indeg (addEdges ttl deps g)) s
  = (getOr 0%Z (indeg g) s
     + if bool_decide (s = ttl) then Z.of_nat (length deps) else 0)%Z.
Proof.
  induction deps as [|dep deps IH]; intros g s; simpl.
  - case_bool_decide; lia.
  - rewrite IH. simpl. case_bool_decide as Hs.
    + subst s. rewrite getOr_insert_eq. lia.
    + rewrite getOr_insert_ne by done. lia.
Qed.

Lemma addEdges_adj ttl deps : ∀ g d s,
  occ s (getOr [] (adj (addEdges ttl deps g)) d)
  = (occ s (getOr [] (adj g) d)
     + if bool_decide (s = ttl) then occ d deps else 0)%nat.
Proof.
  induction deps as [|dep deps IH]; intros g d s; simpl.
  - rewrite occ_nil. case_bool_decide; lia.
  - rewrite IH. simpl. rewrite occ_cons.
    destruct (decide (dep = d)) as [->|Hne].
    + rewrite getOr_insert_eq, occ_app, occ_cons, occ_nil.
      rewrite (bool_decide_eq_true_2 (d = d)) by done.
      destruct (decide (s = ttl)) as [->|Hs].
      * rewrite !bool_decide_eq_true_2 by done. lia.
      * rewrite !(bool_decide_eq_false_2 (s = ttl)) by done.
        rewrite (bool_decide_eq_false_2 (ttl = s)) by done. lia.
    + rewrite getOr_insert_ne by done.
      rewrite (bool_decide_eq_false_2 (dep = d)) by done.
      case_bool_decide; lia.
Qed.

Lemma buildEdges_indeg ts : ∀ g s,
  NoDup (map title ts) →
  getOr 0%Z (indeg (buildEdges ts g)) s
  = (getOr 0%Z (indeg g) s + Z.of_nat (length (dependencies (getTask ts s))))%Z.
Proof.
  induction ts as [|t ts IH]; intros g s Hnd; simpl.
  - unfold getTask. simpl. lia.
  - simpl in Hnd. apply NoDup_cons in Hnd as [Hnot Hnd].
    rewrite IH, addEdges_indeg, getTask_cons by done.
    destruct (decide (s = title t)) as [->|Hne].
    + rewrite !bool_decide_eq_true_2 by done.
      rewrite (getTask_absent ts) by done. simpl. lia.
    + rewrite bool_decide_eq_false_2 by done.
      rewrite bool_decide_eq_false_2 by done. lia.
Qed.

Lemma buildEdges_adj ts : ∀ g d s,
  NoDup (map title ts) →
  occ s (getOr [] (adj (buildEdges ts g)) d)
  = (occ s (getOr [] (adj g) d) + occ d (dependencies (getTask ts s)))%nat.
Proof.
  induction ts as [|t ts IH]; intros g d s Hnd; simpl.
  - unfold getTask. simpl. rewrite occ_nil. lia.
  - simpl in Hnd. apply NoDup_cons in Hnd as [Hnot Hnd].
    rewrite IH, addEdges_adj, getTask_cons by done.
    destruct (decide (s = title t)) as [->|Hne].
    + rewrite !bool_decide_eq_true_2 by done.
      rewrite (getTask_absent ts) by done. rewrite occ_nil. lia.
    + rewrite bool_decide_eq_false_2 by done.
      rewrite bool_decide_eq_false_2 by done. lia.
Qed.

Lemma buildGraph_indeg taskMap s :
  NoDup (map title taskMap) →
  getOr 0%Z (indeg (buildGraph taskMap)) s = Z.of_nat (unmet taskMap [] s).
Proof.
  intros Hnd. unfold buildGraph. rewrite buildEdges_indeg by done.
  rewrite initGraph_indeg by apply getOr_empty.
  unfold unmet.
  assert (∀ l : list string, filter (λ d, d ∉ []) l = l) as ->; [|lia].
  induction l as [|d l IH]; [done|].
  rewrite filter_cons, decide_True by apply not_elem_of_nil. by rewrite IH.
Qed.

Lemma buildGraph_adj taskMap d s :
  NoDup (map title taskMap) →
  occ s (getOr [] (adj (buildGraph taskMap)) d)
  = occ d (dependencies (getTask taskMap s)).
Proof.
  intros Hnd. unfold buildGraph. rewrite buildEdges_adj by done.
  by rewrite initGraph_adj by apply getOr_empty.
Qed.

(** ** The sequencer's loop invariant *)

Lemma snoc_split (topo : list string) cur l1 t l2 :
  topo ++ [cur] = l1 ++ t :: l2 →
  (l1 = topo ∧ t = cur ∧ l2 = [])
  ∨ ∃ l2', l2 = l2' ++ [cur] ∧ topo = l1 ++ t :: l2'.
Proof.
  destruct l2 as [|x l2 _] using rev_ind.
  - intros Heq. left.
    change (l1 ++ [t]) with (l1 ++ [t]) in Heq.
    apply app_inj_tail in Heq as [-> ->]. done.
  - intros Heq. right. exists l2.
    change (l1 ++ t :: l2 ++ [x]) with (l1 ++ (t :: l2) ++ [x]) in Heq.
    rewrite app_assoc in Heq. apply app_inj_tail in Heq as [-> ->]. done.
Qed.

Section Kahn.
Variable c : string → string → Z.
Variable taskMap : list Task.
Variable adjacency : gmap string (list string).

Hypothesis adj_occ : ∀ d s,
  occ s (getOr [] adjacency d) = occ d (dependencies (getTask taskMap s)).

(** What is known of the ready list ([S]) and what it tells about its head
    ([R]); trivial for the order itself, sortedness for the priority. *)
Variable S : list string → Prop.
Variable R : string → string → Prop.
Hypothesis S_cons : ∀ a l, S (a :: l) → S l ∧ ∀ b, b ∈ l → R a b.
Hypothesis S_sort : ∀ l, S (sort c l).

Lemma relax_spec topo : ∀ rest deg available deg' available',
  relax c rest deg available = (deg', available') →
  (∀ s, s ∈ rest → s ∈ map title taskMap) →
  (∀ s, getOr 0%Z deg s = Z.of_nat (unmet taskMap topo s + occ s rest)) →
  NoDup (topo ++ available) →
  (∀ s, s ∈ topo ++ available → s ∈ map title taskMap) →
  (∀ s, s ∈ map title taskMap →
     (unmet taskMap topo s + occ s rest = 0)%nat ↔ s ∈ topo ++ available) →
  (∀ s, getOr 0%Z deg' s = Z.of_nat (unmet taskMap topo s))
  ∧ NoDup (topo ++ available')
  ∧ (∀ s, s ∈ topo ++ available' → s ∈ map title taskMap)
  ∧ (∀ s, s ∈ map title taskMap →
       unmet taskMap topo s = 0%nat ↔ s ∈ topo ++ available')
  ∧ (available' = available ∨ ∃ l, available' = sort c l).
Proof.
  induction rest as [|nb rest IH];
    intros deg available deg' available' Hrun Hrest Hdeg Hnd Hsub Hready.
  - simpl in Hrun. injection Hrun as <- <-.
    split_and!; try done.
    + intros s. rewrite Hdeg, occ_nil. f_equal. lia.
    + intros s Hs. rewrite <- Hready, occ_nil by done. lia.
    + by left.
  - simpl in Hrun.
    assert (nb ∈ map title taskMap) as Hnb by (apply Hrest; left).
    assert (nb ∉ topo ++ available) as Hfresh.
    { intros Hin. apply Hready in Hin; [|done].
      rewrite occ_cons, bool_decide_eq_true_2 in Hin by done. lia. }
    set (deg1 := <[nb := (getOr 0 deg nb - 1)%Z]> deg) in *.
    assert (∀ s, getOr 0%Z deg1 s
                 = Z.of_nat (unmet taskMap topo s + occ s rest)) as Hdeg1.
    { intros s. unfold deg1. destruct (decide (nb = s)) as [->|Hne].
      - rewrite getOr_insert_eq, Hdeg, occ_cons.
        rewrite bool_decide_eq_true_2 by done. lia.
      - rewrite getOr_insert_ne, Hdeg, occ_cons by done.
        rewrite bool_decide_eq_false_2 by done. f_equal. }
    assert (∀ s, s ∈ rest → s ∈ map title taskMap) as Hrest'
      by (intros s Hs; apply Hrest; by right).
    assert (∀ s, s ≠ nb → occ s (nb :: rest) = occ s rest) as Hocc.
    { intros s Hs. rewrite occ_cons, bool_decide_eq_false_2; [done|].
      congruence. }
    case_bool_decide as Hzero.
    + rewrite Hdeg1 in Hzero.
      assert (∀ s, s ∈ topo ++ sort c (available ++ [nb])
                   ↔ s ∈ topo ++ available ∨ s = nb) as Hmem.
      { intros s. rewrite !elem_of_app, sort_perm, elem_of_app,
          list_elem_of_singleton. tauto. }
      destruct (IH _ _ _ _ Hrun Hrest' Hdeg1) as (H1 & H2 & H3 & H4 & H5).
      * rewrite sort_perm, app_assoc. apply NoDup_app. split; [done|].
        split; [|apply NoDup_singleton].
        intros s Hs ->%list_elem_of_singleton. done.
      * intros s [Hs| ->]%Hmem; [by apply Hsub|done].
      * intros s Hs. rewrite Hmem. destruct (decide (s = nb)) as [->|Hne].
        -- split; [by right|]. intros _. lia.
        -- rewrite <- (Hocc s Hne), Hready by done. split; [by left|].
           by intros [?|?].
      * split_and!; try done. right. destruct H5 as [->|[l ->]]; eauto.
    + rewrite Hdeg1 in Hzero.
      destruct (IH _ _ _ _ Hrun Hrest' Hdeg1 Hnd Hsub) as (H1&H2&H3&H4&H5).
      * intros s Hs. destruct (decide (s = nb)) as [->|Hne].
        -- split; [lia|done].
        -- by rewrite <- (Hocc s Hne), Hready.
      * done.
Qed.

Lemma kahn_step deg cur available topo deg' available' :
  KahnInv taskMap S R deg (cur :: available) topo →
  relax c (getOr [] adjacency cur) deg available = (deg', available') →
  KahnInv taskMap S R deg' available' (topo ++ [cur]).
Proof.
  intros [Hnd Hsub Hdeg Hready Hs Hprec Hhist] Hrun.
  assert (cur ∉ topo) as Hcur.
  { apply NoDup_app in Hnd as (_ & Hdisj & _). intros Hin.
    apply (Hdisj cur Hin). left. }
  assert (∀ s, s ∈ (topo ++ [cur]) ++ available ↔ s ∈ topo ++ cur :: available)
    as Hmem by (intros s; by rewrite <- app_assoc).
  assert (∀ s, unmet taskMap topo s
               = (unmet taskMap (topo ++ [cur]) s
                  + occ s (getOr [] adjacency cur))%nat) as Hsplit.
  { intros s. rewrite adj_occ. by apply unmet_snoc. }
  assert (∀ d, d ∈ dependencies (getTask taskMap cur) → d ∈ topo) as Hdeps.
  { assert (unmet taskMap topo cur = 0%nat) as Hz.
    { apply Hready; [apply Hsub|];
        rewrite elem_of_app, elem_of_cons; tauto. }
    intros d Hd. apply filter_length_zero with (x := d) in Hz; [|done].
    by destruct (decide (d ∈ topo)). }
  destruct (S_cons _ _ Hs) as [Hs' Hhead].
  destruct (relax_spec (topo ++ [cur]) _ _ _ _ _ Hrun)
    as (H1 & H2 & H3 & H4 & H5).
  - intros s Hs0. apply occ_pos in Hs0. rewrite adj_occ in Hs0.
    destruct (decide (s ∈ map title taskMap)) as [|Hnot]; [done|].
    rewrite (getTask_absent _ _ Hnot), occ_nil in Hs0. lia.
  - intros s. by rewrite Hdeg, Hsplit.
  - by rewrite <- app_assoc.
  - intros s Hin%Hmem. by apply Hsub.
  - intros s Hin. by rewrite <- Hsplit, Hmem, Hready.
  - split; try done.
    + destruct H5 as [->|[l ->]]; [done|apply S_sort].
    + intros l1 t l2 [(-> & -> & ->)|(l2' & -> & ->)]%snoc_split; [done|].
      by eapply Hprec.
    + intros l1 a l2 [(-> & -> & ->)|(l2' & -> & ->)]%snoc_split;
        [|by eapply Hhist].
      intros b Hb Hnot Hne Hall. apply Hhead.
      assert (unmet taskMap topo b = 0%nat) as Hz.
      { apply filter_length_zero. intros d Hd. specialize (Hall d Hd).
        tauto. }
      apply Hready in Hz; [|done].
      apply elem_of_app in Hz as [?|Hz]; [done|].
      apply elem_of_cons in Hz as [?|?]; done.
Qed.

Lemma kahn_result : ∀ fuel deg available topo res,
  kahn fuel c adjacency deg available topo = Returned res →
  KahnInv taskMap S R deg available topo →
  ∃ deg', KahnInv taskMap S R deg' [] res.
Proof.
  induction fuel as [|fuel IH]; intros deg available topo res;
    destruct available as [|cur available]; simpl; try done.
  - intros [= <-]. eauto.
  - intros [= <-]. eauto.
  - destruct (relax c (getOr [] adjacency cur) deg available)
      as [deg' available'] eqn:Hrun.
    intros Hk Hinv. eapply IH; [exact Hk|]. by eapply kahn_step.
Qed.

(** One unit of fuel for each task not yet emitted is enough. *)
Lemma kahn_terminates : ∀ fuel deg available topo,
  KahnInv taskMap S R deg available topo →
  (length taskMap <= length topo + fuel)%nat →
  ∃ res, kahn fuel c adjacency deg available topo = Returned res.
Proof.
  induction fuel as [|fuel IH]; intros deg available topo Hinv Hlen;
    destruct available as [|cur available]; simpl; eauto.
  - destruct Hinv as [Hnd Hsub _ _ _ _ _].
    apply NoDup_submseteq in Hsub; [|done].
    apply submseteq_length in Hsub.
    rewrite length_app, length_map in Hsub. simpl in Hsub. lia.
  - destruct (relax c (getOr [] adjacency cur) deg available)
      as [deg' available'] eqn:Hrun.
    apply IH; [by eapply kahn_step|].
    rewrite length_app. simpl. lia.
Qed.
End Kahn.

(** ** The registry *)

Lemma parseDate_Some host s d :
  parseDate host s = Some d ↔ dayjsFormat host s = d ∧ isValid d = true.
Proof.
  unfold parseDate. destruct (isValid (dayjsFormat host s)) eqn:Hv.
  - split; [by intros [= <-]|]. by intros [-> _].
  - split; [done|]. intros [<- Hd]. congruence.
Qed.

Lemma parseDate_None host s :
  parseDate host s = None ↔ isValid (dayjsFormat host s) = false.
Proof. unfold parseDate. by destruct (isValid (dayjsFormat host s)). Qed.

Lemma has_true tm s : has tm s = true ↔ s ∈ map title tm.
Proof. unfold has. apply bool_decide_eq_true. Qed.

Lemma has_false tm s : has tm s = false ↔ s ∉ map title tm.
Proof. unfold has. apply bool_decide_eq_false. Qed.

Lemma registry_spec host : ∀ ts acc,
  match registry host ts acc with
  | Returned tm =>
      ∃ new, tm = acc ++ new ∧ Forall2 (normalizes host) ts new
             ∧ NoDup (map title new)
             ∧ ∀ s, s ∈ map title new → s ∉ map title acc
  | Threw _ =>
      (∃ raw, raw ∈ ts ∧ badDescriptor host raw)
      ∨ (∃ raw s, raw ∈ ts ∧ raw_title raw = Some s ∧ s ∈ map title acc)
      ∨ ¬ NoDup (map raw_title ts)
  | OutOfFuel => False
  end.
Proof.
  induction ts as [|raw ts IH]; intros acc; simpl.
  - exists []. rewrite app_nil_r. split_and!; try done; [constructor|].
    by intros s ?%elem_of_nil.
  - destruct (raw_title raw) as [ttl|] eqn:Httl;
      [|left; exists raw; split; [left|unfold badDescriptor]; tauto].
    destruct (raw_estimatedHours raw) as [h|] eqn:Hh;
      [|left; exists raw; split; [left|unfold badDescriptor]; tauto].
    destruct (bool_decide (ttl = "") || le0 h) eqn:Hbad.
    { left. exists raw. split; [left|].
      apply orb_true_iff in Hbad as [->%bool_decide_eq_true|Hle].
      - left. by right.
      - right. left. right. by exists h. }
    apply orb_false_iff in Hbad as [Hne%bool_decide_eq_false Hpos].
    destruct (parseDate host (raw_dueDate raw)) as [due|] eqn:Hdue.
    2: { left. exists raw. split; [left|]. by right; right. }
    destruct (has acc ttl) eqn:Hhas.
    { right. left. exists raw, ttl. split; [left|]. by apply has_true in Hhas. }
    apply has_false in Hhas.
    set (t := {| title := ttl; estimatedHours := h; dueDate := due;
                 dependencies := default [] (raw_dependencies raw) |}).
    specialize (IH (acc ++ [t])).
    destruct (registry host ts (acc ++ [t])) as [tm|e|]; [| |done].
    + destruct IH as (new & -> & Hall & Hnd & Hfresh).
      exists (t :: new). rewrite <- app_assoc. split; [done|].
      assert (∀ s, s ∈ map title new → s ≠ ttl ∧ s ∉ map title acc) as Hf.
      { intros s Hs. specialize (Hfresh s Hs).
        rewrite map_app, elem_of_app in Hfresh. simpl in Hfresh.
        rewrite list_elem_of_singleton in Hfresh. tauto. }
      split_and!.
      * constructor; [|done]. by unfold normalizes.
      * simpl. apply NoDup_cons. split; [|done].
        intros Hin. by destruct (Hf _ Hin).
      * simpl. intros s [->|Hs]%elem_of_cons; [done|]. by apply Hf.
    + destruct IH as [(r & Hr & Hb)|[(r & s & Hr & Hs & Hin)|Hdup]].
      * left. exists r. split; [by right|done].
      * rewrite map_app, elem_of_app in Hin. simpl in Hin.
        rewrite list_elem_of_singleton in Hin. destruct Hin as [Hin| ->].
        -- right. left. exists r, s. split; [by right|done].
        -- right. right. rewrite NoDup_cons. intros [Hnot _]. apply Hnot.
           rewrite <- Hs. by apply list_elem_of_fmap_2.
      * right. right. rewrite NoDup_cons. tauto.
Qed.

Lemma normalizes_titles host ts tm :
  Forall2 (normalizes host) ts tm → map raw_title ts = map (Some ∘ title) tm.
Proof.
  induction 1 as [|raw t ts tm Hn _ IH]; [done|]. simpl.
  destruct Hn as (-> & _). by rewrite IH.
Qed.

Lemma checkDeps_spec tm ttl : ∀ deps,
  match checkDeps tm ttl deps with
  | Returned _ => ∀ d, d ∈ deps → d ∈ map title tm ∧ d ≠ ttl
  | Threw _ => ∃ d, d ∈ deps ∧ (d ∉ map title tm ∨ d = ttl)
  | OutOfFuel => False
  end.
Proof.
  induction deps as [|d deps IH]; simpl; [by intros d ?%elem_of_nil|].
  destruct (has tm d) eqn:Hhas; simpl.
  - apply has_true in Hhas. case_bool_decide as Hself.
    + exists d. split; [left|by right].
    + destruct (checkDeps tm ttl deps).
      * intros d' [->|Hd']%elem_of_cons; [done|by apply IH].
      * destruct IH as (d' & Hd' & Hbad). exists d'. split; [by right|done].
      * done.
  - apply has_false in Hhas. exists d. split; [left|by left].
Qed.

Lemma checkAllDeps_spec tm : ∀ ts,
  match checkAllDeps tm ts with
  | Returned _ =>
      ∀ t d, t ∈ ts → d ∈ dependencies t → d ∈ map title tm ∧ d ≠ title t
  | Threw _ =>
      ∃ t d, t ∈ ts ∧ d ∈ dependencies t ∧ (d ∉ map title tm ∨ d = title t)
  | OutOfFuel => False
  end.
Proof.
  induction ts as [|t ts IH]; simpl; [by intros t d ?%elem_of_nil|].
  pose proof (checkDeps_spec tm (title t) (dependencies t)) as Hd.
  destruct (checkDeps tm (title t) (dependencies t)); simpl; [| |done].
  - destruct (checkAllDeps tm ts).
    + intros t' d [->|Ht']%elem_of_cons Hin; [by apply Hd|by eapply IH].
    + destruct IH as (t' & d & Ht' & Hin & Hbad).
      exists t', d. split; [by right|done].
    + done.
  - destruct Hd as (d & Hin & Hbad). exists t, d. split; [left|done].
Qed.

(** ** The sequencer *)

Lemma kahn_init c taskMap
    (S : list string → Prop) (R : string → string → Prop) :
  (∀ l, S (sort c l)) →
  NoDup (map title taskMap) →
  KahnInv taskMap S R (indeg (buildGraph taskMap))
    (sort c (filter (λ t, getOr 0 (indeg (buildGraph taskMap)) t = 0)%Z
               (map title taskMap)))
    [].
Proof.
  intros HS Hnd.
  assert (∀ s, s ∈ sort c (filter
              (λ t, getOr 0 (indeg (buildGraph taskMap)) t = 0)%Z
              (map title taskMap))
            ↔ unmet taskMap [] s = 0%nat ∧ s ∈ map title taskMap) as Hmem.
  { intros s. rewrite sort_perm, list_elem_of_filter.
    rewrite buildGraph_indeg by done. split; intros [? ?]; split; try done; lia. }
  split; simpl.
  - rewrite sort_perm. exact (NoDup_filter _ _ Hnd).
  - intros s Hs. by apply Hmem in Hs as [_ ?].
  - intros s. by apply buildGraph_indeg.
  - intros s Hs. rewrite Hmem. tauto.
  - apply HS.
  - intros l1 t l2 Heq. by destruct l1.
  - intros l1 t l2 Heq. by destruct l1.
Qed.

Lemma kahn_no_throw c adjacency : ∀ fuel deg available topo e,
  kahn fuel c adjacency deg available topo ≠ Threw e.
Proof.
  induction fuel as [|fuel IH]; intros deg available topo e;
    destruct available as [|cur available]; simpl; try done.
  destruct (relax c (getOr [] adjacency cur) deg available)
    as [deg' available']. apply IH.
Qed.

Section Sequence.
Variable host : Host.
Variable taskMap : list Task.
Hypothesis titles_nodup : NoDup (map title taskMap).

Variable S : list string → Prop.
Variable R : string → string → Prop.
Hypothesis S_cons : ∀ a l, S (a :: l) → S l ∧ ∀ b, b ∈ l → R a b.
Hypothesis S_sort : ∀ l, S (sort (cmp host taskMap) l).

Lemma sequence_kahn fuel res :
  kahn fuel (cmp host taskMap) (adj (buildGraph taskMap))
    (indeg (buildGraph taskMap))
    (sort (cmp host taskMap)
       (filter (λ t, getOr 0 (indeg (buildGraph taskMap)) t = 0)%Z
          (map title taskMap))) [] = Returned res →
  ∃ deg, KahnInv taskMap S R deg [] res.
Proof.
  intros Hk. eapply kahn_result; [| |exact S_sort|exact Hk|].
  - intros d s. by apply buildGraph_adj.
  - exact S_cons.
  - by apply kahn_init.
Qed.

Lemma sequence_returned fuel topo :
  sequence host fuel taskMap = Returned topo →
  topo ≡ₚ map title taskMap ∧ NoDup topo
  ∧ Prec taskMap topo ∧ Hist taskMap R topo.
Proof.
  unfold sequence.
  destruct (kahn _ _ _ _ _ _) as [res| |] eqn:Hk; simpl; [|done..].
  case_bool_decide as Hlen; [done|]. intros [= <-].
  destruct (sequence_kahn _ _ Hk) as [deg [Hnd Hsub _ _ _ Hprec Hhist]].
  rewrite app_nil_r in Hnd, Hsub.
  split_and!; try done.
  apply NoDup_Permutation_bis; [by apply NoDup_ListNoDup| |].
  - rewrite length_map. lia.
  - intros s Hs%list_elem_of_In. apply list_elem_of_In. by apply Hsub.
Qed.

(** A cycle error means the loop stopped with tasks left over, each of
    them still waiting for a task that is left over too. *)
Lemma sequence_threw fuel e :
  sequence host fuel taskMap = Threw e →
  e = CycleDetected ∧
  ∃ res, NoDup res ∧ (∀ s, s ∈ res → s ∈ map title taskMap)
         ∧ length res ≠ length taskMap
         ∧ ∀ s, s ∈ map title taskMap →
             unmet taskMap res s = 0%nat ↔ s ∈ res.
Proof.
  unfold sequence.
  destruct (kahn _ _ _ _ _ _) as [res|e'|] eqn:Hk; simpl; [| |done].
  - case_bool_decide as Hlen; [|done]. intros [= <-]. split; [done|].
    destruct (sequence_kahn _ _ Hk) as [deg [Hnd Hsub _ Hready _ _ _]].
    rewrite app_nil_r in Hnd, Hsub. exists res. split_and!; try done.
    intros s Hs. rewrite (Hready s Hs). by rewrite app_nil_r.
  - by apply kahn_no_throw in Hk.
Qed.

Lemma sequence_total fuel :
  (length taskMap <= fuel)%nat → sequence host fuel taskMap ≠ OutOfFuel.
Proof.
  intros Hfuel. unfold sequence.
  destruct (kahn_terminates (cmp host taskMap) taskMap
              (adj (buildGraph taskMap))
              ltac:(intros d s; by apply buildGraph_adj)
              S R S_cons S_sort fuel _ _ []
              (kahn_init _ _ S R S_sort titles_nodup)
              ltac:(simpl; lia)) as [res ->].
  simpl. by case_bool_decide.
Qed.
End Sequence.

(** ** Cycles *)

Lemma depEdge_edge host ts tm dep ttl :
  Forall2 (normalizes host) ts tm → NoDup (map title tm) →
  depEdge ts dep ttl ↔ edge tm dep ttl.
Proof.
  intros Hall Hnd. unfold edge. split.
  - intros (raw & Hraw & Httl & Hdep).
    apply list_elem_of_lookup in Hraw as [i Hi].
    destruct (Forall2_lookup_l _ _ _ _ _ Hall Hi) as (t & Ht & Hn).
    destruct Hn as (Ht1 & _ & _ & _ & _ & Hdeps).
    rewrite Httl in Ht1. injection Ht1 as ->.
    rewrite getTask_lookup; [by rewrite Hdeps|done|].
    by eapply list_elem_of_lookup_2.
  - intros Hdep.
    assert (ttl ∈ map title tm) as Hin.
    { destruct (decide (ttl ∈ map title tm)) as [|Hnot]; [done|].
      rewrite (getTask_absent _ _ Hnot) in Hdep. by apply elem_of_nil in Hdep. }
    apply getTask_elem in Hin. apply list_elem_of_lookup in Hin as [i Hi].
    destruct (Forall2_lookup_r _ _ _ _ _ Hall Hi) as (raw & Hraw & Hn).
    destruct Hn as (Ht1 & _ & _ & _ & _ & Hdeps).
    exists raw. split; [by eapply list_elem_of_lookup_2|].
    rewrite Ht1, getTask_title, <- Hdeps. done.
Qed.

Lemma tc_iff {A} (R1 R2 : relation A) :
  (∀ x y, R1 x y ↔ R2 x y) → ∀ x y, tc R1 x y ↔ tc R2 x y.
Proof.
  intros HR x y. split; induction 1 as [x y H|x y z H _ IH].
  - apply tc_once. by apply HR.
  - eapply tc_l; [|exact IH]. by apply HR.
  - apply tc_once. by apply HR.
  - eapply tc_l; [|exact IH]. by apply HR.
Qed.

(** An order that puts every dependency first rules a cycle out. *)
Lemma order_acyclic taskMap topo :
  topo ≡ₚ map title taskMap → NoDup topo → Prec taskMap topo →
  ∀ a b, tc (edge taskMap) a b → precedes topo a b.
Proof.
  intros Hperm Hnd Hprec.
  assert (∀ a b, edge taskMap a b → precedes topo a b) as Hone.
  { intros a b Hab.
    assert (b ∈ topo) as Hb.
    { rewrite Hperm. destruct (decide (b ∈ map title taskMap)) as [|Hnot];
        [done|]. unfold edge in Hab.
      rewrite (getTask_absent _ _ Hnot) in Hab. by apply elem_of_nil in Hab. }
    apply list_elem_of_split in Hb as (l1 & l2 & ->).
    apply precedes_intro. by eapply Hprec. }
  induction 1 as [a b Hab|a b d Hab _ IH]; [by apply Hone|].
  eapply precedes_trans; [done|by apply Hone|done].
Qed.

(** In a non-empty finite set where everything has a predecessor inside the
    set, some element precedes itself. *)
Lemma no_minimal_cycle (E : relation string) : ∀ (n : nat) (l : list string),
  length l = n → l ≠ [] →
  (∀ s, s ∈ l → ∃ d, d ∈ l ∧ tc E d s) →
  ∃ t, tc E t t.
Proof.
  induction n as [n IH] using lt_wf_ind. intros l Hlen Hne Hpred.
  destruct l as [|x l]; [done|].
  destruct (Hpred x ltac:(left)) as (dx & Hdx & Hx).
  destruct (decide (dx = x)) as [->|Hdxx]; [by exists x|].
  set (l' := filter (λ y, y ≠ x) l).
  assert (∀ y, y ∈ l' ↔ y ∈ x :: l ∧ y ≠ x) as Hl'.
  { intros y. unfold l'. rewrite list_elem_of_filter, elem_of_cons. tauto. }
  apply (IH (length l')) with (l := l'); [|done| |].
  - subst n. simpl. pose proof (length_filter (λ y, y ≠ x) l). unfold l'. lia.
  - intros Hnil. assert (dx ∈ l') as Hin by (by apply Hl').
    rewrite Hnil in Hin. by apply elem_of_nil in Hin.
  - intros s [Hs Hsx]%Hl'. destruct (Hpred s Hs) as (d & Hd & Hds).
    destruct (decide (d = x)) as [->|Hne'].
    + exists dx. split; [by apply Hl'|]. by etrans.
    + exists d. split; [by apply Hl'|done].
Qed.

Lemma stuck_cycle taskMap res :
  NoDup (map title taskMap) →
  (∀ t d, t ∈ taskMap → d ∈ dependencies t → d ∈ map title taskMap) →
  NoDup res → (∀ s, s ∈ res → s ∈ map title taskMap) →
  length res ≠ length taskMap →
  (∀ s, s ∈ map title taskMap → unmet taskMap res s = 0%nat ↔ s ∈ res) →
  ∃ t, tc (edge taskMap) t t.
Proof.
  intros Hnd Hknown Hres Hsub Hlen Hready.
  set (left := filter (λ s, s ∉ res) (map title taskMap)).
  assert (∀ s, s ∈ left ↔ s ∈ map title taskMap ∧ s ∉ res) as Hleft.
  { intros s. unfold left. rewrite list_elem_of_filter. tauto. }
  apply (no_minimal_cycle _ (length left) left); [done| |].
  - intros Hnil. apply Hlen. apply Nat.le_antisymm.
    + rewrite <- (length_map title). apply submseteq_length.
      by apply NoDup_submseteq.
    + rewrite <- (length_map title). apply submseteq_length.
      apply NoDup_submseteq; [done|]. intros s Hs.
      destruct (decide (s ∈ res)) as [|Hnot]; [done|].
      assert (s ∈ left) as Hin by (by apply Hleft).
      rewrite Hnil in Hin. by apply elem_of_nil in Hin.
  - intros s [Hs Hnot]%Hleft.
    destruct (filter (λ d, d ∉ res) (dependencies (getTask taskMap s)))
      as [|d rest] eqn:Hf.
    + destruct Hnot. apply Hready; [done|]. unfold unmet. by rewrite Hf.
    + assert (d ∈ filter (λ d, d ∉ res) (dependencies (getTask taskMap s)))
        as Hd by (rewrite Hf; left).
      apply list_elem_of_filter in Hd as [Hd1 Hd2].
      exists d. split; [|by apply tc_once].
      apply Hleft. split; [|done].
      eapply Hknown; [|exact Hd2]. by apply getTask_elem.
Qed.

(** * The allocator *)

(** ** Adding an allocation *)

(** Unfold the schedule functions and leave the numbers alone. *)
Ltac ssimpl :=
  cbn [totalIn hoursOfIn hoursOn hoursFor addAllocation app date allocations
       hours alloc_title] in *.

Lemma totalIn_snoc l a : (totalIn (l ++ [a]) == totalIn l + toQ (hours a))%Q.
Proof. induction l as [|b l IH]; ssimpl; [lra|rewrite IH; lra]. Qed.

Lemma hoursOfIn_snoc ttl l a :
  (hoursOfIn ttl (l ++ [a])
   == hoursOfIn ttl l
      + if bool_decide (alloc_title a = ttl) then toQ (hours a) else 0)%Q.
Proof. induction l as [|b l IH]; ssimpl; [lra|rewrite IH; lra]. Qed.

Lemma hoursOn_add sched d ttl h d' :
  (hoursOn d' (addAllocation sched d ttl h)
   == hoursOn d' sched + if bool_decide (d = d') then toQ h else 0)%Q.
Proof.
  induction sched as [|r sched IH]; ssimpl.
  - case_bool_decide; lra.
  - destruct (decide (date r = d)) as [Hd|Hd].
    + rewrite (bool_decide_eq_true_2 _ Hd). ssimpl. rewrite Hd.
      case_bool_decide; [|lra].
      pose proof (totalIn_snoc (allocations r)
                    {| alloc_title := ttl; hours := h |}) as Ht.
      ssimpl. lra.
    + rewrite (bool_decide_eq_false_2 _ Hd). ssimpl. lra.
Qed.

Lemma hoursFor_add sched d ttl h ttl' :
  (hoursFor ttl' (addAllocation sched d ttl h)
   == hoursFor ttl' sched + if bool_decide (ttl = ttl') then toQ h else 0)%Q.
Proof.
  induction sched as [|r sched IH]; ssimpl.
  - case_bool_decide; lra.
  - destruct (decide (date r = d)) as [Hd|Hd].
    + rewrite (bool_decide_eq_true_2 _ Hd). ssimpl.
      pose proof (hoursOfIn_snoc ttl' (allocations r)
                    {| alloc_title := ttl; hours := h |}) as Ht.
      ssimpl. lra.
    + rewrite (bool_decide_eq_false_2 _ Hd). ssimpl. lra.
Qed.

(** Every record of the new schedule is the new allocation's day or an old
    record's day, and mentions what was mentioned there. *)
Lemma addAllocation_elem sched d ttl h r' :
  r' ∈ addAllocation sched d ttl h →
  (date r' = d ∧ ∀ a, a ∈ allocations r' →
     a = {| alloc_title := ttl; hours := h |}
     ∨ ∃ r, r ∈ sched ∧ date r = d ∧ a ∈ allocations r)
  ∨ r' ∈ sched.
Proof.
  induction sched as [|r sched IH]; simpl.
  - intros ->%list_elem_of_singleton. left. split; [done|]. simpl.
    intros a ->%list_elem_of_singleton. by left.
  - case_bool_decide as Hd.
    + intros [->|Hin]%elem_of_cons; [|right; by right].
      left. split; [done|]. simpl. intros a [Ha| ->%list_elem_of_singleton]%elem_of_app.
      * right. exists r. split; [left|done].
      * by left.
    + intros [->|Hin]%elem_of_cons; [right; left|].
      destruct (IH Hin) as [[Hd' Hall]|Hold]; [left|right; by right].
      split; [done|]. intros a Ha. destruct (Hall a Ha) as [?|(r0 & ? & ? & ?)];
        [by left|right]. exists r0. split; [by right|done].
Qed.

Lemma addAllocation_keeps sched d ttl h r a :
  r ∈ sched → a ∈ allocations r →
  ∃ r', r' ∈ addAllocation sched d ttl h ∧ date r' = date r
        ∧ a ∈ allocations r'.
Proof.
  induction sched as [|r0 sched IH]; simpl; [by intros ?%elem_of_nil|].
  intros [->|Hin]%elem_of_cons Ha.
  - case_bool_decide as Hd.
    + eexists. split; [left|]. simpl. split; [done|].
      rewrite elem_of_app. by left.
    + exists r0. split; [left|done].
  - case_bool_decide as Hd.
    + exists r. split; [by right|done].
    + destruct (IH Hin Ha) as (r' & ? & ? & ?). exists r'.
      split; [by right|done].
Qed.

Lemma addAllocation_new sched d ttl h :
  ∃ r', r' ∈ addAllocation sched d ttl h ∧ date r' = d
        ∧ {| alloc_title := ttl; hours := h |} ∈ allocations r'.
Proof.
  induction sched as [|r sched IH]; simpl.
  - eexists. split; [left|]. simpl. split; [done|left].
  - case_bool_decide as Hd.
    + eexists. split; [left|]. simpl. split; [done|].
      rewrite elem_of_app, list_elem_of_singleton. by right.
    + destruct IH as (r' & ? & ? & ?). exists r'. split; [by right|done].
Qed.

Lemma addAllocation_nonempty sched d ttl h : addAllocation sched d ttl h ≠ [].
Proof.
  destruct (addAllocation_new sched d ttl h) as (r & Hr & _).
  intros Hnil. rewrite Hnil in Hr. by apply elem_of_nil in Hr.
Qed.

Lemma addAllocation_chronological sched (c : Z) ttl h :
  chronological sched →
  (∀ r, r ∈ sched → ∃ n, date r = Day n ∧ (n <= c)%Z) →
  chronological (addAllocation sched (Day c) ttl h).
Proof.
  unfold chronological. induction 1 as [|r sched Hs IH Hall]; intros Hle; simpl.
  - repeat constructor.
  - case_bool_decide as Hd.
    + constructor; [done|]. done.
    + constructor.
      * apply IH. intros r0 Hr0. apply Hle. by right.
      * apply Forall_forall. intros r' Hr'.
        apply addAllocation_elem in Hr' as [[Hd' _]|Hold].
        -- destruct (Hle r ltac:(left)) as (n & Hn & Hnc).
           rewrite Hd', Hn, isBefore_Day. apply bool_decide_eq_true.
           rewrite Hn in Hd. assert (n ≠ c) by congruence. lia.
        -- rewrite Forall_forall in Hall. by apply Hall.
Qed.

(** On the latest day of the schedule, an allocation lands at its end. *)
Lemma allAllocations_add sched (c : Z) ttl h :
  chronological sched →
  (∀ r, r ∈ sched → ∃ n, date r = Day n ∧ (n <= c)%Z) →
  allAllocations (addAllocation sched (Day c) ttl h)
  = allAllocations sched ++ [{| alloc_title := ttl; hours := h |}].
Proof.
  unfold allAllocations, chronological.
  induction 1 as [|r sched Hs IH Hall]; intros Hle; simpl; [done|].
  case_bool_decide as Hd; simpl.
  - (* the record of day [c] is the last one *)
    destruct sched as [|r' sched]; simpl.
    + by rewrite !app_nil_r.
    + exfalso. rewrite Forall_forall in Hall.
      specialize (Hall r' ltac:(left)).
      destruct (Hle r' ltac:(right; left)) as (n & Hn & Hnc).
      rewrite Hd, Hn, isBefore_Day in Hall.
      apply bool_decide_eq_true in Hall. lia.
  - rewrite IH, app_assoc; [done|]. intros r0 Hr0. apply Hle. by right.
Qed.

Lemma hoursOn_absent sched d :
  (∀ r, r ∈ sched → date r ≠ d) → (hoursOn d sched == 0)%Q.
Proof.
  induction sched as [|r sched IH]; intros Hno; ssimpl; [lra|].
  rewrite bool_decide_eq_false_2 by (apply Hno; left).
  rewrite IH; [lra|]. intros r0 Hr0. apply Hno. by right.
Qed.

Lemma lastDayRecord_found sched ttl r :
  r ∈ sched → mentions ttl r → is_Some (lastDayRecord sched ttl).
Proof.
  intros Hr (a & Ha & Ht). unfold lastDayRecord.
  destruct (List.find _ (reverse sched)) as [r'|] eqn:Hf; [by eexists|].
  exfalso. eapply List.find_none with (x := r) in Hf.
  - apply not_true_iff_false in Hf. apply Hf. apply existsb_exists.
    exists a. split; [by apply list_elem_of_In|by apply bool_decide_eq_true].
  - apply list_elem_of_In. by apply elem_of_reverse.
Qed.

Lemma lastDayRecord_Some sched ttl r :
  lastDayRecord sched ttl = Some r → r ∈ sched ∧ mentions ttl r.
Proof.
  unfold lastDayRecord. intros Hf. apply List.find_some in Hf as [Hin Hex].
  split.
  - apply elem_of_reverse. by apply list_elem_of_In.
  - apply existsb_exists in Hex as (a & Ha & Ht).
    exists a. split; [by apply list_elem_of_In|by apply bool_decide_eq_true in Ht].
Qed.

Lemma precedes_snoc (l : list string) t a b :
  precedes (l ++ [t]) a b → precedes l a b ∨ (b = t ∧ a ∈ l).
Proof.
  intros (l1 & l2 & l3 & Heq).
  change (l1 ++ a :: l2 ++ b :: l3) with (l1 ++ (a :: l2) ++ b :: l3) in Heq.
  rewrite app_assoc in Heq.
  apply snoc_split in Heq as [(<- & -> & _)|(l3' & -> & ->)].
  - right. split; [done|]. rewrite elem_of_app, elem_of_cons. tauto.
  - left. exists l1, l2, l3'. by rewrite <- app_assoc.
Qed.

Lemma precedes_elem (l : list string) a b :
  precedes l a b → a ∈ l ∧ b ∈ l.
Proof.
  intros (l1 & l2 & l3 & ->). split.
  - rewrite elem_of_app, elem_of_cons. tauto.
  - rewrite elem_of_app, elem_of_cons, elem_of_app, elem_of_cons. tauto.
Qed.

(** ** The state of the day *)

Lemma AllocInv_ext wd c st st' :
  currentDay st' = currentDay st →
  st_schedule st' = st_schedule st →
  AllocInv wd c st → AllocInv wd c st'.
Proof.
  intros Hd Hs [? ? ? ?]. split; rewrite ?Hd, ?Hs; done.
Qed.

(** Moving to a later workday. *)
Lemma AllocInv_move wd c c' st free warns fin :
  AllocInv wd c st → (c <= c')%Z → isWorkday wd (Day c') →
  AllocInv wd c' {| currentDay := Day c'; freeHoursToday := free;
                    st_schedule := st_schedule st; st_warnings := warns;
                    finishedAt := fin |}.
Proof.
  intros [Hd Hw Hdates Hch] Hlt Hw'.
  split; simpl; try done.
  intros r Hr. destruct (Hdates r Hr) as (n & Hn & Hle & Hwn).
  exists n. split_and!; [done|lia|done].
Qed.

(** Putting hours of [ttl] on the current day. *)
Lemma AllocInv_put wd c st ttl h free warns fin :
  AllocInv wd c st →
  AllocInv wd c
    {| currentDay := currentDay st; freeHoursToday := free;
       st_schedule :=
         addAllocation (st_schedule st) (startOfDay (currentDay st)) ttl h;
       st_warnings := warns; finishedAt := fin |}.
Proof.
  intros [Hd Hw Hdates Hch].
  split; simpl; rewrite ?Hd, ?startOfDay_Day; try done.
  - intros r [[Hr _]|Hr]%addAllocation_elem; [|by apply Hdates].
    exists c. split_and!; [done|lia|done].
  - apply addAllocation_chronological; [done|].
    intros r Hr. destruct (Hdates r Hr) as (n & ? & ? & _). eauto.
Qed.

Lemma runNextWorkday_no_throw fuel d wd e :
  runNextWorkday fuel d wd ≠ Threw e.
Proof. unfold runNextWorkday. by destruct (nextWorkday fuel d wd). Qed.

Lemma advance_first fuel0 wd hoursPerDay c st st' :
  AllocInv wd c st →
  advanceToNextWorkday fuel0 wd hoursPerDay st = Returned st' →
  ∃ c', firstWorkday wd (c + 1) c' ∧ AllocInv wd c' st'
        ∧ currentDay st' = Day c' ∧ freeHoursToday st' = hoursPerDay
        ∧ st_schedule st' = st_schedule st
        ∧ st_warnings st' = st_warnings st
        ∧ finishedAt st' = finishedAt st.
Proof.
  intros Hinv. unfold advanceToNextWorkday, runNextWorkday.
  rewrite (ai_day _ _ _ Hinv), addDay_Day.
  destruct (nextWorkday fuel0 (Day (c + 1)) wd) as [d|] eqn:Hn;
    cbn [mbind Outcome_bind]; [|done].
  intros [= <-].
  destruct (nextWorkday_minimal _ _ _ _ Hn) as (c' & -> & Hf).
  exists c'. split_and!; try done.
  destruct Hf as (Hle & Hw & _).
  apply AllocInv_move with (c := c); [done|lia|done].
Qed.

Lemma advance_no_throw fuel0 wd hoursPerDay st e :
  advanceToNextWorkday fuel0 wd hoursPerDay st ≠ Threw e.
Proof.
  unfold advanceToNextWorkday, runNextWorkday.
  by destruct (nextWorkday fuel0 _ wd).
Qed.

(** ** The loop, one iteration at a time *)

Lemma allocate_O fuel0 wd hoursPerDay taskMap ttl rem st :
  allocate fuel0 0 wd hoursPerDay taskMap ttl rem st
  = if gt0 rem then OutOfFuel else Returned st.
Proof. done. Qed.

Lemma allocate_S fuel0 fuel wd hoursPerDay taskMap ttl rem st :
  allocate fuel0 (S fuel) wd hoursPerDay taskMap ttl rem st
  = if gt0 rem then
      let taskDue := dueDate (getTask taskMap ttl) in
      let st1 :=
        if isAfter (currentDay st) taskDue && gt0 rem
        then {| currentDay := currentDay st;
                freeHoursToday := freeHoursToday st;
                st_schedule := st_schedule st;
                st_warnings :=
                  st_warnings st ++
                    [{| warn_title := ttl; warn_due := startOfDay taskDue;
                        warn_day := startOfDay (currentDay st) |}];
                finishedAt := finishedAt st |}
        else st in
      if le0 (freeHoursToday st1) then
        st2 ← advanceToNextWorkday fuel0 wd hoursPerDay st1;
        allocate fuel0 fuel wd hoursPerDay taskMap ttl rem st2
      else
        let alloc := Math_min (freeHoursToday st1) rem in
        let st2 :=
          {| currentDay := currentDay st1;
             freeHoursToday := (freeHoursToday st1 - alloc)%float;
             st_schedule :=
               addAllocation (st_schedule st1) (startOfDay (currentDay st1))
                 ttl alloc;
             st_warnings := st_warnings st1;
             finishedAt := finishedAt st1 |} in
        let rem' := (rem - alloc)%float in
        if gt0 rem' then
          st3 ← advanceToNextWorkday fuel0 wd hoursPerDay st2;
          allocate fuel0 fuel wd hoursPerDay taskMap ttl rem' st3
        else allocate fuel0 fuel wd hoursPerDay taskMap ttl rem' st2
    else Returned st.
Proof. done. Qed.

(** The state after the check of lines 155-157. *)
Lemma warned_state taskMap ttl c st :
  currentDay st = Day c →
  let st1 :=
    if isAfter (currentDay st) (dueDate (getTask taskMap ttl)) && true
    then {| currentDay := currentDay st;
            freeHoursToday := freeHoursToday st;
            st_schedule := st_schedule st;
            st_warnings :=
              st_warnings st ++
                [{| warn_title := ttl;
                    warn_due := startOfDay (dueDate (getTask taskMap ttl));
                    warn_day := startOfDay (currentDay st) |}];
            finishedAt := finishedAt st |}
    else st in
  currentDay st1 = currentDay st
  ∧ freeHoursToday st1 = freeHoursToday st
  ∧ st_schedule st1 = st_schedule st
  ∧ finishedAt st1 = finishedAt st
  ∧ st_warnings st1 = warned taskMap ttl (Day c) (st_warnings st).
Proof.
  intros Hc. cbv zeta. unfold warned. rewrite andb_true_r, Hc.
  by destruct (isAfter _ _).
Qed.

(** ** How the schedule grows *)

Lemma Grows_refl ttl c s : Grows ttl c s s.
Proof.
  split.
  - intros r' t' Hr Hm. right. by exists r'.
  - intros r t' Hr Hm. by exists r.
Qed.

Lemma Grows_trans ttl c c' s1 s2 s3 :
  (c <= c')%Z → Grows ttl c s1 s2 → Grows ttl c' s2 s3 → Grows ttl c s1 s3.
Proof.
  intros Hle (H2 & H3) (K2 & K3). split.
  - intros r' t' Hr Hm.
    destruct (K2 r' t' Hr Hm) as [(-> & n & Hn & Hcn)|(r & Hr2 & Hd & Hm2)].
    + left. split; [done|]. exists n. split; [done|lia].
    + destruct (H2 r t' Hr2 Hm2)
        as [(-> & n & Hn & Hcn)|(r0 & Hr0 & Hd0 & Hm0)].
      * left. split; [done|]. exists n. split; [congruence|done].
      * right. exists r0. split_and!; [done|congruence|done].
  - intros r t' Hr Hm. destruct (H3 r t' Hr Hm) as (r2 & Hr2 & Hd2 & Hm2).
    destruct (K3 r2 t' Hr2 Hm2) as (r3 & Hr3 & Hd3 & Hm3).
    exists r3. split_and!; [done|congruence|done].
Qed.

Lemma Grows_add ttl c s h : Grows ttl c s (addAllocation s (Day c) ttl h).
Proof.
  split.
  - intros r' t' Hr (a & Ha & Hta).
    apply addAllocation_elem in Hr as [[Hd Hall]|Hr].
    + destruct (Hall a Ha) as [->|(r0 & Hr0 & Hd0 & Ha0)].
      * left. simpl in Hta. split; [done|]. exists c. split; [done|lia].
      * right. exists r0. split_and!; [done|congruence|by exists a].
    + right. exists r'. split_and!; [done..|by exists a].
  - intros r t' Hr (a & Ha & Hta).
    destruct (addAllocation_keeps s (Day c) ttl h r a Hr Ha)
      as (r' & Hr' & Hd & Ha').
    exists r'. split_and!; [done..|by exists a].
Qed.

(** ** Invariants of the allocation loop, in general *)

Section LoopInvariant.
Variable fuel0 : nat.
Variable wd : list string.
Variable hoursPerDay : float.
Variable taskMap : list Task.
Variable ttl : string.

(** A property of the day, the hours left to place, the free hours, the
    schedule and the warnings, at the head of the loop. *)
Variable I : Z → float → float → list DayRecord → list Warning → Prop.

(** The three ways through the body.  The day has no free hours: the loop
    warns if the task is late, and moves on. *)
Hypothesis I_skip : ∀ c c' rem st,
  AllocInv wd c st → gt0 rem = true → le0 (freeHoursToday st) = true →
  firstWorkday wd (c + 1) c' →
  I c rem (freeHoursToday st) (st_schedule st) (st_warnings st) →
  I c' rem hoursPerDay (st_schedule st)
    (warned taskMap ttl (Day c) (st_warnings st)).

(** The day has room, and hours are left after the allocation: the loop
    warns if the task is late, allocates and moves on. *)
Hypothesis I_more : ∀ c c' rem st,
  AllocInv wd c st → gt0 rem = true → le0 (freeHoursToday st) = false →
  gt0 (rem - Math_min (freeHoursToday st) rem) = true →
  firstWorkday wd (c + 1) c' →
  I c rem (freeHoursToday st) (st_schedule st) (st_warnings st) →
  I c' (rem - Math_min (freeHoursToday st) rem) hoursPerDay
    (addAllocation (st_schedule st) (Day c) ttl
       (Math_min (freeHoursToday st) rem))
    (warned taskMap ttl (Day c) (st_warnings st)).

(** The day has room, and nothing is left after the allocation. *)
Hypothesis I_last : ∀ c rem st,
  AllocInv wd c st → gt0 rem = true → le0 (freeHoursToday st) = false →
  gt0 (rem - Math_min (freeHoursToday st) rem) = false →
  I c rem (freeHoursToday st) (st_schedule st) (st_warnings st) →
  I c (rem - Math_min (freeHoursToday st) rem)
    (freeHoursToday st - Math_min (freeHoursToday st) rem)
    (addAllocation (st_schedule st) (Day c) ttl
       (Math_min (freeHoursToday st) rem))
    (warned taskMap ttl (Day c) (st_warnings st)).

Lemma allocate_invariant : ∀ fuel rem st c st',
  AllocInv wd c st →
  I c rem (freeHoursToday st) (st_schedule st) (st_warnings st) →
  allocate fuel0 fuel wd hoursPerDay taskMap ttl rem st = Returned st' →
  ∃ c' rem', (c <= c')%Z ∧ gt0 rem' = false ∧ AllocInv wd c' st'
    ∧ I c' rem' (freeHoursToday st') (st_schedule st') (st_warnings st')
    ∧ finishedAt st' = finishedAt st.
Proof.
  assert (∀ rem st c st', AllocInv wd c st →
            I c rem (freeHoursToday st) (st_schedule st) (st_warnings st) →
            gt0 rem = false → Returned st = Returned st' →
            ∃ c' rem', (c <= c')%Z ∧ gt0 rem' = false ∧ AllocInv wd c' st'
              ∧ I c' rem' (freeHoursToday st') (st_schedule st')
                  (st_warnings st')
              ∧ finishedAt st' = finishedAt st) as Hexit.
  { intros rem st c st' Hinv HI Hpos [= <-].
    exists c, rem. split_and!; done || lia. }
  induction fuel as [|fuel IH]; intros rem st c st' Hinv HI.
  { rewrite allocate_O. destruct (gt0 rem) eqn:Hpos; [done|].
    by apply (Hexit rem). }
  rewrite allocate_S. destruct (gt0 rem) eqn:Hpos; [|by apply (Hexit rem)].
  cbv zeta.
  destruct (warned_state taskMap ttl c st (ai_day _ _ _ Hinv))
    as (Hc1 & Hf1 & Hs1 & Hfin1 & Hw1).
  set (st1 := if isAfter _ _ && true then _ else st) in *.
  assert (AllocInv wd c st1) as Hinv1 by (by apply AllocInv_ext with st).
  clearbody st1.
  destruct (le0 (freeHoursToday st1)) eqn:Hfree.
  - destruct (advanceToNextWorkday fuel0 wd hoursPerDay st1) as [st2|e|]
      eqn:Hadv; cbn [mbind Outcome_bind]; [|done|done].
    destruct (advance_first _ _ _ _ _ _ Hinv1 Hadv)
      as (c2 & Hfirst & Hinv2 & _ & Hf2 & Hs2 & Hw2 & Hfin2).
    intros Hrun.
    destruct (IH rem st2 c2 st' Hinv2) as (c' & rem' & Hle & ? & ? & ? & Hfin);
      [|done|].
    + rewrite Hf2, Hs2, Hw2, Hs1, Hw1.
      apply I_skip; [done|done|by rewrite <- Hf1|done|done].
    + exists c', rem'. destruct Hfirst as (? & _).
      split_and!; try done; [lia|congruence].
  - set (alloc := Math_min (freeHoursToday st1) rem).
    set (st2 := {| currentDay := currentDay st1;
                   freeHoursToday := (freeHoursToday st1 - alloc)%float;
                   st_schedule := _ |}).
    pose proof (AllocInv_put wd c st1 ttl alloc
                  (freeHoursToday st1 - alloc)%float
                  (st_warnings st1) (finishedAt st1) Hinv1) as Hinv2.
    fold st2 in Hinv2.
    assert (st_schedule st2
            = addAllocation (st_schedule st) (Day c) ttl
                (Math_min (freeHoursToday st) rem)) as Hs2.
    { unfold st2, alloc. simpl.
      by rewrite Hc1, Hf1, Hs1, (ai_day _ _ _ Hinv), startOfDay_Day. }
    assert (freeHoursToday st2
            = (freeHoursToday st - Math_min (freeHoursToday st) rem)%float)
      as Hf2 by (unfold st2, alloc; simpl; by rewrite Hf1).
    assert (st_warnings st2 = warned taskMap ttl (Day c) (st_warnings st))
      as Hw2 by done.
    assert (finishedAt st2 = finishedAt st) as Hfin2 by done.
    assert (rem - alloc = rem - Math_min (freeHoursToday st) rem)%float
      as Hrem by (unfold alloc; by rewrite Hf1).
    rewrite Hf1 in Hfree. clearbody st2. rewrite Hrem.
    destruct (gt0 (rem - Math_min (freeHoursToday st) rem)) eqn:Hmore.
    + destruct (advanceToNextWorkday fuel0 wd hoursPerDay st2) as [st3|e|]
        eqn:Hadv; cbn [mbind Outcome_bind]; [|done|done].
      destruct (advance_first _ _ _ _ _ _ Hinv2 Hadv)
        as (c3 & Hfirst & Hinv3 & _ & Hf3 & Hs3 & Hw3 & Hfin3).
      intros Hrun.
      destruct (IH (rem - Math_min (freeHoursToday st) rem)%float st3 c3 st'
                  Hinv3) as (c' & rem' & Hle & ? & ? & ? & Hfin);
        [|done|].
      * rewrite Hf3, Hs3, Hw3, Hs2, Hw2. by apply I_more.
      * exists c', rem'. destruct Hfirst as (? & _).
        split_and!; try done; [lia|congruence].
    + intros Hrun.
      destruct (IH (rem - Math_min (freeHoursToday st) rem)%float st2 c st'
                  Hinv2) as (c' & rem' & Hle & ? & ? & ? & Hfin);
        [|done|].
      * rewrite Hf2, Hs2, Hw2. by apply I_last.
      * exists c', rem'. split_and!; try done. congruence.
Qed.
End LoopInvariant.

(** The loop only adds allocations of its task, from the current day on. *)
Lemma allocate_grows fuel0 wd hoursPerDay taskMap ttl fuel rem st c st' :
  AllocInv wd c st →
  allocate fuel0 fuel wd hoursPerDay taskMap ttl rem st = Returned st' →
  Grows ttl c (st_schedule st) (st_schedule st').
Proof.
  intros Hinv Hrun.
  destruct (allocate_invariant fuel0 wd hoursPerDay taskMap ttl
              (λ c' _ _ sched _,
                 (c <= c')%Z ∧ Grows ttl c (st_schedule st) sched))
    with (fuel := fuel) (rem := rem) (st := st) (c := c) (st' := st')
    as (c' & rem' & _ & _ & _ & (_ & Hg) & _); try done.
  - intros c1 c2 rem1 st1 _ _ _ (Hle & _) (? & ?). split; [lia|done].
  - intros c1 c2 rem1 st1 _ _ _ _ (Hle & _) (? & Hg). split; [lia|].
    apply Grows_trans with (c' := c1) (s2 := st_schedule st1); [done..|].
    apply Grows_add.
  - intros c1 rem1 st1 _ _ _ _ (? & Hg). split; [done|].
    apply Grows_trans with (c' := c1) (s2 := st_schedule st1); [done..|].
    apply Grows_add.
  - split; [lia|apply Grows_refl].
Qed.

Lemma WalkInv_nil : WalkInv [] [].
Proof.
  split.
  - by intros r t ?%elem_of_nil.
  - by intros t ?%elem_of_nil.
  - by intros a b ra rb _ ?%elem_of_nil.
Qed.

(** After a task that got an allocation, the schedule holds the walked
    tasks, in their order. *)
Lemma WalkInv_step seen ttl c1 s1 s2 r2 :
  (∀ r, r ∈ s1 → ∃ n, date r = Day n ∧ (n <= c1)%Z) →
  WalkInv seen s1 → ttl ∉ seen → Grows ttl c1 s1 s2 →
  r2 ∈ s2 → mentions ttl r2 →
  WalkInv (seen ++ [ttl]) s2.
Proof.
  intros Hdates [Hknown Hpresent Horder] Hnew (Hg2 & Hg3) Hr2 Hm2.
  assert (∀ r, r ∈ s1 → ¬ mentions ttl r) as Hfresh.
  { intros r Hr Hmr. apply Hnew. by eapply Hknown. }
  assert (∀ r' t, t ∈ seen → r' ∈ s2 → mentions t r' →
            ∃ r, r ∈ s1 ∧ date r = date r' ∧ mentions t r) as Hold.
  { intros r' t Ht Hr' Hmr.
    destruct (Hg2 r' t Hr' Hmr) as [(-> & _)|?]; [done|done]. }
  split.
  - intros r' t Hr' Hmr. rewrite elem_of_app, list_elem_of_singleton.
    destruct (Hg2 r' t Hr' Hmr) as [(-> & _)|(r & Hr & _ & Hmr0)];
      [by right|left; by eapply Hknown].
  - intros t [Ht| ->%list_elem_of_singleton]%elem_of_app.
    + destruct (Hpresent t Ht) as (r & Hr & Hmr).
      destruct (Hg3 r t Hr Hmr) as (r' & ? & _ & ?). by exists r'.
    + by exists r2.
  - intros a b ra rb [Hab|(-> & Ha)]%precedes_snoc Hra Hrb Hma Hmb.
    + destruct (precedes_elem _ _ _ Hab) as [Ha Hb].
      destruct (Hold ra a Ha Hra Hma) as (ra0 & Hra0 & <- & Hma0).
      destruct (Hold rb b Hb Hrb Hmb) as (rb0 & Hrb0 & <- & Hmb0).
      by eapply Horder.
    + destruct (Hold ra a Ha Hra Hma) as (ra0 & Hra0 & <- & Hma0).
      destruct (Hdates ra0 Hra0) as (m & -> & Hm1).
      destruct (Hg2 rb ttl Hrb Hmb) as [(_ & n & -> & Hn)|(r & Hr & _ & Hmr)].
      * rewrite isBefore_Day. apply bool_decide_eq_false. lia.
      * by destruct (Hfresh r Hr).
Qed.

Lemma lastDayRecord_fresh seen sched ttl :
  WalkInv seen sched → ttl ∉ seen → lastDayRecord sched ttl = None.
Proof.
  intros Hwalk Hnew. destruct (lastDayRecord sched ttl) as [r|] eqn:Hl; [|done].
  apply lastDayRecord_Some in Hl as [Hr Hm].
  destruct Hnew. by eapply (wi_known _ _ Hwalk).
Qed.

Lemma buildRemaining_get : ∀ ts acc k,
  NoDup (map title ts) →
  getOr 0%float (buildRemaining ts acc) k
  = if bool_decide (k ∈ map title ts) then estimatedHours (getTask ts k)
    else getOr 0%float acc k.
Proof.
  induction ts as [|t ts IH]; intros acc k Hnd; cbn [buildRemaining map].
  - rewrite bool_decide_eq_false_2; [done|apply not_elem_of_nil].
  - cbn [map] in Hnd. apply NoDup_cons in Hnd as [Hnot Hnd].
    rewrite IH, getTask_cons by done.
    destruct (decide (title t = k)) as [<-|Hne].
    + rewrite (bool_decide_eq_false_2 _ Hnot).
      rewrite (bool_decide_eq_true_2 (title t ∈ title t :: map title ts))
        by left.
      by rewrite getOr_insert_eq, bool_decide_eq_true_2.
    + rewrite (bool_decide_eq_false_2 (title t = k)) by done.
      rewrite getOr_insert_ne by done.
      destruct (decide (k ∈ map title ts)) as [Hin|Hout].
      * rewrite !bool_decide_eq_true_2; [done|by right|done].
      * rewrite !bool_decide_eq_false_2; [done| |done].
        rewrite not_elem_of_cons. split; [congruence|done].
Qed.

(** ** Invariants of the walk, in general *)

Lemma earliestReadyOf_bound host fin c : ∀ deps e0,
  (∀ d, d ∈ deps → ∃ n, fin !! d = Some (Day n) ∧ (n <= c)%Z) →
  ∃ e, earliestReadyOf host deps fin (Day e0) = Day e
       ∧ (e0 <= e)%Z ∧ (e <= Z.max e0 c)%Z.
Proof.
  induction deps as [|d deps IH]; intros e0 Hfin; simpl.
  - exists e0. split_and!; [done|lia|lia].
  - destruct (Hfin d ltac:(left)) as (n & -> & Hn). rewrite isAfter_Day.
    assert (∃ e1, (if bool_decide (e0 < n)%Z then Day n else Day e0) = Day e1
                  ∧ (e0 <= e1)%Z ∧ (e1 <= Z.max e0 c)%Z) as (e1 & -> & ? & ?).
    { case_bool_decide; eexists; split_and!; try done; lia. }
    destruct (IH e1) as (e & -> & ? & ?).
    { intros d' Hd'. apply Hfin. by right. }
    exists e. split_and!; [done|lia|lia].
Qed.

Lemma startOfDay_valid d t : startOfDay d = Time t → ∃ n, Time t = Day n.
Proof. destruct d as [t0|]; [|done]. intros <-. by eexists. Qed.

Lemma startOf_Day host start t :
  startOf host start = Time t → ∃ n, Time t = Day n.
Proof. apply startOfDay_valid. Qed.

Section WalkInvariant.
Variable host : Host.
Variable fuel0 : nat.
Variable wd : list string.
Variable hoursPerDay : float.
Variable taskMap : list Task.
Variable start : option string.

(** [J seen c free sched warns]: what holds between two tasks, once the
    tasks of [seen] are allocated.  [I seen ttl c rem free sched warns]:
    what holds at the head of the loop that allocates [ttl]. *)
Variable J : list string → Z → float → list DayRecord → list Warning → Prop.
Variable I : list string → string → Z → float → float → list DayRecord →
             list Warning → Prop.

Hypothesis I_skip : ∀ seen ttl c c' rem st,
  ttl ∉ seen →
  AllocInv wd c st → gt0 rem = true → le0 (freeHoursToday st) = true →
  firstWorkday wd (c + 1) c' →
  I seen ttl c rem (freeHoursToday st) (st_schedule st) (st_warnings st) →
  I seen ttl c' rem hoursPerDay (st_schedule st)
    (warned taskMap ttl (Day c) (st_warnings st)).

Hypothesis I_more : ∀ seen ttl c c' rem st,
  ttl ∉ seen →
  AllocInv wd c st → gt0 rem = true → le0 (freeHoursToday st) = false →
  gt0 (rem - Math_min (freeHoursToday st) rem) = true →
  firstWorkday wd (c + 1) c' →
  I seen ttl c rem (freeHoursToday st) (st_schedule st) (st_warnings st) →
  I seen ttl c' (rem - Math_min (freeHoursToday st) rem) hoursPerDay
    (addAllocation (st_schedule st) (Day c) ttl
       (Math_min (freeHoursToday st) rem))
    (warned taskMap ttl (Day c) (st_warnings st)).

Hypothesis I_last : ∀ seen ttl c rem st,
  ttl ∉ seen →
  AllocInv wd c st → gt0 rem = true → le0 (freeHoursToday st) = false →
  gt0 (rem - Math_min (freeHoursToday st) rem) = false →
  I seen ttl c rem (freeHoursToday st) (st_schedule st) (st_warnings st) →
  I seen ttl c (rem - Math_min (freeHoursToday st) rem)
    (freeHoursToday st - Math_min (freeHoursToday st) rem)
    (addAllocation (st_schedule st) (Day c) ttl
       (Math_min (freeHoursToday st) rem))
    (warned taskMap ttl (Day c) (st_warnings st)).

(** Entering the loop of a task, on or after 1970-01-01. *)
Hypothesis J_enter : ∀ seen ttl c st,
  WalkBase wd seen c st → ttl ∉ seen → (0 <= c)%Z →
  gt0 (estimatedHours (getTask taskMap ttl)) = true →
  J seen c (freeHoursToday st) (st_schedule st) (st_warnings st) →
  I seen ttl c (estimatedHours (getTask taskMap ttl))
    (freeHoursToday st) (st_schedule st) (st_warnings st).

(** The jump of lines 143-147, from a day before 1970-01-01. *)
Hypothesis J_jump : ∀ c c' free warns,
  (c < 0)%Z → firstWorkday wd 0 c' →
  J [] c free [] warns → J [] c' hoursPerDay [] warns.

(** Leaving the loop of a task. *)
Hypothesis I_exit : ∀ seen ttl c rem st,
  AllocInv wd c st → ttl ∉ seen → gt0 rem = false →
  WalkInv (seen ++ [ttl]) (st_schedule st) →
  I seen ttl c rem (freeHoursToday st) (st_schedule st) (st_warnings st) →
  J (seen ++ [ttl]) c (freeHoursToday st) (st_schedule st) (st_warnings st).

(** The start of the walk, on the first workday from the start date on. *)
Hypothesis J_init : ∀ s c,
  startOf host start = Day s → firstWorkday wd s c →
  J [] c hoursPerDay [] [].

Lemma scheduleTask_invariant remaining seen ttl st c st' :
  WalkBase wd seen c st → ttl ∉ seen →
  (∀ d, d ∈ dependencies (getTask taskMap ttl) → d ∈ seen) →
  getOr 0%float remaining ttl = estimatedHours (getTask taskMap ttl) →
  J seen c (freeHoursToday st) (st_schedule st) (st_warnings st) →
  scheduleTask host fuel0 wd hoursPerDay taskMap remaining ttl st
  = Returned st' →
  gt0 (estimatedHours (getTask taskMap ttl)) = true
  ∧ ∃ c', WalkBase wd (seen ++ [ttl]) c' st'
        ∧ J (seen ++ [ttl]) c' (freeHoursToday st') (st_schedule st')
            (st_warnings st').
Proof.
  intros Hbase Hnew Hdeps Hrem HJ Hrun.
  unfold scheduleTask in Hrun.
  destruct (earliestReadyOf_bound host (finishedAt st) c
              (dependencies (getTask taskMap ttl)) 0) as (e & Her & He0 & He).
  { intros d Hd. by apply (wb_fin _ _ _ _ Hbase), Hdeps. }
  unfold epoch in Hrun. rewrite Her in Hrun.
  pose proof (wb_alloc _ _ _ _ Hbase) as Hinv.
  rewrite (ai_day _ _ _ Hinv) in Hrun.
  assert (∃ c1 st1,
            (if isAfter (Day e) (Day c)
             then d ← runNextWorkday fuel0 (Day e) wd;
                  Returned {| currentDay := d; freeHoursToday := hoursPerDay;
                              st_schedule := st_schedule st;
                              st_warnings := st_warnings st;
                              finishedAt := finishedAt st |}
             else Returned st) = Returned st1
            ∧ (c <= c1)%Z ∧ (0 <= c1)%Z
            ∧ WalkBase wd seen c1 st1
            ∧ J seen c1 (freeHoursToday st1) (st_schedule st1)
                (st_warnings st1))
    as (c1 & st1 & Hjump & Hle1 & Hc1 & Hbase1 & HJ1).
  { destruct (isAfter (Day e) (Day c)) eqn:Hafter; rewrite isAfter_Day in Hafter.
    - apply bool_decide_eq_true in Hafter.
      assert (c < 0)%Z as Hneg by lia. assert (e = 0%Z) as -> by lia.
      assert (st_schedule st = []) as Hnil.
      { destruct (st_schedule st) as [|r l] eqn:Hs; [done|].
        pose proof (wb_epoch _ _ _ _ Hbase) as Hep.
        rewrite Hs in Hep. specialize (Hep ltac:(done)). lia. }
      assert (seen = []) as ->.
      { destruct seen as [|t seen]; [done|].
        destruct (wi_present _ _ (wb_walk _ _ _ _ Hbase) t ltac:(left))
          as (r & Hr & _). rewrite Hnil in Hr. by apply elem_of_nil in Hr. }
      unfold runNextWorkday in *.
      destruct (nextWorkday fuel0 (Day 0) wd) as [d|] eqn:Hn;
        cbn [mbind Outcome_bind] in *; [|done].
      destruct (nextWorkday_minimal _ _ _ _ Hn) as (c1 & -> & Hfirst).
      pose proof Hfirst as (Hge & Hw & _).
      eexists c1, _. split; [done|]. split_and!; [lia|lia| |].
      + split; simpl.
        * apply AllocInv_move with (c := c); [done|lia|done].
        * apply (wb_walk _ _ _ _ Hbase).
        * by intros t ?%elem_of_nil.
        * intros _. lia.
      + simpl. rewrite Hnil in HJ |- *.
        by apply (J_jump c c1 (freeHoursToday st)).
    - apply bool_decide_eq_false in Hafter.
      exists c, st. split_and!; [done|lia|lia|done|done]. }
  rewrite Hjump in Hrun. cbn [mbind Outcome_bind] in Hrun.
  rewrite Hrem in Hrun.
  destruct (allocate fuel0 fuel0 wd hoursPerDay taskMap ttl _ st1)
    as [st2|e'|] eqn:Halloc; cbn [mbind Outcome_bind] in Hrun; [|done|done].
  pose proof (wb_alloc _ _ _ _ Hbase1) as Hinv1.
  pose proof (wb_walk _ _ _ _ Hbase1) as Hwalk1.
  destruct (lastDayRecord (st_schedule st2) ttl) as [r|] eqn:Hlast; [|done].
  assert (gt0 (estimatedHours (getTask taskMap ttl)) = true) as Hpos.
  { destruct (gt0 (estimatedHours (getTask taskMap ttl))) eqn:Hpos; [done|].
    destruct fuel0; simpl in Halloc; rewrite Hpos in Halloc;
      injection Halloc as <-;
      by rewrite (lastDayRecord_fresh seen _ ttl Hwalk1 Hnew) in Hlast. }
  split; [done|].
  pose proof (allocate_grows _ _ _ _ _ _ _ _ _ _ Hinv1 Halloc) as Hgrows.
  destruct (allocate_invariant fuel0 wd hoursPerDay taskMap ttl (I seen ttl)
              (λ c c' rem st, I_skip seen ttl c c' rem st Hnew)
              (λ c c' rem st, I_more seen ttl c c' rem st Hnew)
              (λ c rem st, I_last seen ttl c rem st Hnew)
              fuel0 _ st1 c1 st2 Hinv1
              (J_enter seen ttl c1 st1 Hbase1 Hnew Hc1 Hpos HJ1) Halloc)
    as (c2 & rem' & Hle2 & Hrem' & Hinv2 & HI2 & Hfin2).
  injection Hrun as <-. simpl in *.
  apply lastDayRecord_Some in Hlast as [Hr Hmr].
  destruct (ai_dates _ _ _ Hinv2 r Hr) as (n & Hn & Hnc & _).
  assert (WalkInv (seen ++ [ttl]) (st_schedule st2)) as Hwalk2.
  { apply (WalkInv_step seen ttl c1 (st_schedule st1) _ r); try done.
    intros r0 Hr0. destruct (ai_dates _ _ _ Hinv1 r0 Hr0) as (m & ? & ? & _).
    eauto. }
  exists c2. split.
  - split; simpl.
    + by apply AllocInv_ext with st2.
    + done.
    + intros t [Ht| ->%list_elem_of_singleton]%elem_of_app.
      * rewrite lookup_insert_ne by (intros ->; done). rewrite Hfin2.
        destruct (wb_fin _ _ _ _ Hbase1 t Ht) as (m & Hm & Hmc).
        exists m. split; [done|lia].
      * rewrite lookup_insert_eq, Hn. exists n. split; [done|lia].
    + intros _. lia.
  - by apply (I_exit seen ttl c2 rem' st2).
Qed.

Lemma scheduleAll_invariant remaining : ∀ order seen st c st',
  WalkBase wd seen c st →
  NoDup (seen ++ order) → Prec taskMap (seen ++ order) →
  (∀ t, t ∈ order →
     getOr 0%float remaining t = estimatedHours (getTask taskMap t)) →
  J seen c (freeHoursToday st) (st_schedule st) (st_warnings st) →
  scheduleAll host fuel0 wd hoursPerDay taskMap remaining order st
  = Returned st' →
  (∀ t, t ∈ order → gt0 (estimatedHours (getTask taskMap t)) = true)
  ∧ ∃ c', WalkBase wd (seen ++ order) c' st'
        ∧ J (seen ++ order) c' (freeHoursToday st') (st_schedule st')
            (st_warnings st').
Proof.
  induction order as [|ttl order IH]; intros seen st c st' Hbase Hnd Hprec
    Hrem HJ; simpl.
  - intros [= <-]. split; [by intros t ?%elem_of_nil|].
    exists c. by rewrite app_nil_r.
  - pose proof (Hrem ttl ltac:(left)) as Hr.
    assert (ttl ∉ seen) as Hnew.
    { apply NoDup_app in Hnd as (_ & Hdisj & _). intros Hin.
      apply (Hdisj ttl Hin). left. }
    destruct (scheduleTask host fuel0 wd hoursPerDay taskMap remaining ttl st)
      as [st1|e|] eqn:Hone; cbn [mbind Outcome_bind]; [|done|done].
    destruct (scheduleTask_invariant remaining seen ttl st c st1 Hbase Hnew
                ltac:(by apply (Hprec seen ttl order)) Hr HJ Hone)
      as (Hpos & c1 & Hbase1 & HJ1).
    intros Hrun.
    destruct (IH (seen ++ [ttl]) st1 c1 st' Hbase1) as (Hall & c' & ? & ?);
      rewrite <- ?app_assoc; try done.
    + intros t Ht. apply Hrem. by right.
    + split.
      * intros t [->|Ht]%elem_of_cons; [done|by apply Hall].
      * exists c'. by rewrite <- app_assoc in *.
Qed.

Lemma allocatePhase_invariant topo out :
  NoDup (map title taskMap) →
  topo ≡ₚ map title taskMap → Prec taskMap topo →
  allocatePhase host fuel0 wd hoursPerDay start taskMap topo = Returned out →
  (∀ t, t ∈ taskMap → gt0 (estimatedHours t) = true)
  ∧ ∃ c st, WalkBase wd topo c st
          ∧ st_schedule st = schedule out ∧ st_warnings st = warnings out
          ∧ recommendedOrder out = topo
          ∧ J topo c (freeHoursToday st) (schedule out) (warnings out).
Proof.
  intros Hnd Hperm Hprec. unfold allocatePhase, runNextWorkday.
  destruct (nextWorkday fuel0 (startOf host start) wd) as [cur|] eqn:Hn;
    cbn [mbind Outcome_bind]; [|done].
  destruct (startOf host start) as [s|] eqn:Hs;
    [|by rewrite nextWorkday_invalid in Hn].
  destruct (startOf_Day _ _ _ Hs) as (s0 & Hs0). rewrite Hs0 in *.
  destruct (nextWorkday_minimal _ _ _ _ Hn) as (c & -> & Hfirst).
  set (st0 := {| currentDay := Day c; freeHoursToday := hoursPerDay;
                 st_schedule := []; st_warnings := []; finishedAt := ∅ |}).
  assert (WalkBase wd [] c st0) as Hbase.
  { split; [split| | |]; simpl; try done.
    - by destruct Hfirst as (_ & ? & _).
    - by intros r ?%elem_of_nil.
    - constructor.
    - apply WalkInv_nil.
    - by intros t ?%elem_of_nil. }
  destruct (scheduleAll host fuel0 wd hoursPerDay taskMap
              (buildRemaining taskMap ∅) topo st0) as [st|e|] eqn:Hall;
    cbn [mbind Outcome_bind]; [|done|done].
  intros [= <-]. simpl.
  destruct (scheduleAll_invariant (buildRemaining taskMap ∅) topo [] st0 c st
              Hbase) as (Hpos & c' & Hbase' & HJ'); simpl; try done.
  - by rewrite Hperm.
  - intros t Ht. rewrite Hperm in Ht.
    by rewrite buildRemaining_get, bool_decide_eq_true_2 by done.
  - by apply (J_init s0 c).
  - split.
    + intros t Ht. rewrite <- (getTask_lookup taskMap t) by done.
      apply Hpos. rewrite Hperm. by apply list_elem_of_fmap_2.
    + by exists c', st.
Qed.
End WalkInvariant.

(** ** The facade *)

Lemma prepare_returned host fuel ts tm topo :
  prepare host fuel ts = Returned (tm, topo) →
  Forall2 (normalizes host) ts tm ∧ NoDup (map title tm)
  ∧ (∀ t d, t ∈ tm → d ∈ dependencies t → d ∈ map title tm ∧ d ≠ title t)
  ∧ sequence host fuel tm = Returned topo.
Proof.
  unfold prepare. pose proof (registry_spec host ts []) as Hreg.
  destruct (registry host ts []) as [tm'|e|]; cbn [mbind Outcome_bind];
    [|done|done].
  destruct Hreg as (new & Heq & Hall & Hnd & _). simpl in Heq. subst new.
  pose proof (checkAllDeps_spec tm' tm') as Hdeps.
  destruct (checkAllDeps tm' tm') as [[]|e|]; cbn [mbind Outcome_bind];
    [|done|done].
  destruct (sequence host fuel tm') as [topo'|e|] eqn:Hseq;
    cbn [mbind Outcome_bind]; [|done|done].
  intros [= <- <-]. split_and!; done.
Qed.

Lemma normalizes_getTask host ts tm raw ttl :
  Forall2 (normalizes host) ts tm → NoDup (map title tm) →
  raw ∈ ts → raw_title raw = Some ttl →
  normalizes host raw (getTask tm ttl) ∧ ttl ∈ map title tm.
Proof.
  intros Hall Hnd Hraw Httl. apply list_elem_of_lookup in Hraw as [i Hi].
  destruct (Forall2_lookup_l _ _ _ _ _ Hall Hi) as (t & Ht & Hn).
  apply list_elem_of_lookup_2 in Ht.
  assert (title t = ttl) as <-.
  { destruct Hn as (Ht1 & _). rewrite Httl in Ht1. by injection Ht1. }
  rewrite getTask_lookup by done. split; [done|].
  by apply list_elem_of_fmap_2.
Qed.

Lemma sequence_perm host fuel tm topo :
  NoDup (map title tm) → sequence host fuel tm = Returned topo →
  topo ≡ₚ map title tm.
Proof.
  intros Hnd Hseq.
  by destruct (sequence_returned host tm Hnd (λ _, True) (λ _ _, True)
                 ltac:(done) ltac:(done) fuel topo Hseq).
Qed.

(** A successful call, phase by phase. *)
Lemma scheduleTasks_phases host fuel inp out :
  scheduleTasks host fuel inp = Returned out →
  ∃ ts tm,
    tasks inp = Some ts ∧ ts ≠ []
    ∧ Forall2 (normalizes host) ts tm ∧ NoDup (map title tm)
    ∧ (∀ t d, t ∈ tm → d ∈ dependencies t → d ∈ map title tm ∧ d ≠ title t)
    ∧ recommendedOrder out ≡ₚ map title tm
    ∧ Prec tm (recommendedOrder out)
    ∧ sequence host fuel tm = Returned (recommendedOrder out)
    ∧ allocatePhase host fuel (default defaultWorkDays (workDays inp))
        (default 8%float (workHoursPerDay inp)) (startDate inp) tm
        (recommendedOrder out) = Returned out.
Proof.
  unfold scheduleTasks. destruct (tasks inp) as [[|raw ts]|]; [done| |done].
  destruct (prepare host fuel (raw :: ts)) as [[tm topo]|e|] eqn:Hprep;
    cbn [mbind Outcome_bind]; [|done|done].
  apply prepare_returned in Hprep as (Hall & Hnd & Hdeps & Hseq).
  destruct (sequence_returned host tm Hnd (λ _, True) (λ _ _, True)
              ltac:(done) ltac:(done) fuel topo Hseq)
    as (Hperm & _ & Hprec & _).
  intros Hrun. assert (recommendedOrder out = topo) as Hout.
  { unfold allocatePhase in Hrun.
    destruct (runNextWorkday _ _ _); cbn [mbind Outcome_bind] in Hrun;
      [|done|done].
    destruct (scheduleAll _ _ _ _ _ _ _ _); cbn [mbind Outcome_bind] in Hrun;
      [|done|done].
    by injection Hrun as <-. }
  rewrite Hout. exists (raw :: ts), tm. split_and!; done.
Qed.

(** What every successful call establishes about days and order. *)
Lemma scheduleTasks_returned host fuel inp out :
  scheduleTasks host fuel inp = Returned out →
  ∃ ts tm c st,
    tasks inp = Some ts ∧ ts ≠ []
    ∧ Forall2 (normalizes host) ts tm ∧ NoDup (map title tm)
    ∧ (∀ t d, t ∈ tm → d ∈ dependencies t → d ∈ map title tm ∧ d ≠ title t)
    ∧ recommendedOrder out ≡ₚ map title tm
    ∧ Prec tm (recommendedOrder out)
    ∧ sequence host fuel tm = Returned (recommendedOrder out)
    ∧ (∀ t, t ∈ tm → gt0 (estimatedHours t) = true)
    ∧ WalkBase (default defaultWorkDays (workDays inp))
        (recommendedOrder out) c st
    ∧ st_schedule st = schedule out ∧ st_warnings st = warnings out.
Proof.
  intros Hrun.
  destruct (scheduleTasks_phases _ _ _ _ Hrun)
    as (ts & tm & Hts & Hne & Hall & Hnd & Hdeps & Hperm & Hprec & Hseq
        & Hphase).
  destruct (allocatePhase_invariant host fuel
              (default defaultWorkDays (workDays inp))
              (default 8%float (workHoursPerDay inp)) tm (startDate inp)
              (λ _ _ _ _ _, True) (λ _ _ _ _ _ _ _, True))
    with (topo := recommendedOrder out) (out := out)
    as (Hpos & c & st & Hbase & Hs & Hw & _); try done.
  exists ts, tm, c, st. split_and!; done.
Qed.

(** ** The hours, in double arithmetic *)

Lemma countDown_snoc x l h : countDown x (l ++ [h]) = (countDown x l - h)%float.
Proof. unfold countDown. by rewrite fold_left_app. Qed.

Lemma recordOf_add d sched ttl h :
  ∃ r', recordOf d (addAllocation sched d ttl h) = Some r'
        ∧ hoursOf r' = hoursOnDay d sched ++ [h].
Proof.
  unfold hoursOnDay, recordOf.
  induction sched as [|r sched IH]; simpl.
  - rewrite bool_decide_eq_true_2 by done. by eexists.
  - destruct (decide (date r = d)) as [Hd|Hd].
    + rewrite !(bool_decide_eq_true_2 _ Hd). simpl.
      rewrite (bool_decide_eq_true_2 _ Hd). eexists. split; [done|].
      unfold hoursOf. simpl. by rewrite map_app.
    + rewrite !(bool_decide_eq_false_2 _ Hd). simpl.
      by rewrite (bool_decide_eq_false_2 _ Hd).
Qed.

Lemma hoursOnDay_add d sched ttl h :
  hoursOnDay d (addAllocation sched d ttl h) = hoursOnDay d sched ++ [h].
Proof.
  destruct (recordOf_add d sched ttl h) as (r' & Hr & Hh).
  unfold hoursOnDay at 1. by rewrite Hr.
Qed.

Lemma hoursOnDay_add_ne d d' sched ttl h :
  d' ≠ d →
  hoursOnDay d' (addAllocation sched d ttl h) = hoursOnDay d' sched.
Proof.
  intros Hne. unfold hoursOnDay, recordOf.
  induction sched as [|r sched IH]; simpl.
  - by rewrite bool_decide_eq_false_2 by done.
  - destruct (decide (date r = d)) as [Hd|Hd].
    + rewrite (bool_decide_eq_true_2 _ Hd). simpl.
      rewrite (bool_decide_eq_false_2 (date r = d')) by congruence. done.
    + rewrite (bool_decide_eq_false_2 _ Hd). simpl.
      destruct (bool_decide (date r = d')); [done|apply IH].
Qed.

Lemma hoursOnDay_absent d sched : d ∉ map date sched → hoursOnDay d sched = [].
Proof.
  unfold hoursOnDay, recordOf. induction sched as [|r sched IH]; simpl; [done|].
  intros [Hne Hnot]%not_elem_of_cons.
  rewrite bool_decide_eq_false_2 by done. by apply IH.
Qed.

Lemma recordOf_chronological sched r :
  chronological sched → r ∈ sched → recordOf (date r) sched = Some r.
Proof.
  unfold chronological, recordOf.
  induction 1 as [|r0 sched Hs IH Hall]; [by intros ?%elem_of_nil|].
  intros [->|Hin]%elem_of_cons; simpl.
  - by rewrite bool_decide_eq_true_2.
  - rewrite bool_decide_eq_false_2; [by apply IH|].
    rewrite Forall_forall in Hall. specialize (Hall r Hin).
    intros Heq. rewrite Heq in Hall.
    destruct (date r); simpl in Hall; [|done].
    apply bool_decide_eq_true in Hall. lia.
Qed.

Lemma dates_add d d' sched ttl h :
  d' ∈ map date (addAllocation sched d ttl h) ↔ d' = d ∨ d' ∈ map date sched.
Proof.
  induction sched as [|r sched IH]; simpl.
  - rewrite list_elem_of_singleton. split; [by left|].
    by intros [?|?%elem_of_nil].
  - case_bool_decide as Hd; simpl.
    + rewrite elem_of_cons. split; [by right|]. intros [->|?]; [by left|done].
    + rewrite !elem_of_cons, IH. tauto.
Qed.

(** On the latest day, the allocations of a task get the new one at their
    end. *)
Lemma hoursGiven_add sched (c : Z) ttl h t :
  chronological sched →
  (∀ r, r ∈ sched → ∃ n, date r = Day n ∧ (n <= c)%Z) →
  hoursGiven t (addAllocation sched (Day c) ttl h)
  = hoursGiven t sched ++ if bool_decide (ttl = t) then [h] else [].
Proof.
  intros Hch Hle. unfold hoursGiven.
  change (concat (map allocations ?s)) with (allAllocations s).
  rewrite allAllocations_add, filter_app, map_app by done.
  f_equal. destruct (decide (ttl = t)) as [Ht|Ht].
  - rewrite bool_decide_eq_true_2 by done. by rewrite filter_cons_True.
  - rewrite bool_decide_eq_false_2 by done. by rewrite filter_cons_False.
Qed.

Section Doubles_step.
Local Open Scope Z_scope.

(** One allocation, on numbers: what [Math.min] and the two subtractions of
    lines 164-168 give. *)
Lemma put_step free rem :
  is_nan free = false → 0 < ord free < ordInf →
  is_nan rem = false → 0 < ord rem →
  gt0 (Math_min free rem) = true
  ∧ ord (Math_min free rem) <= ord free
  ∧ ord (Math_min free rem) <= ord rem
  ∧ is_nan (free - Math_min free rem)%float = false
  ∧ 0 <= ord (free - Math_min free rem)%float <= ord free
  ∧ is_nan (rem - Math_min free rem)%float = false
  ∧ 0 <= ord (rem - Math_min free rem)%float <= ord rem
  ∧ (gt0 (rem - Math_min free rem) = true →
     (free - Math_min free rem)%float = 0%float).
Proof.
  intros Hnf Hf Hnr Hr.
  destruct (Math_min_ord free rem Hnf Hnr) as (Hcase & Hnm & Hm).
  set (m := Math_min free rem) in *.
  assert (0 < ord m) as Hpos by lia.
  destruct (sub_ord free m Hnf Hnm ltac:(lia) ltac:(lia)) as (Hn1 & Ho1).
  assert (is_nan (rem - m)%float = false ∧ 0 <= ord (rem - m)%float <= ord rem)
    as (Hn2 & Ho2).
  { pose proof (ord_range rem) as Hrange.
    destruct (decide (ord rem < ordInf)) as [Hfin|Hinf].
    - apply sub_ord; [done|done|lia|done].
    - assert (rem = infinity) as Heq by (apply ord_infinity_inv; [done|lia]).
      destruct Hcase as [Hmf|Hmr].
      + rewrite Heq, sub_infinity by (rewrite ?Hmf; done || lia).
        rewrite <- Heq. split; [done|lia].
      + rewrite Hmr in Hm. lia. }
  split_and!; try done; try lia.
  - apply gt0_ord. split; [done|lia].
  - intros Hmore. destruct Hcase as [->| Hmr].
    + apply sub_self; [done|lia].
    + rewrite Hmr in Hmore, Hm. rewrite sub_self in Hmore; [done|done|lia].
Qed.

Lemma eqb_zero_inv x :
  (x =? 0)%float = true → is_nan x = false ∧ ord x = 0.
Proof.
  intros Heq. destruct (is_nan x) eqn:Hn.
  - rewrite is_nan_SF in Hn. rewrite FloatAxioms.eqb_spec in Heq.
    unfold SFeqb in Heq. by destruct (Prim2SF x).
  - split; [done|]. rewrite eqb_ord in Heq by done.
    apply Z.eqb_eq in Heq. by rewrite Heq.
Qed.
End Doubles_step.

Lemma elem_of_concat {A} (x : A) (ls : list (list A)) :
  x ∈ concat ls ↔ ∃ l, x ∈ l ∧ l ∈ ls.
Proof.
  rewrite list_elem_of_In, in_concat. split.
  - intros (l & Hl & Hx). exists l. by rewrite !list_elem_of_In.
  - intros (l & Hx & Hl). exists l. by rewrite <- !list_elem_of_In.
Qed.

Lemma hoursGiven_fresh ttl sched :
  (∀ r, r ∈ sched → ¬ mentions ttl r) → hoursGiven ttl sched = [].
Proof.
  intros Hfresh. unfold hoursGiven.
  assert (filter (λ a, alloc_title a = ttl) (concat (map allocations sched))
          = []) as ->; [|done].
  apply elem_of_nil_inv. intros a [Ht Ha]%list_elem_of_filter.
  apply elem_of_concat in Ha as (l & Ha & Hl).
  apply list_elem_of_fmap in Hl as (r & -> & Hr).
  apply (Hfresh r Hr). by exists a.
Qed.

Section HoursInvariant.
Local Open Scope Z_scope.
Variable wd : list string.
Variable hoursPerDay : float.
Hypothesis hpd_nan : is_nan hoursPerDay = false.
Hypothesis hpd_ord : 0 < ord hoursPerDay < ordInf.

Lemma Hours_start c : Hours hoursPerDay c hoursPerDay [].
Proof.
  split; try done.
  - lia.
  - by intros n _ ?%elem_of_nil.
  - by intros r a ?%elem_of_nil.
Qed.

(** Leaving a day that is used up. *)
Lemma Hours_advance c c' free sched :
  (∀ r, r ∈ sched → ∃ n, date r = Day n ∧ n <= c) →
  Hours hoursPerDay c free sched → (free =? 0)%float = true → c < c' →
  Hours hoursPerDay c' hoursPerDay sched.
Proof.
  intros Hdates [Hn Ho Hf Hfull Hpos] Hzero Hlt.
  assert (∀ n, c < n → Day n ∉ map date sched) as Hlater.
  { intros n Hcn (r & Hd & Hr)%list_elem_of_fmap.
    destruct (Hdates r Hr) as (m & Hm & Hle). rewrite Hm in Hd.
    apply Day_inj in Hd. lia. }
  split; try done.
  - lia.
  - by rewrite hoursOnDay_absent by (by apply Hlater).
  - intros n Hn' Hin. destruct (decide (n < c)) as [Hnc|Hnc]; [by apply Hfull|].
    destruct (decide (n = c)) as [->|Hne]; [by rewrite <- Hf|].
    destruct (Hlater n ltac:(lia) Hin).
Qed.

(** Putting [m] hours on the current day. *)
Lemma Hours_put c free sched ttl m :
  Hours hoursPerDay c free sched →
  gt0 m = true → ord m <= ord hoursPerDay →
  is_nan (free - m)%float = false → 0 <= ord (free - m)%float <= ord free →
  Hours hoursPerDay c (free - m)%float (addAllocation sched (Day c) ttl m).
Proof.
  intros [Hn Ho Hf Hfull Hpos] Hm Hmo Hn' Ho'. split; try done.
  - lia.
  - by rewrite hoursOnDay_add, countDown_snoc, <- Hf.
  - intros n Hnc [Heq|Hin]%dates_add.
    + apply Day_inj in Heq. lia.
    + rewrite hoursOnDay_add_ne; [by apply Hfull|].
      intros Heq%Day_inj. lia.
  - intros r a [[Hd Hall]|Hr]%addAllocation_elem Ha; [|by eapply Hpos].
    destruct (Hall a Ha) as [->|(r0 & Hr0 & _ & Ha0)]; [done|by eapply Hpos].
Qed.

Lemma Placing_put est ttl rem sched c m :
  chronological sched →
  (∀ r, r ∈ sched → ∃ n, date r = Day n ∧ n <= c) →
  Placing est ttl rem sched →
  is_nan (rem - m)%float = false → 0 <= ord (rem - m)%float <= ord rem →
  Placing est ttl (rem - m)%float (addAllocation sched (Day c) ttl m).
Proof.
  intros Hch Hdates [Hn Ho Hr] Hn' Ho'. split; [done|lia|].
  rewrite hoursGiven_add, bool_decide_eq_true_2 by done.
  by rewrite countDown_snoc, <- Hr.
Qed.

Lemma Placed_put taskMap seen ttl sched c m :
  chronological sched →
  (∀ r, r ∈ sched → ∃ n, date r = Day n ∧ n <= c) →
  ttl ∉ seen → Placed taskMap seen sched →
  Placed taskMap seen (addAllocation sched (Day c) ttl m).
Proof.
  intros Hch Hdates Hnew Hpl t Ht.
  rewrite hoursGiven_add, bool_decide_eq_false_2, app_nil_r by
    (done || by intros ->).
  by apply Hpl.
Qed.

Lemma AllocInv_dates c st :
  AllocInv wd c st → ∀ r, r ∈ st_schedule st → ∃ n, date r = Day n ∧ n <= c.
Proof.
  intros Hinv r Hr. destruct (ai_dates _ _ _ Hinv r Hr) as (n & ? & ? & _).
  eauto.
Qed.

Lemma Hours_positive c free sched :
  Hours hoursPerDay c free sched → le0 free = false →
  is_nan free = false ∧ 0 < ord free < ordInf.
Proof.
  intros [Hn Ho _ _ _] Hfree. split; [done|].
  pose proof (le0_false _ Hfree Hn). lia.
Qed.

Variable taskMap : list Task.

Lemma hours_skip seen ttl c c' rem st :
  ttl ∉ seen →
  AllocInv wd c st → gt0 rem = true → le0 (freeHoursToday st) = true →
  firstWorkday wd (c + 1) c' →
  HoursWithin hoursPerDay taskMap seen ttl c rem (freeHoursToday st)
    (st_schedule st) (st_warnings st) →
  HoursWithin hoursPerDay taskMap seen ttl c' rem hoursPerDay (st_schedule st)
    (warned taskMap ttl (Day c) (st_warnings st)).
Proof.
  intros _ Hinv Hrem Hfree (Hlt & _) (Hh & Hp & Hr).
  split_and!; [|done..].
  apply Hours_advance with (c := c) (free := freeHoursToday st);
    [by apply AllocInv_dates|done| |lia].
  apply le0_ord in Hfree as [Hn Ho]. apply eqb_zero; [done|].
  pose proof (ho_ord _ _ _ _ Hh). lia.
Qed.

Lemma hours_more seen ttl c c' rem st :
  ttl ∉ seen →
  AllocInv wd c st → gt0 rem = true → le0 (freeHoursToday st) = false →
  gt0 (rem - Math_min (freeHoursToday st) rem) = true →
  firstWorkday wd (c + 1) c' →
  HoursWithin hoursPerDay taskMap seen ttl c rem (freeHoursToday st)
    (st_schedule st) (st_warnings st) →
  HoursWithin hoursPerDay taskMap seen ttl c'
    (rem - Math_min (freeHoursToday st) rem) hoursPerDay
    (addAllocation (st_schedule st) (Day c) ttl
       (Math_min (freeHoursToday st) rem))
    (warned taskMap ttl (Day c) (st_warnings st)).
Proof.
  intros Hnew Hinv Hrem Hfree Hmore (Hlt & _) (Hh & Hp & Hr).
  destruct (Hours_positive _ _ _ Hh Hfree) as [Hnf Hof].
  apply gt0_ord in Hrem as [Hnr Hor].
  destruct (put_step _ _ Hnf Hof Hnr Hor)
    as (Hm & Hmf & Hmr & Hn1 & Ho1 & Hn2 & Ho2 & Hzero).
  pose proof (ho_ord _ _ _ _ Hh) as Hfo.
  split_and!.
  - apply Hours_advance
      with (c := c)
           (free := (freeHoursToday st
                     - Math_min (freeHoursToday st) rem)%float);
      [| |by rewrite Hzero|lia].
    + intros r [[Hd _]|Hr0]%addAllocation_elem;
        [exists c; split; [done|lia]|by apply (AllocInv_dates c st)].
    + apply Hours_put; [done|done|lia|done|done].
  - apply Placed_put;
      [apply (ai_chrono _ _ _ Hinv)|by apply AllocInv_dates|done|done].
  - apply Placing_put;
      [apply (ai_chrono _ _ _ Hinv)|by apply AllocInv_dates|done..].
Qed.

Lemma hours_last seen ttl c rem st :
  ttl ∉ seen →
  AllocInv wd c st → gt0 rem = true → le0 (freeHoursToday st) = false →
  gt0 (rem - Math_min (freeHoursToday st) rem) = false →
  HoursWithin hoursPerDay taskMap seen ttl c rem (freeHoursToday st)
    (st_schedule st) (st_warnings st) →
  HoursWithin hoursPerDay taskMap seen ttl c
    (rem - Math_min (freeHoursToday st) rem)
    (freeHoursToday st - Math_min (freeHoursToday st) rem)
    (addAllocation (st_schedule st) (Day c) ttl
       (Math_min (freeHoursToday st) rem))
    (warned taskMap ttl (Day c) (st_warnings st)).
Proof.
  intros Hnew Hinv Hrem Hfree Hmore (Hh & Hp & Hr).
  destruct (Hours_positive _ _ _ Hh Hfree) as [Hnf Hof].
  apply gt0_ord in Hrem as [Hnr Hor].
  destruct (put_step _ _ Hnf Hof Hnr Hor)
    as (Hm & Hmf & Hmr & Hn1 & Ho1 & Hn2 & Ho2 & Hzero).
  pose proof (ho_ord _ _ _ _ Hh) as Hfo.
  split_and!.
  - apply Hours_put; [done|done|lia|done|done].
  - apply Placed_put;
      [apply (ai_chrono _ _ _ Hinv)|by apply AllocInv_dates|done|done].
  - apply Placing_put;
      [apply (ai_chrono _ _ _ Hinv)|by apply AllocInv_dates|done..].
Qed.

Lemma hours_enter seen ttl c st :
  WalkBase wd seen c st → ttl ∉ seen → (0 <= c)%Z →
  gt0 (estimatedHours (getTask taskMap ttl)) = true →
  HoursBetween hoursPerDay taskMap seen c (freeHoursToday st)
    (st_schedule st) (st_warnings st) →
  HoursWithin hoursPerDay taskMap seen ttl c
    (estimatedHours (getTask taskMap ttl))
    (freeHoursToday st) (st_schedule st) (st_warnings st).
Proof.
  intros Hbase Hnew _ Hpos (Hh & Hp). split_and!; [done..|].
  apply gt0_ord in Hpos as [Hn Ho]. split; [done|lia|].
  rewrite hoursGiven_fresh; [done|]. intros r Hr Hm. apply Hnew.
  by apply (wi_known _ _ (wb_walk _ _ _ _ Hbase) r).
Qed.

Lemma hours_jump c c' free warns :
  (c < 0)%Z → firstWorkday wd 0 c' →
  HoursBetween hoursPerDay taskMap [] c free [] warns →
  HoursBetween hoursPerDay taskMap [] c' hoursPerDay [] warns.
Proof. intros _ _ (_ & Hp). split; [apply Hours_start|done]. Qed.

Lemma hours_exit seen ttl c rem st :
  AllocInv wd c st → ttl ∉ seen → gt0 rem = false →
  WalkInv (seen ++ [ttl]) (st_schedule st) →
  HoursWithin hoursPerDay taskMap seen ttl c rem (freeHoursToday st)
    (st_schedule st) (st_warnings st) →
  HoursBetween hoursPerDay taskMap (seen ++ [ttl]) c (freeHoursToday st)
    (st_schedule st) (st_warnings st).
Proof.
  intros Hinv Hnew Hrem _ (Hh & Hp & [Hn Ho Hr]).
  split; [done|]. intros t [Ht| ->%list_elem_of_singleton]%elem_of_app;
    [by apply Hp|].
  rewrite <- Hr. apply eqb_zero; [done|].
  pose proof (gt0_false _ Hrem Hn). lia.
Qed.

Lemma hours_init c : HoursBetween hoursPerDay taskMap [] c hoursPerDay [] [].
Proof. split; [apply Hours_start|]. by intros t ?%elem_of_nil. Qed.

Variable host : Host.
Variable fuel0 : nat.
Variable start : option string.


(** The hours, over the whole walk. *)
Lemma allocatePhase_hours topo out :
  NoDup (map title taskMap) →
  topo ≡ₚ map title taskMap → Prec taskMap topo →
  allocatePhase host fuel0 wd hoursPerDay start taskMap topo = Returned out →
  ∃ c st, WalkBase wd topo c st
          ∧ st_schedule st = schedule out ∧ st_warnings st = warnings out
          ∧ Hours hoursPerDay c (freeHoursToday st) (schedule out)
          ∧ Placed taskMap topo (schedule out).
Proof.
  intros Hnd Hperm Hprec Hrun.
  destruct (allocatePhase_invariant host fuel0 wd hoursPerDay taskMap start
              (HoursBetween hoursPerDay taskMap)
              (HoursWithin hoursPerDay taskMap)
              hours_skip hours_more hours_last hours_enter hours_jump
              hours_exit (λ s c _ _, hours_init c) topo out Hnd Hperm Hprec
              Hrun)
    as (_ & c & st & Hbase & Hs & Hw & _ & Hh & Hp).
  by exists c, st.
Qed.

(** What the hours of a day record come to. *)
Lemma Hours_record c st r :
  AllocInv wd c st →
  Hours hoursPerDay c (freeHoursToday st) (st_schedule st) →
  r ∈ st_schedule st →
  is_nan (countDown hoursPerDay (hoursOf r)) = false
  ∧ 0 <= ord (countDown hoursPerDay (hoursOf r)) <= ord hoursPerDay
  ∧ ∀ n, date r = Day n → n < c →
      (countDown hoursPerDay (hoursOf r) =? 0)%float = true.
Proof.
  intros Hinv [Hn Ho Hf Hfull Hpos] Hr.
  destruct (ai_dates _ _ _ Hinv r Hr) as (n & Hd & Hle & _).
  assert (hoursOnDay (Day n) (st_schedule st) = hoursOf r) as Hrec.
  { unfold hoursOnDay. rewrite <- Hd.
    by rewrite (recordOf_chronological _ _ (ai_chrono _ _ _ Hinv) Hr). }
  assert (Day n ∈ map date (st_schedule st)) as Hin.
  { rewrite <- Hd. by apply list_elem_of_fmap_2. }
  destruct (decide (n < c)) as [Hlt|Hge].
  - specialize (Hfull n Hlt Hin). rewrite Hrec in Hfull.
    destruct (eqb_zero_inv _ Hfull) as [Hnz Hoz].
    split_and!; [done|lia|lia|done].
  - assert (n = c) as -> by lia. rewrite Hrec in Hf. rewrite <- Hf.
    split_and!; [done|lia|lia|]. intros m Hm. rewrite Hd in Hm.
    apply Day_inj in Hm. lia.
Qed.
End HoursInvariant.

(** With no hours in a day, nothing is ever allocated: the call does not
    return. *)
Lemma allocatePhase_no_hours host fuel wd hoursPerDay start taskMap topo out :
  le0 hoursPerDay = true →
  NoDup (map title taskMap) → taskMap ≠ [] →
  topo ≡ₚ map title taskMap → Prec taskMap topo →
  allocatePhase host fuel wd hoursPerDay start taskMap topo ≠ Returned out.
Proof.
  intros Hle Hnd Hne Hperm Hprec Hrun.
  destruct (allocatePhase_invariant host fuel wd hoursPerDay taskMap start
              (λ seen _ free sched _,
                 seen = [] ∧ free = hoursPerDay ∧ sched = [])
              (λ _ _ _ _ free sched _, free = hoursPerDay ∧ sched = []))
    with (topo := topo) (out := out)
    as (_ & c & st & _ & _ & _ & _ & Hnil & _);
    [| | | | | | |done..|].
  - intros seen ttl c c' rem st _ _ _ _ _ (_ & Hs). done.
  - intros seen ttl c c' rem st _ _ _ Hfree _ _ (Hf & _). congruence.
  - intros seen ttl c rem st _ _ _ Hfree _ (Hf & _). congruence.
  - intros seen ttl c st _ _ _ _ (_ & ? & ?). done.
  - intros c c' free warns _ _ _. done.
  - intros seen ttl c rem st _ _ _ Hwalk (_ & Hs). exfalso.
    destruct (wi_present _ _ Hwalk ttl) as (r & Hr & _).
    + rewrite elem_of_app, list_elem_of_singleton. by right.
    + rewrite Hs in Hr. by apply elem_of_nil in Hr.
  - intros s c _ _. done.
  - rewrite Hnil in Hperm. apply Permutation_nil in Hperm. by destruct taskMap.
Qed.

Lemma Forall2_nonempty {A B} (R : A → B → Prop) l k :
  Forall2 R l k → l ≠ [] → k ≠ [].
Proof. by destruct 1. Qed.

Lemma finite_hours x :
  (x <? infinity)%float = true → le0 x = false →
  is_nan x = false ∧ (0 < ord x < ordInf)%Z.
Proof.
  intros Hlt Hle.
  assert (is_nan x = false) as Hn.
  { destruct (is_nan x) eqn:Hn; [|done].
    rewrite ltb_nan in Hlt; [done|by left]. }
  split; [done|]. rewrite ltb_ord in Hlt by done.
  apply Z.ltb_lt in Hlt. rewrite ord_infinity in Hlt.
  pose proof (le0_false _ Hle Hn). lia.
Qed.

(** The hours of a successful call, when [workHoursPerDay] is a number below
    [Infinity]. *)
Lemma scheduleTasks_hours host fuel inp out :
  (default 8%float (workHoursPerDay inp) <? infinity)%float = true →
  scheduleTasks host fuel inp = Returned out →
  ∃ ts tm c st,
    tasks inp = Some ts
    ∧ Forall2 (normalizes host) ts tm ∧ NoDup (map title tm)
    ∧ recommendedOrder out ≡ₚ map title tm
    ∧ finitePositive (default 8%float (workHoursPerDay inp))
    ∧ WalkBase (default defaultWorkDays (workDays inp))
        (recommendedOrder out) c st
    ∧ st_schedule st = schedule out ∧ st_warnings st = warnings out
    ∧ Hours (default 8%float (workHoursPerDay inp)) c (freeHoursToday st)
        (schedule out)
    ∧ Placed tm (recommendedOrder out) (schedule out).
Proof.
  intros Hfin Hrun.
  destruct (scheduleTasks_phases _ _ _ _ Hrun)
    as (ts & tm & Hts & Hne & Hall & Hnd & Hdeps & Hperm & Hprec & Hseq
        & Hphase).
  destruct (le0 (default 8%float (workHoursPerDay inp))) eqn:Hle.
  { destruct (allocatePhase_no_hours _ _ _ _ _ _ _ out Hle Hnd
                (Forall2_nonempty _ _ _ Hall Hne) Hperm Hprec Hphase). }
  destruct (finite_hours _ Hfin Hle) as [Hn Ho].
  destruct (allocatePhase_hours _ _ Hn Ho _ _ _ _ _ _ Hnd Hperm Hprec Hphase)
    as (c & st & Hbase & Hs & Hw & Hh & Hp).
  exists ts, tm, c, st. split_and!; try done.
  by apply finitePositive_ord.
Qed.

(** ** Termination *)




Section Termination.
Local Open Scope Z_scope.
Variable host : Host.
Variable fuel0 : nat.
Variable wd : list string.
Variable hoursPerDay : float.
Variable taskMap : list Task.

Hypothesis hpd_nan : is_nan hoursPerDay = false.
Hypothesis hpd_ord : 0 < ord hoursPerDay < ordInf.
Hypothesis some_workday : ∃ w, w ∈ WEEKDAY_NAME ∧ w ∈ wd.
Hypothesis fuel_week : (7 <= fuel0)%nat.







Variable remaining : gmap string float.


End Termination.


Lemma registry_returned host ts tm :
  registry host ts [] = Returned tm →
  Forall2 (normalizes host) ts tm ∧ NoDup (map title tm).
Proof.
  intros Hreg. pose proof (registry_spec host ts []) as Hspec.
  rewrite Hreg in Hspec. by destruct Hspec as (new & -> & ? & ? & _).
Qed.



(** * Properties of [scheduleTasks] *)

(** A successful call puts every dependency in front of its dependent. *)
Lemma dependency_precedes host fuel inp out ts dep ttl :
  scheduleTasks host fuel inp = Returned out →
  tasks inp = Some ts →
  depEdge ts dep ttl → precedes (recommendedOrder out) dep ttl.
Proof.
  intros Hrun Hts Hedge.
  destruct (scheduleTasks_phases _ _ _ _ Hrun)
    as (ts' & tm & Hts' & _ & Hall & Hnd & _ & _ & _ & Hseq & _).
  rewrite Hts in Hts'. injection Hts' as <-.
  destruct (sequence_returned host tm Hnd (λ _, True) (λ _ _, True)
              ltac:(done) ltac:(done) fuel _ Hseq)
    as (Hperm & Hnd' & Hprec & _).
  apply (depEdge_edge host ts tm dep ttl Hall Hnd) in Hedge.
  apply (order_acyclic tm _ Hperm Hnd' Hprec). by apply tc_once.
Qed.

(** C1: when [scheduleTasks] succeeds, [recommendedOrder] is a permutation of
    all the task titles, and for every dependency edge (dep, title) the
    dependency comes before the dependent in it. *)
Theorem recommendedOrder_topological host fuel inp out ts :
  scheduleTasks host fuel inp = Returned out →
  tasks inp = Some ts →
  map Some (recommendedOrder out) ≡ₚ map raw_title ts
  ∧ ∀ dep ttl, depEdge ts dep ttl → precedes (recommendedOrder out) dep ttl.
Proof.
  intros Hrun Hts. split.
  - destruct (scheduleTasks_phases _ _ _ _ Hrun)
      as (ts' & tm & Hts' & _ & Hall & Hnd & _ & Hperm & _).
    rewrite Hts in Hts'. injection Hts' as <-.
    rewrite (normalizes_titles host _ _ Hall).
    rewrite Hperm. by rewrite map_map.
  - intros dep ttl. by apply (dependency_precedes host fuel inp).
Qed.

Lemma recommendedOrder_topological_witness :
  scheduleTasks codeHost 20 exampleChain = Returned exampleChainOutput
  ∧ map Some (recommendedOrder exampleChainOutput)
      ≡ₚ map raw_title [mkRaw "A" 8 "2030-01-10" [];
                        mkRaw "B" 4 "2024-01-10" ["A"]]
  ∧ ∀ dep ttl,
      depEdge [mkRaw "A" 8 "2030-01-10" []; mkRaw "B" 4 "2024-01-10" ["A"]]
        dep ttl →
      precedes (recommendedOrder exampleChainOutput) dep ttl.
Proof.
  split; [vm_compute; reflexivity|].
  apply (recommendedOrder_topological codeHost 20 exampleChain);
    vm_compute; reflexivity.
Defined.

(** ** Hours *)

(** C3, as stated, fails: one hour at 0.3 hours a day is allocated as 0.3,
    0.3, 0.3 and 0.09999999999999998, each a rounded difference.  Their sum
    is not 1, neither as an exact sum nor added up as doubles.  And when
    [workHoursPerDay] is [Infinity] (1e999 in JSON), the one hour of "B" is
    allocated as [NaN] hours, from which no count gives back 1. *)
Lemma allocated_hours_not_exact :
  scheduleTasks codeHost 20 exampleThirds = Returned exampleThirdsOutput
  ∧ ¬ (hoursFor "A" (schedule exampleThirdsOutput) == toQ 1)%Q
  ∧ (floatSum (hoursGiven "A" (schedule exampleThirdsOutput)) =? 1)%float
    = false
  ∧ scheduleTasks codeHost 20 exampleInfinity = Returned exampleInfinityOutput
  ∧ hoursGiven "B" (schedule exampleInfinityOutput) = [nan]
  ∧ (countDown 1 (hoursGiven "B" (schedule exampleInfinityOutput)) =? 0)%float
    = false.
Proof.
  split_and!; try (vm_compute; reflexivity).
  vm_compute. discriminate.
Qed.

(** C3, amended: when [scheduleTasks] succeeds with a [workHoursPerDay]
    below [Infinity], the allocations of a task, taken one after the other
    from its [estimatedHours] as the code takes them, leave exactly zero. *)
Theorem allocated_hours_count_down host fuel inp out ts raw ttl h :
  (default 8%float (workHoursPerDay inp) <? infinity)%float = true →
  scheduleTasks host fuel inp = Returned out →
  tasks inp = Some ts →
  raw ∈ ts → raw_title raw = Some ttl → raw_estimatedHours raw = Some h →
  (countDown h (hoursGiven ttl (schedule out)) =? 0)%float = true.
Proof.
  intros Hfin Hrun Hts Hraw Httl Hh.
  destruct (scheduleTasks_hours _ _ _ _ Hfin Hrun)
    as (ts' & tm & c & st & Hts' & Hall & Hnd & Hperm & _ & _ & _ & _ & _
        & Hplaced).
  rewrite Hts in Hts'. injection Hts' as <-.
  destruct (normalizes_getTask host ts tm raw ttl Hall Hnd Hraw Httl)
    as [(_ & _ & Hh' & _) Hin].
  rewrite Hh in Hh'. injection Hh' as ->.
  apply Hplaced. by rewrite Hperm.
Qed.

Lemma allocated_hours_count_down_witness :
  scheduleTasks codeHost 20 exampleThirds = Returned exampleThirdsOutput
  ∧ (countDown 1 (hoursGiven "A" (schedule exampleThirdsOutput)) =? 0)%float
    = true.
Proof.
  split; [vm_compute; reflexivity|].
  apply (allocated_hours_count_down codeHost 20 exampleThirds
           exampleThirdsOutput
           [mkRaw "A" 1 "2024-01-30" []] (mkRaw "A" 1 "2024-01-30" []) "A" 1);
    [reflexivity|vm_compute; reflexivity|reflexivity|left|reflexivity
    |reflexivity].
Defined.

(** C6, as stated, fails: 0.1, 0.1 and 7.5 hours at 7.5 hours a day put
    0.1, 0.1 and 7.300000000000001 hours on the first day, which is more
    than 7.5, both as an exact sum and added up as doubles.  And when
    [workHoursPerDay] is [Infinity] (1e999 in JSON), a day can carry [NaN]
    hours, which are not at most [workHoursPerDay], however they are
    counted. *)
Lemma daily_hours_exceeded :
  scheduleTasks codeHost 20 exampleTenths = Returned exampleTenthsOutput
  ∧ (toQ 7.5 < hoursOn (Day 19730) (schedule exampleTenthsOutput))%Q
  ∧ (7.5 <? floatSum (hoursOnDay (Day 19730) (schedule exampleTenthsOutput)))
      %float = true
  ∧ scheduleTasks codeHost 20 exampleInfinity = Returned exampleInfinityOutput
  ∧ hoursOnDay (Day 19730) (schedule exampleInfinityOutput) = [infinity; nan]
  ∧ (floatSum (hoursOnDay (Day 19730) (schedule exampleInfinityOutput))
       <=? infinity)%float = false
  ∧ (0 <=? countDown infinity
             (hoursOnDay (Day 19730) (schedule exampleInfinityOutput)))%float
    = false.
Proof.
  split_and!; vm_compute; reflexivity.
Qed.

(** C6, amended: when [scheduleTasks] succeeds with a [workHoursPerDay]
    below [Infinity], the allocations of a day, taken one after the other
    from [workHoursPerDay] as the code takes them, never go below zero, and
    no allocation is more than [workHoursPerDay]. *)
Theorem daily_hours_bounded host fuel inp out r :
  (default 8%float (workHoursPerDay inp) <? infinity)%float = true →
  scheduleTasks host fuel inp = Returned out →
  r ∈ schedule out →
  (0 <=? countDown (default 8%float (workHoursPerDay inp)) (hoursOf r))%float
  = true
  ∧ ∀ a, a ∈ allocations r →
      (hours a <=? default 8%float (workHoursPerDay inp))%float = true.
Proof.
  intros Hfin Hrun Hr.
  destruct (scheduleTasks_hours _ _ _ _ Hfin Hrun)
    as (ts & tm & c & st & _ & _ & _ & _ & [Hn Ho]%finitePositive_ord
        & Hbase & Hs & _ & Hh & _).
  rewrite <- Hs in Hr, Hh.
  destruct (Hours_record _ _ Ho c st r (wb_alloc _ _ _ _ Hbase) Hh Hr)
    as (Hnr & Hor & _).
  split.
  - rewrite leb_ord by done. apply Z.leb_le. rewrite ord_zero. lia.
  - intros a Ha. destruct (ho_pos _ _ _ _ Hh r a Hr Ha) as [Hpos Hle].
    apply gt0_ord in Hpos as [Hna _].
    rewrite leb_ord by done. by apply Z.leb_le.
Qed.

Lemma daily_hours_bounded_witness :
  scheduleTasks codeHost 20 exampleTenths = Returned exampleTenthsOutput
  ∧ (0 <=? countDown 7.5
             [0x1.999999999999ap-4; 0x1.999999999999ap-4;
              0x1.d333333333334p+2])%float = true
  ∧ ∀ a, a ∈ [mkAlloc "A" 0x1.999999999999ap-4;
              mkAlloc "B" 0x1.999999999999ap-4;
              mkAlloc "C" 0x1.d333333333334p+2] →
      (hours a <=? 7.5)%float = true.
Proof.
  split; [vm_compute; reflexivity|].
  apply (daily_hours_bounded codeHost 20 exampleTenths exampleTenthsOutput
           {| date := Day 19730;
              allocations := [mkAlloc "A" 0x1.999999999999ap-4;
                              mkAlloc "B" 0x1.999999999999ap-4;
                              mkAlloc "C" 0x1.d333333333334p+2] |});
    [reflexivity|vm_compute; reflexivity|left].
Defined.

(** ** Days *)

(** C7: when [scheduleTasks] succeeds, no task has an allocation on a date
    strictly before the finish date of one of its dependencies. *)
Theorem no_allocation_before_dependency host fuel inp out ts dep ttl f r :
  scheduleTasks host fuel inp = Returned out →
  tasks inp = Some ts →
  depEdge ts dep ttl →
  finishDate (schedule out) dep = Some f →
  r ∈ schedule out → mentions ttl r →
  isBefore (date r) f = false.
Proof.
  intros Hrun Hts Hedge Hfin Hr Hm.
  pose proof (dependency_precedes _ _ _ _ _ _ _ Hrun Hts Hedge) as Hprec.
  destruct (scheduleTasks_returned _ _ _ _ Hrun)
    as (_ & tm & c & st & _ & _ & _ & _ & _ & _ & _ & _ & _ & Hbase & Hs & _).
  pose proof (wb_walk _ _ _ _ Hbase) as Hwalk. rewrite Hs in Hwalk.
  unfold finishDate in Hfin.
  destruct (lastDayRecord (schedule out) dep) as [rf|] eqn:Hlast; [|done].
  injection Hfin as <-. apply lastDayRecord_Some in Hlast as [Hrf Hmf].
  by apply (wi_order _ _ Hwalk dep ttl rf r Hprec).
Qed.

Lemma no_allocation_before_dependency_witness :
  scheduleTasks codeHost 20 exampleChain = Returned exampleChainOutput
  ∧ isBefore (Day 19731) (Day 19730) = false.
Proof.
  split; [vm_compute; reflexivity|].
  apply (no_allocation_before_dependency codeHost 20 exampleChain
           exampleChainOutput
           [mkRaw "A" 8 "2030-01-10" []; mkRaw "B" 4 "2024-01-10" ["A"]]
           "A" "B" (Day 19730)
           {| date := Day 19731; allocations := [mkAlloc "B" 4] |});
    [vm_compute; reflexivity|reflexivity| |vm_compute; reflexivity| |].
  - exists (mkRaw "B" 4 "2024-01-10" ["A"]).
    split; [right; left|]. split; [reflexivity|simpl; left].
  - right. left.
  - exists (mkAlloc "B" 4). split; [left|reflexivity].
Defined.

(** A dependent can share the day on which its dependency finishes: with
    four hours each, both tasks land on the first day. *)
Example dependent_same_day :
  scheduleTasks codeHost 20
    (mkInput [mkRaw "A" 4 "2030-01-10" []; mkRaw "B" 4 "2030-01-10" ["A"]]
       8 defaultWorkDays "2024-01-08")
  = Returned
      {| recommendedOrder := ["A"; "B"];
         schedule := [ {| date := Day 19730;
                          allocations := [mkAlloc "A" 4; mkAlloc "B" 4] |} ];
         warnings := [] |}.
Proof. vm_compute. reflexivity. Qed.

(** C8: when [scheduleTasks] succeeds, every date of the schedule falls on
    a weekday whose name is in the configured [workDays]. *)
Theorem allocations_on_workdays host fuel inp out r :
  scheduleTasks host fuel inp = Returned out →
  r ∈ schedule out →
  ∃ name, weekdayName (date r) = Some name
          ∧ name ∈ default defaultWorkDays (workDays inp).
Proof.
  intros Hrun Hr.
  destruct (scheduleTasks_returned _ _ _ _ Hrun)
    as (_ & tm & c & st & _ & _ & _ & _ & _ & _ & _ & _ & _ & Hbase & Hs & _).
  rewrite <- Hs in Hr.
  destruct (ai_dates _ _ _ (wb_alloc _ _ _ _ Hbase) r Hr) as (n & Hn & _ & Hw).
  rewrite Hn. unfold isWorkday, includes in Hw.
  destruct (weekdayName (Day n)) as [name|]; [|done].
  exists name. split; [done|]. by apply bool_decide_eq_true in Hw.
Qed.

Lemma allocations_on_workdays_witness :
  scheduleTasks codeHost 20 exampleChain = Returned exampleChainOutput
  ∧ ∃ name, weekdayName (Day 19731) = Some name ∧ name ∈ defaultWorkDays.
Proof.
  split; [vm_compute; reflexivity|].
  apply (allocations_on_workdays codeHost 20 exampleChain exampleChainOutput
           {| date := Day 19731; allocations := [mkAlloc "B" 4] |});
    [vm_compute; reflexivity|right; left].
Defined.





(** ** The priority policy *)

Lemma cmp_days host tm a b x y :
  dueDate (getTask tm a) = Time x → dueDate (getTask tm b) = Time y →
  cmp host tm a b
  = if bool_decide (x < y)%Z then (-1)%Z
    else if bool_decide (y < x)%Z then 1%Z
    else if (estimatedHours (getTask tm b) <? estimatedHours (getTask tm a))
              %float then (-1)%Z
    else if (estimatedHours (getTask tm a) <? estimatedHours (getTask tm b))
              %float then 1%Z
    else localeCompare host a b.
Proof. intros Ha Hb. unfold cmp. by rewrite Ha, Hb. Qed.

Lemma cmp_key (strict : bool) host tm a b x y :
  dueDate (getTask tm a) = Time x → dueDate (getTask tm b) = Time y →
  is_nan (estimatedHours (getTask tm a)) = false →
  is_nan (estimatedHours (getTask tm b)) = false →
  (if strict then (cmp host tm a b < 0)%Z else (cmp host tm a b <= 0)%Z)
  ↔ keyBefore strict host x y (estimatedHours (getTask tm a))
      (estimatedHours (getTask tm b)) a b.
Proof.
  intros Ha Hb Hna Hnb. rewrite (cmp_days _ _ _ _ _ _ Ha Hb). unfold keyBefore.
  rewrite !ltb_ord, eqb_ord by done.
  set (ha := ord (estimatedHours (getTask tm a))).
  set (hb := ord (estimatedHours (getTask tm b))).
  rewrite Z.ltb_lt, Z.eqb_eq.
  case_bool_decide as Hxy.
  { split; [by left|]. intros _. destruct strict; lia. }
  case_bool_decide as Hyx.
  { split; [destruct strict; lia|]. intros [?|[[? _]|[? _]]]; lia. }
  assert (x = y) as -> by lia.
  destruct (Z.ltb_spec hb ha) as [H1|H1].
  { split; [by right; left|]. intros _. destruct strict; lia. }
  destruct (Z.ltb_spec ha hb) as [H2|H2].
  { split; [destruct strict; lia|].
    intros [?|[[_ ?]|[_ [? _]]]]; lia. }
  split.
  - intros Hlc. right. right. split_and!; [done|lia|done].
  - intros [?|[[_ ?]|[_ [_ ?]]]]; [lia|lia|done].
Qed.

Section Priority.
Variable host : Host.
Variable tm : list Task.
Hypothesis collation : Collation host.
Hypothesis dates_valid : ∀ s, ∃ t, dueDate (getTask tm s) = Time t.
Hypothesis hours_numbers : ∀ s, is_nan (estimatedHours (getTask tm s)) = false.

Lemma cmp_total a b :
  ranked (cmp host tm) a b ∨ ranked (cmp host tm) b a.
Proof.
  destruct (dates_valid a) as [x Hx], (dates_valid b) as [y Hy].
  pose proof (hours_numbers a) as Hna. pose proof (hours_numbers b) as Hnb.
  unfold ranked.
  rewrite (cmp_key false host tm a b x y Hx Hy Hna Hnb).
  rewrite (cmp_key false host tm b a y x Hy Hx Hnb Hna).
  unfold keyBefore. rewrite !ltb_ord, !eqb_ord by done.
  set (ha := ord (estimatedHours (getTask tm a))).
  set (hb := ord (estimatedHours (getTask tm b))).
  rewrite !Z.ltb_lt, !Z.eqb_eq.
  destruct (Z.lt_trichotomy x y) as [?|[->|?]];
    [left; by left| |right; by left].
  destruct (Z.lt_trichotomy ha hb) as [?|[Heq|?]].
  - right. right. by left.
  - destruct (lc_total _ collation a b).
    + left. right. right. done.
    + right. right. right. split_and!; [done|by symmetry|done].
  - left. right. by left.
Qed.

Lemma cmp_trans a b d :
  ranked (cmp host tm) a b → ranked (cmp host tm) b d →
  ranked (cmp host tm) a d.
Proof.
  destruct (dates_valid a) as [x Hx], (dates_valid b) as [y Hy],
    (dates_valid d) as [z Hz].
  pose proof (hours_numbers a) as Hna. pose proof (hours_numbers b) as Hnb.
  pose proof (hours_numbers d) as Hnd.
  unfold ranked.
  rewrite (cmp_key false host tm a b x y Hx Hy Hna Hnb).
  rewrite (cmp_key false host tm b d y z Hy Hz Hnb Hnd).
  rewrite (cmp_key false host tm a d x z Hx Hz Hna Hnd).
  unfold keyBefore. rewrite !ltb_ord, !eqb_ord by done.
  set (ha := ord (estimatedHours (getTask tm a))).
  set (hb := ord (estimatedHours (getTask tm b))).
  set (hd := ord (estimatedHours (getTask tm d))).
  rewrite !Z.ltb_lt, !Z.eqb_eq.
  intros [?|[[-> ?]|[-> [? ?]]]] [?|[[-> ?]|[-> [? ?]]]];
    try (left; lia); try (right; left; split; [done|lia]).
  right. right. split_and!; [done|lia|]. by eapply lc_trans.
Qed.

Lemma cmp_antisym a b :
  (cmp host tm a b < 0)%Z → ¬ ranked (cmp host tm) b a.
Proof.
  destruct (dates_valid a) as [x Hx], (dates_valid b) as [y Hy].
  pose proof (hours_numbers a) as Hna. pose proof (hours_numbers b) as Hnb.
  unfold ranked.
  rewrite (cmp_key true host tm a b x y Hx Hy Hna Hnb).
  rewrite (cmp_key false host tm b a y x Hy Hx Hnb Hna).
  unfold keyBefore. rewrite !ltb_ord, !eqb_ord by done.
  set (ha := ord (estimatedHours (getTask tm a))).
  set (hb := ord (estimatedHours (getTask tm b))).
  rewrite !Z.ltb_lt, !Z.eqb_eq.
  intros [?|[[-> ?]|[-> [? Hlt]]]] [?|[[? ?]|[? [? ?]]]];
    try lia.
  apply (lc_antisym _ collation) in Hlt. lia.
Qed.

Lemma sorted_cons a l :
  StronglySorted (ranked (cmp host tm)) (a :: l) →
  StronglySorted (ranked (cmp host tm)) l
  ∧ ∀ b, b ∈ l → ranked (cmp host tm) a b.
Proof.
  intros [Hs Hall]%StronglySorted_inv. split; [done|].
  by rewrite Forall_forall in Hall.
Qed.

(** Whenever a task is emitted, no task that is ready at that moment
    ranks strictly before it. *)
Lemma sequence_priority fuel topo :
  NoDup (map title tm) →
  sequence host fuel tm = Returned topo →
  Hist tm (ranked (cmp host tm)) topo.
Proof.
  intros Hnd Hseq.
  by destruct (sequence_returned host tm Hnd
                 (StronglySorted (ranked (cmp host tm)))
                 (ranked (cmp host tm)) sorted_cons
                 (sort_sorted _ cmp_total cmp_trans) fuel topo Hseq)
    as (_ & _ & _ & ?).
Qed.
End Priority.


Lemma getTask_default tm s :
  s ∉ map title tm →
  getTask tm s = {| title := s; estimatedHours := 0; dueDate := epoch;
                    dependencies := [] |}.
Proof.
  intros Hout. unfold getTask, lookupTask.
  destruct (List.find _ tm) as [t|] eqn:Hf; [|done].
  apply List.find_some in Hf as [Hin Ht%bool_decide_eq_true].
  destruct Hout. rewrite <- Ht. apply list_elem_of_fmap_2.
  by apply list_elem_of_In.
Qed.

Lemma normalizes_dates host ts tm :
  Forall2 (normalizes host) ts tm → ∀ s, ∃ t, dueDate (getTask tm s) = Time t.
Proof.
  intros Hall s. destruct (decide (s ∈ map title tm)) as [Hin|Hout].
  - apply getTask_elem, list_elem_of_lookup in Hin as [i Hi].
    destruct (Forall2_lookup_r _ _ _ _ _ Hall Hi) as (raw & _ & Hn).
    destruct Hn as (_ & _ & _ & _ & Hd & _).
    apply parseDate_Some in Hd as [_ Hv].
    destruct (dueDate (getTask tm s)) as [t|]; [by exists t|done].
  - rewrite (getTask_default _ _ Hout). by eexists.
Qed.

Lemma positive_hours_numbers tm :
  (∀ t, t ∈ tm → gt0 (estimatedHours t) = true) →
  ∀ s, is_nan (estimatedHours (getTask tm s)) = false.
Proof.
  intros Hpos s. destruct (decide (s ∈ map title tm)) as [Hin|Hout].
  - apply getTask_elem, Hpos, gt0_ord in Hin. by destruct Hin.
  - by rewrite (getTask_default _ _ Hout).
Qed.



Lemma string_gt_lt a d : String.compare a d = Gt → String_as_OT.lt d a.
Proof.
  intros H. apply String_as_OT.cmp_lt.
  change String_as_OT.cmp with String.compare.
  by rewrite String.compare_antisym, H.
Qed.

Lemma string_lt_irrefl a : ¬ String_as_OT.lt a a.
Proof. intros H. by apply String_as_OT.lt_not_eq in H. Qed.

Lemma string_le_trans a b d :
  String.compare a b ≠ Gt → String.compare b d ≠ Gt →
  String.compare a d ≠ Gt.
Proof.
  intros H1 H2 H3%string_gt_lt.
  change String.compare with String_as_OT.cmp in *.
  destruct (String_as_OT.cmp a b) eqn:E1; [| |done];
    destruct (String_as_OT.cmp b d) eqn:E2; try done;
    try apply String_as_OT.cmp_eq in E1; try apply String_as_OT.cmp_eq in E2;
    try apply String_as_OT.cmp_lt in E1; try apply String_as_OT.cmp_lt in E2;
    subst.
  - by apply string_lt_irrefl in H3.
  - by apply (string_lt_irrefl b), (String_as_OT.lt_trans _ d).
  - by apply (string_lt_irrefl a), (String_as_OT.lt_trans _ d).
  - apply (string_lt_irrefl a), (String_as_OT.lt_trans _ b); [done|].
    by apply (String_as_OT.lt_trans _ d).
Qed.

Lemma codeHost_collation : Collation codeHost.
Proof.
  split; simpl.
  - intros a b. rewrite (String.compare_antisym a b).
    destruct (String.compare b a); simpl; lia.
  - intros a b d Hab Hbd.
    pose proof (string_le_trans a b d) as Ht.
    destruct (String.compare a b), (String.compare b d),
      (String.compare a d); try lia; by destruct Ht.
  - intros a b. rewrite (String.compare_antisym b a).
    destruct (String.compare a b); simpl; lia.
Qed.


(** ** Refusal *)

Lemma normalizes_not_bad host raw t :
  normalizes host raw t → ¬ badDescriptor host raw.
Proof.
  intros (Ht & Hne & Hh & Hpos & Hd & _) [[Hb|Hb]|[[Hb|Hb]|Hb]].
  - congruence.
  - rewrite Ht in Hb. injection Hb as Hb. done.
  - congruence.
  - destruct Hb as (h & Hh' & Hle). rewrite Hh in Hh'. injection Hh' as <-.
    congruence.
  - congruence.
Qed.

Lemma normalizes_raw_nodup host ts tm :
  Forall2 (normalizes host) ts tm → NoDup (map title tm) →
  NoDup (map raw_title ts).
Proof.
  intros Hall Hnd. rewrite (normalizes_titles host _ _ Hall).
  rewrite <- (map_map title Some).
  change (NoDup (Some <$> map title tm)). by apply (NoDup_fmap_2 Some).
Qed.

Lemma normalizes_known host ts tm d :
  Forall2 (normalizes host) ts tm →
  Some d ∈ map raw_title ts ↔ d ∈ map title tm.
Proof.
  intros Hall. rewrite (normalizes_titles host _ _ Hall).
  rewrite <- (map_map title Some).
  change (Some d ∈ Some <$> map title tm ↔ d ∈ map title tm).
  split.
  - intros (x & [= <-] & Hx)%list_elem_of_fmap. done.
  - apply (list_elem_of_fmap_2 Some).
Qed.

Lemma registry_threw host ts e :
  registry host ts [] = Threw e →
  (∃ raw, raw ∈ ts ∧ badDescriptor host raw) ∨ ¬ NoDup (map raw_title ts).
Proof.
  intros Hreg. pose proof (registry_spec host ts []) as Hspec.
  rewrite Hreg in Hspec.
  destruct Hspec as [?|[(raw & s & _ & _ & Hin)|?]]; [by left| |by right].
  by apply elem_of_nil in Hin.
Qed.

Lemma checkAllDeps_returned host ts tm u :
  Forall2 (normalizes host) ts tm → checkAllDeps tm tm = Returned u →
  ¬ badDependency ts.
Proof.
  intros Hall Hchk (raw & d & Hraw & Hd & Hbad).
  pose proof (checkAllDeps_spec tm tm) as Hspec. rewrite Hchk in Hspec.
  apply list_elem_of_lookup in Hraw as [i Hi].
  destruct (Forall2_lookup_l _ _ _ _ _ Hall Hi) as (t & Ht & Hn).
  apply list_elem_of_lookup_2 in Ht.
  destruct Hn as (Htitle & _ & _ & _ & _ & Hdeps).
  rewrite <- Hdeps in Hd. destruct (Hspec t d Ht Hd) as [Hknown Hself].
  destruct Hbad as [Hbad|Hbad].
  - apply Hbad. by apply (normalizes_known host ts tm d Hall).
  - rewrite Htitle in Hbad. congruence.
Qed.

Lemma checkAllDeps_threw host ts tm e :
  Forall2 (normalizes host) ts tm → checkAllDeps tm tm = Threw e →
  badDependency ts.
Proof.
  intros Hall Hchk.
  pose proof (checkAllDeps_spec tm tm) as Hspec. rewrite Hchk in Hspec.
  destruct Hspec as (t & d & Ht & Hd & Hbad).
  apply list_elem_of_lookup in Ht as [i Hi].
  destruct (Forall2_lookup_r _ _ _ _ _ Hall Hi) as (raw & Hraw & Hn).
  apply list_elem_of_lookup_2 in Hraw.
  destruct Hn as (Htitle & _ & _ & _ & _ & Hdeps).
  exists raw, d. split_and!; [done|by rewrite <- Hdeps|].
  destruct Hbad as [Hbad| ->]; [left|by right].
  by rewrite (normalizes_known host ts tm d Hall).
Qed.

Lemma cycle_transfer host ts tm t :
  Forall2 (normalizes host) ts tm → NoDup (map title tm) →
  tc (depEdge ts) t t ↔ tc (edge tm) t t.
Proof.
  intros Hall Hnd. apply tc_iff. intros x y. by apply (depEdge_edge host).
Qed.

(** What the registry and the sequencer refuse. *)
Lemma prepare_threw host fuel ts e :
  prepare host fuel ts = Threw e →
  (∃ raw, raw ∈ ts ∧ badDescriptor host raw)
  ∨ ¬ NoDup (map raw_title ts)
  ∨ badDependency ts
  ∨ ∃ t, tc (depEdge ts) t t.
Proof.
  unfold prepare.
  destruct (registry host ts []) as [tm|e'|] eqn:Hreg;
    cbn [mbind Outcome_bind]; [| |done].
  2: { intros _. apply registry_threw in Hreg as [?|?]; tauto. }
  apply registry_returned in Hreg as [Hall Hnd].
  destruct (checkAllDeps tm tm) as [[]|e'|] eqn:Hchk;
    cbn [mbind Outcome_bind]; [| |done].
  2: { intros _. right. right. left. by eapply checkAllDeps_threw. }
  destruct (sequence host fuel tm) as [topo|e'|] eqn:Hseq;
    cbn [mbind Outcome_bind]; [done| |done].
  intros _. right. right. right.
  destruct (sequence_threw host tm Hnd (λ _, True) (λ _ _, True)
              ltac:(done) ltac:(done) fuel e' Hseq)
    as (_ & res & Hres & Hsub & Hlen & Hready).
  pose proof (checkAllDeps_spec tm tm) as Hspec. rewrite Hchk in Hspec.
  destruct (stuck_cycle tm res Hnd) as [t Ht]; try done.
  { intros t d Ht Hd. by destruct (Hspec t d Ht Hd). }
  exists t. by apply (cycle_transfer host ts tm t Hall Hnd).
Qed.

(** With one unit of fuel per task, a task list with a fault is refused. *)
Lemma prepare_refuses host fuel ts :
  (length ts <= fuel)%nat →
  (∃ raw, raw ∈ ts ∧ badDescriptor host raw)
  ∨ ¬ NoDup (map raw_title ts)
  ∨ badDependency ts
  ∨ (∃ t, tc (depEdge ts) t t) →
  ∃ e, prepare host fuel ts = Threw e.
Proof.
  intros Hfuel Hrej. unfold prepare.
  pose proof (registry_spec host ts []) as Hspec.
  destruct (registry host ts []) as [tm|e|] eqn:Hreg;
    cbn [mbind Outcome_bind]; [|by eexists|done].
  clear Hspec. apply registry_returned in Hreg as [Hall Hnd].
  pose proof (checkAllDeps_spec tm tm) as Hspec.
  destruct (checkAllDeps tm tm) as [[]|e|] eqn:Hchk;
    cbn [mbind Outcome_bind]; [|by eexists|done].
  pose proof (sequence_total host tm Hnd (λ _, True) (λ _ _, True)
                ltac:(done) ltac:(done) fuel) as Htotal.
  rewrite <- (Forall2_length _ _ _ Hall) in Htotal. specialize (Htotal Hfuel).
  destruct (sequence host fuel tm) as [topo|e|] eqn:Hseq;
    cbn [mbind Outcome_bind]; [|by eexists|done].
  exfalso. destruct Hrej as [(raw & Hraw & Hbad)|[Hdup|[Hdep|[t Ht]]]].
  - apply list_elem_of_lookup in Hraw as [i Hi].
    destruct (Forall2_lookup_l _ _ _ _ _ Hall Hi) as (t & _ & Hn).
    by apply (normalizes_not_bad host raw t).
  - apply Hdup. by apply (normalizes_raw_nodup host ts tm).
  - by apply (checkAllDeps_returned host ts tm () Hall Hchk).
  - apply (cycle_transfer host ts tm t Hall Hnd) in Ht.
    destruct (sequence_returned host tm Hnd (λ _, True) (λ _ _, True)
                ltac:(done) ltac:(done) fuel topo Hseq)
      as (Hperm & Hnd' & Hprec & _).
    apply (precedes_irrefl topo t Hnd').
    by apply (order_acyclic tm topo Hperm Hnd' Hprec).
Qed.

(** ** What the allocator throws *)

Lemma allocate_no_throw fuel0 wd hoursPerDay tm ttl e : ∀ fuel rem st,
  allocate fuel0 fuel wd hoursPerDay tm ttl rem st ≠ Threw e.
Proof.
  induction fuel as [|fuel IH]; intros rem st.
  { rewrite allocate_O. by destruct (gt0 rem). }
  rewrite allocate_S. destruct (gt0 rem); [|done]. cbv zeta.
  set (st1 := if isAfter _ _ && _ then _ else st). clearbody st1.
  destruct (le0 (freeHoursToday st1)).
  - destruct (advanceToNextWorkday fuel0 wd hoursPerDay st1) as [st2|e'|]
      eqn:Ha; cbn [mbind Outcome_bind]; [apply IH| |done].
    by apply advance_no_throw in Ha.
  - destruct (gt0 (rem - Math_min (freeHoursToday st1) rem)); [|apply IH].
    destruct (advanceToNextWorkday fuel0 wd hoursPerDay _) as [st3|e'|]
      eqn:Ha; cbn [mbind Outcome_bind]; [apply IH| |done].
    by apply advance_no_throw in Ha.
Qed.

Lemma advance_schedule fuel0 wd hoursPerDay st st' :
  advanceToNextWorkday fuel0 wd hoursPerDay st = Returned st' →
  st_schedule st' = st_schedule st ∧ finishedAt st' = finishedAt st.
Proof.
  unfold advanceToNextWorkday.
  destruct (runNextWorkday fuel0 (addDay (currentDay st)) wd);
    cbn [mbind Outcome_bind]; [|done..]. by intros [= <-].
Qed.

(** A loop that had hours to place has placed some. *)
Lemma allocate_mentions fuel0 wd hoursPerDay tm ttl : ∀ fuel rem st st',
  allocate fuel0 fuel wd hoursPerDay tm ttl rem st = Returned st' →
  gt0 rem = true ∨ (∃ r, r ∈ st_schedule st ∧ mentions ttl r) →
  ∃ r, r ∈ st_schedule st' ∧ mentions ttl r.
Proof.
  induction fuel as [|fuel IH]; intros rem st st'.
  { rewrite allocate_O. destruct (gt0 rem); [done|].
    intros [= <-] [?|?]; done. }
  rewrite allocate_S. destruct (gt0 rem) eqn:Hpos;
    [|intros [= <-] [?|?]; done].
  cbv zeta. set (st1 := if isAfter _ _ && _ then _ else st).
  assert (st_schedule st1 = st_schedule st) as Hs1.
  { unfold st1. by destruct (isAfter _ _ && _). }
  clearbody st1. intros Hrun _. revert Hrun.
  destruct (le0 (freeHoursToday st1)).
  - destruct (advanceToNextWorkday fuel0 wd hoursPerDay st1) as [st2|e'|]
      eqn:Ha; cbn [mbind Outcome_bind]; [|done..].
    intros Hrun. apply (IH _ _ _ Hrun). by left.
  - destruct (addAllocation_new (st_schedule st1)
                (startOfDay (currentDay st1)) ttl
                (Math_min (freeHoursToday st1) rem)) as (r & Hr & _ & Ha).
    assert (mentions ttl r) as Hm by (eexists; split; [exact Ha|done]).
    destruct (gt0 (rem - Math_min (freeHoursToday st1) rem)).
    + destruct (advanceToNextWorkday fuel0 wd hoursPerDay _) as [st3|e'|]
        eqn:Hadv; cbn [mbind Outcome_bind]; [|done..].
      apply advance_schedule in Hadv as [Hs3 _]. simpl in Hs3.
      intros Hrun. apply (IH _ _ _ Hrun). right. exists r. by rewrite Hs3.
    + intros Hrun. apply (IH _ _ _ Hrun). right. by exists r.
Qed.

(** The allocation of a task throws only where line 177 finds no record
    for it, and that only when the task had no hours to place. *)
Lemma scheduleTask_threw host fuel wd hoursPerDay tm remaining ttl st e :
  scheduleTask host fuel wd hoursPerDay tm remaining ttl st = Threw e →
  e = TypeError ∧ gt0 (getOr 0%float remaining ttl) = false.
Proof.
  unfold scheduleTask.
  set (jump := if isAfter _ _ then _ else _).
  assert (∀ e', jump ≠ Threw e') as Hjump.
  { intros e'. unfold jump. destruct (isAfter _ _); [|done].
    destruct (runNextWorkday fuel _ wd) as [d|e0|] eqn:Hn;
      cbn [mbind Outcome_bind]; [done| |done].
    by apply runNextWorkday_no_throw in Hn. }
  destruct jump as [st1|e'|]; cbn [mbind Outcome_bind];
    [|by destruct (Hjump e')|done].
  destruct (allocate fuel fuel wd hoursPerDay tm ttl _ st1) as [st2|e'|]
    eqn:Ha; cbn [mbind Outcome_bind]; [| |done].
  2: { by apply allocate_no_throw in Ha. }
  destruct (lastDayRecord (st_schedule st2) ttl) as [r|] eqn:Hl; [done|].
  intros [= <-]. split; [done|].
  destruct (gt0 (getOr 0%float remaining ttl)) eqn:Hpos; [|done].
  destruct (allocate_mentions _ _ _ _ _ _ _ _ _ Ha ltac:(by left))
    as (r & Hr & Hm).
  destruct (lastDayRecord_found _ _ _ Hr Hm) as [r' Hr']. congruence.
Qed.

Lemma scheduleAll_threw host fuel wd hoursPerDay tm remaining e :
  ∀ order st,
  scheduleAll host fuel wd hoursPerDay tm remaining order st = Threw e →
  e = TypeError ∧ ∃ t, t ∈ order ∧ gt0 (getOr 0%float remaining t) = false.
Proof.
  induction order as [|ttl order IH]; intros st; simpl; [done|].
  destruct (scheduleTask host fuel wd hoursPerDay tm remaining ttl st)
    as [st1|e'|] eqn:Hone; cbn [mbind Outcome_bind]; [| |done].
  - intros (-> & t & Ht & Hpos)%IH. split; [done|]. exists t.
    split; [by right|done].
  - intros [= ->]. apply scheduleTask_threw in Hone as [-> Hpos].
    split; [done|]. exists ttl. split; [left|done].
Qed.

(** A throw comes from the checks of lines 18-89, or it is the [TypeError]
    of line 177 for a task whose hours are not more than zero: as line 22
    lets no hours [<= 0] through, hours that are [NaN]. *)
Lemma scheduleTasks_threw host fuel inp e :
  scheduleTasks host fuel inp = Threw e →
  tasks inp = None ∨ tasks inp = Some []
  ∨ (∃ ts, tasks inp = Some ts ∧ prepare host fuel ts = Threw e)
  ∨ (e = TypeError
     ∧ ∃ ts tm topo t, tasks inp = Some ts
         ∧ prepare host fuel ts = Returned (tm, topo)
         ∧ t ∈ tm ∧ is_nan (estimatedHours t) = true).
Proof.
  unfold scheduleTasks. destruct (tasks inp) as [[|raw ts]|]; [tauto| |tauto].
  destruct (prepare host fuel (raw :: ts)) as [[tm topo]|e'|] eqn:Hprep;
    cbn [mbind Outcome_bind]; [| |done].
  2: { intros [= ->]. right. right. left. by exists (raw :: ts). }
  intros Hrun. right. right. right.
  pose proof Hprep as (Hall & Hnd & _ & Hseq)%prepare_returned.
  pose proof (sequence_perm _ _ _ _ Hnd Hseq) as Hperm.
  unfold allocatePhase in Hrun.
  destruct (runNextWorkday fuel _ _) as [cur|e0|] eqn:Hn;
    cbn [mbind Outcome_bind] in Hrun; [| |done].
  2: { by apply runNextWorkday_no_throw in Hn. }
  destruct (scheduleAll _ _ _ _ _ _ _ _) as [st|e0|] eqn:Hwalk;
    cbn [mbind Outcome_bind] in Hrun; [done| |done].
  injection Hrun as ->.
  apply scheduleAll_threw in Hwalk as (-> & t & Ht & Hpos).
  split; [done|]. rewrite Hperm in Ht.
  rewrite buildRemaining_get, bool_decide_eq_true_2 in Hpos by done.
  pose proof (getTask_elem tm t Ht) as Hin.
  exists (raw :: ts), tm, topo, (getTask tm t). split_and!; [done..|].
  apply list_elem_of_lookup in Hin as [i Hi].
  destruct (Forall2_lookup_r _ _ _ _ _ Hall Hi)
    as (raw0 & _ & (_ & _ & _ & Hle & _)).
  destruct (is_nan (estimatedHours (getTask tm t))) eqn:Hnan; [done|].
  pose proof (le0_false _ Hle Hnan) as Hlt.
  assert (gt0 (estimatedHours (getTask tm t)) = true) as Hgt
    by (by apply gt0_ord).
  congruence.
Qed.

(** C4, on the code: the due date "2024-02-30" names no day of the calendar
    and fails strict parsing, yet on every host it is read as 2024-03-01 and
    the call returns a schedule.  And hours that are [NaN] pass the checks of
    the registry and make the allocator throw, after it has allocated the
    tasks before. *)
Theorem dueDate_not_validated :
  strictParse "2024-02-30" = None
  ∧ (∀ host, parseDate host "2024-02-30" = Some (Day 19783))
  ∧ (∀ host,
       scheduleTasks host 20 exampleBadDue
       = Returned {| recommendedOrder := ["A"];
                     schedule := [ {| date := Day 19730;
                                      allocations := [mkAlloc "A" 1] |} ];
                     warnings := [] |})
  ∧ (∃ tm, prepare codeHost 20
             [mkRaw "A" 1 "2024-01-10" []; mkRaw "B" nan "2024-01-11" []]
           = Returned (tm, ["A"; "B"]))
  ∧ scheduleTasks codeHost 20 exampleNaN = Threw TypeError.
Proof.
  split_and!.
  - vm_compute. reflexivity.
  - intros host. vm_compute. reflexivity.
  - intros host. vm_compute. reflexivity.
  - eexists. vm_compute. reflexivity.
  - vm_compute. reflexivity.
Qed.

(** ** The start date *)

(** C5, on the code: the start date "2024/01/08" is not in the fixed
    format, yet no host and no amount of fuel make the call throw.  Where the
    non-strict parser gives up, the search for a workday never ends; where it
    coerces the string, the schedule is built from the coerced day. *)
Theorem startDate_not_validated :
  strictParse "2024/01/08" = None
  ∧ (∀ host fuel,
       (∃ out, scheduleTasks host fuel exampleBadStart = Returned out)
       ∨ scheduleTasks host fuel exampleBadStart = OutOfFuel)
  ∧ (∀ fuel, scheduleTasks codeHost fuel exampleBadStart = OutOfFuel)
  ∧ scheduleTasks coercingHost 20 exampleBadStart
    = Returned {| recommendedOrder := ["A"];
                  schedule := [ {| date := Day 19730;
                                   allocations := [mkAlloc "A" 1] |} ];
                  warnings := [] |}.
Proof.
  assert (∀ host fuel e,
            prepare host fuel [mkRaw "A" 1 "2024-01-30" []] ≠ Threw e)
    as Hprep.
  { intros host fuel e Hp.
    destruct fuel as [|[|fuel]]; vm_compute in Hp; discriminate Hp. }
  assert (∀ host fuel tm topo t,
            prepare host fuel [mkRaw "A" 1 "2024-01-30" []]
            = Returned (tm, topo) →
            t ∈ tm → is_nan (estimatedHours t) = false) as Hnum.
  { intros host fuel tm topo t Hp Ht.
    destruct fuel as [|[|fuel]]; vm_compute in Hp; try discriminate Hp;
      injection Hp as <- _; by apply list_elem_of_singleton in Ht as ->. }
  split_and!.
  - vm_compute. reflexivity.
  - intros host fuel.
    destruct (scheduleTasks host fuel exampleBadStart) as [out|e|] eqn:Hrun;
      [left; by eexists| |by right].
    apply scheduleTasks_threw in Hrun
      as [Hn|[Hn|[(ts & [= <-] & Hp)
                 |(_ & ts & tm & topo & t & [= <-] & Hp & Ht & Hnan)]]];
      [discriminate Hn..| |].
    + by apply Hprep in Hp.
    + by rewrite (Hnum _ _ _ _ _ Hp Ht) in Hnan.
  - intros fuel. unfold scheduleTasks. simpl.
    destruct (prepare codeHost fuel [mkRaw "A" 1 "2024-01-30" []])
      as [[tm topo]|e|] eqn:Hp; cbn [mbind Outcome_bind]; [| |done].
    + unfold allocatePhase, runNextWorkday.
      replace (startOf codeHost (Some "2024/01/08")) with InvalidDate
        by (vm_compute; reflexivity).
      by rewrite nextWorkday_invalid.
    + by apply Hprep in Hp.
  - vm_compute. reflexivity.
Qed.

(** ** Whether the call ends *)






(** ** Determinism *)










(** ** The examples of the specification *)

(** A cyclic dependency set (A needs B, B needs A) yields the cycle error
    and no schedule. *)
Example cycle_is_refused :
  ∀ host fuel, scheduleTasks host fuel exampleCycle = Threw CycleDetected.
Proof. intros host fuel. by destruct fuel. Qed.

(** Ten hours at eight hours a day from Monday 2024-01-08: eight hours on
    Monday, two on Tuesday, no warning. *)
Example ten_hours_split :
  scheduleTasks codeHost 20 exampleSplit
  = Returned
      {| recommendedOrder := ["A"];
         schedule := [ {| date := Day 19730; allocations := [mkAlloc "A" 8] |};
                       {| date := Day 19731; allocations := [mkAlloc "A" 2] |} ];
         warnings := [] |}.
Proof. vm_compute. reflexivity. Qed.

(** B depends on A: A fills the first day, B is allocated on the second. *)
Example dependent_next_day :
  scheduleTasks codeHost 20 exampleChain = Returned exampleChainOutput.
Proof. vm_compute. reflexivity. Qed.

(** From Friday 2024-01-12 the second day of work is Monday 2024-01-15. *)
Example weekend_skipped :
  scheduleTasks codeHost 20 exampleWeekend
  = Returned
      {| recommendedOrder := ["A"];
         schedule := [ {| date := Day 19734; allocations := [mkAlloc "A" 8] |};
                       {| date := Day 19737; allocations := [mkAlloc "A" 2] |} ];
         warnings := [] |}.
Proof. vm_compute. reflexivity. Qed.

(** * Further properties of the code *)

(** ** The first workday *)

(** X3: [nextWorkday] returns the first day on or after [date] whose weekday
    name is in [workDays]; that day is at most six days later. *)
Theorem nextWorkday_first fuel wd n d' :
  nextWorkday fuel (Day n) wd = Some d' →
  ∃ n', d' = Day n' ∧ (n <= n' <= n + 6)%Z ∧ isWorkday wd (Day n')
        ∧ ∀ m, (n <= m < n')%Z → ¬ isWorkday wd (Day m).
Proof.
  intros Hnext. destruct (nextWorkday_minimal _ _ _ _ Hnext) as (n' & -> & Hf).
  pose proof (firstWorkday_week _ _ _ Hf). destruct Hf as (? & ? & ?).
  exists n'. split_and!; done || lia.
Qed.

Lemma nextWorkday_first_witness :
  ∃ n', Day 19737 = Day n' ∧ (19735 <= n' <= 19735 + 6)%Z
        ∧ isWorkday defaultWorkDays (Day n')
        ∧ ∀ m, (19735 <= m < n')%Z → ¬ isWorkday defaultWorkDays (Day m).
Proof.
  apply (nextWorkday_first 7 defaultWorkDays 19735 (Day 19737)).
  vm_compute. reflexivity.
Defined.



(** ** Adding an allocation, as a whole *)

(** X17: [addAllocation] adds its hours to the day and to the task it is
    given and to no other; it keeps the days of the schedule in place, with
    the new day at the end if it was not there. *)
Theorem addAllocation_effect sched d ttl h :
  (∀ d', (hoursOn d' (addAllocation sched d ttl h)
          == hoursOn d' sched + if bool_decide (d = d') then toQ h else 0)%Q)
  ∧ (∀ t', (hoursFor t' (addAllocation sched d ttl h)
            == hoursFor t' sched
               + if bool_decide (ttl = t') then toQ h else 0)%Q)
  ∧ map date (addAllocation sched d ttl h)
    = if bool_decide (d ∈ map date sched) then map date sched
      else map date sched ++ [d].
Proof.
  split_and!; [intros d'; apply hoursOn_add|intros t'; apply hoursFor_add|].
  induction sched as [|r sched IH]; cbn [addAllocation map].
  - by rewrite bool_decide_eq_false_2 by apply not_elem_of_nil.
  - destruct (decide (date r = d)) as [Hd|Hd];
      [rewrite (bool_decide_eq_true_2 _ Hd)
      |rewrite (bool_decide_eq_false_2 _ Hd)]; cbn [map].
    + rewrite bool_decide_eq_true_2; [done|]. rewrite Hd. left.
    + rewrite IH. destruct (decide (d ∈ map date sched)) as [Hin|Hout].
      * rewrite !bool_decide_eq_true_2; [done|by right|done].
      * rewrite !bool_decide_eq_false_2; [done| |done].
        rewrite not_elem_of_cons. split; [congruence|done].
Qed.

(** ** The dependency graph, as a whole *)



(** ** Packed days *)


Section PackedDays.
Variable host : Host.
Variable start : option string.
Variable wd : list string.
Variable hoursPerDay : float.
Hypothesis some_hours : le0 hoursPerDay = false.



End PackedDays.


(** X5: when [scheduleTasks] succeeds with a [workHoursPerDay] below
    [Infinity], every day of the schedule but the last is used up: its
    allocations, taken one after the other from [workHoursPerDay] as the
    code takes them, leave zero.  A day is left only when it is full. *)
Theorem earlier_days_full host fuel inp out r1 r2 :
  (default 8%float (workHoursPerDay inp) <? infinity)%float = true →
  scheduleTasks host fuel inp = Returned out →
  r1 ∈ schedule out → r2 ∈ schedule out →
  isBefore (date r1) (date r2) = true →
  (countDown (default 8%float (workHoursPerDay inp)) (hoursOf r1) =? 0)%float
  = true.
Proof.
  intros Hfin Hrun Hr1 Hr2 Hbefore.
  destruct (scheduleTasks_hours _ _ _ _ Hfin Hrun)
    as (ts & tm & c & st & _ & _ & _ & _ & [Hn Ho]%finitePositive_ord
        & Hbase & Hs & _ & Hh & _).
  rewrite <- Hs in Hr1, Hr2, Hh.
  pose proof (wb_alloc _ _ _ _ Hbase) as Hinv.
  destruct (ai_dates _ _ _ Hinv r1 Hr1) as (n1 & Hn1 & _).
  destruct (ai_dates _ _ _ Hinv r2 Hr2) as (n2 & Hn2 & Hle & _).
  rewrite Hn1, Hn2, isBefore_Day in Hbefore.
  apply bool_decide_eq_true in Hbefore.
  destruct (Hours_record _ _ Ho c st r1 Hinv Hh Hr1) as (_ & _ & Hfull).
  apply (Hfull n1 Hn1). lia.
Qed.

Lemma earlier_days_full_witness :
  scheduleTasks codeHost 20 exampleThirds = Returned exampleThirdsOutput
  ∧ (countDown 0x1.3333333333333p-2 [0x1.3333333333333p-2] =? 0)%float
    = true.
Proof.
  split; [vm_compute; reflexivity|].
  apply (earlier_days_full codeHost 20 exampleThirds exampleThirdsOutput
           {| date := Day 19730;
              allocations := [mkAlloc "A" 0x1.3333333333333p-2] |}
           {| date := Day 19731;
              allocations := [mkAlloc "A" 0x1.3333333333333p-2] |});
    [reflexivity|vm_compute; reflexivity|left|right; left
    |vm_compute; reflexivity].
Defined.



(** ** One task after the other *)

Lemma squash_nil : ∀ l, squash l = [] → l = [].
Proof.
  induction l as [|x [|y l] IH]; [done|done|].
  change (squash (x :: y :: l))
    with (if bool_decide (x = y) then squash (y :: l) else x :: squash (y :: l)).
  case_bool_decide; [|done]. intros Hs. by specialize (IH Hs).
Qed.

Lemma squash_last : ∀ l, last (squash l) = last l.
Proof.
  induction l as [|x [|y l] IH]; [done|done|].
  change (squash (x :: y :: l))
    with (if bool_decide (x = y) then squash (y :: l) else x :: squash (y :: l)).
  case_bool_decide; [done|].
  change (last (x :: y :: l)) with (last (y :: l)). rewrite <- IH.
  destruct (squash (y :: l)) eqn:Hs; [|done].
  by apply squash_nil in Hs.
Qed.

Lemma squash_snoc : ∀ l x,
  squash (l ++ [x])
  = if bool_decide (last l = Some x) then squash l else squash l ++ [x].
Proof.
  induction l as [|y [|z l] IH]; intros x.
  - done.
  - simpl. repeat case_bool_decide; congruence.
  - change (squash ((y :: z :: l) ++ [x]))
      with (if bool_decide (y = z) then squash ((z :: l) ++ [x])
            else y :: squash ((z :: l) ++ [x])).
    change (squash (y :: z :: l))
      with (if bool_decide (y = z) then squash (z :: l)
            else y :: squash (z :: l)).
    change (last (y :: z :: l)) with (last (z :: l)).
    rewrite IH. by repeat case_bool_decide.
Qed.

Lemma squash_elem l x : x ∈ squash l → x ∈ l.
Proof.
  induction l as [|y [|z l] IH]; [done|done|].
  change (squash (y :: z :: l))
    with (if bool_decide (y = z) then squash (z :: l)
          else y :: squash (z :: l)).
  case_bool_decide.
  - intros Hin. right. by apply IH.
  - intros [->|Hin]%elem_of_cons; [left|right; by apply IH].
Qed.

Lemma allTitles_allAllocations sched :
  allTitles sched = map alloc_title (allAllocations sched).
Proof.
  unfold allTitles, allAllocations, titlesOf.
  induction sched as [|r sched IH]; [done|]. simpl.
  by rewrite map_app, IH.
Qed.

(** On the latest day of the schedule, an allocation lands at its end. *)
Lemma allTitles_add sched (c : Z) ttl h :
  chronological sched →
  (∀ r, r ∈ sched → ∃ n, date r = Day n ∧ (n <= c)%Z) →
  allTitles (addAllocation sched (Day c) ttl h) = allTitles sched ++ [ttl].
Proof.
  intros Hch Hle.
  by rewrite !allTitles_allAllocations, allAllocations_add, map_app.
Qed.

Lemma addAllocation_cases sched d ttl h r' :
  r' ∈ addAllocation sched d ttl h →
  r' ∈ sched
  ∨ (∃ r, r ∈ sched ∧ date r = d
          ∧ r' = {| date := date r;
                    allocations :=
                      allocations r ++ [{| alloc_title := ttl; hours := h |}] |})
  ∨ r' = {| date := d; allocations := [{| alloc_title := ttl; hours := h |}] |}.
Proof.
  induction sched as [|r sched IH]; simpl.
  - intros ->%list_elem_of_singleton. by right; right.
  - case_bool_decide as Hd.
    + intros [->|Hin]%elem_of_cons.
      * right. left. exists r. split; [left|done].
      * left. by right.
    + intros [->|Hin]%elem_of_cons; [left; left|].
      destruct (IH Hin) as [?|[(r0 & ? & ? & ?)|?]].
      * left. by right.
      * right. left. exists r0. split; [by right|done].
      * by right; right.
Qed.

Lemma TitlesInv_move wd seen ttl c c' rem st :
  AllocInv wd c st → (c < c')%Z →
  TitlesInv seen ttl c rem (st_schedule st) →
  TitlesInv seen ttl c' rem (st_schedule st).
Proof.
  intros Hinv Hlt (Hsq & Hend & Hrec). split_and!; [done|done|].
  intros r Hr. destruct (Hrec r Hr) as (Hnd & Hin & _).
  split_and!; [done|done|]. intros _ Hd.
  destruct (ai_dates _ _ _ Hinv r Hr) as (n & Hn & Hnc & _).
  rewrite Hn in Hd. apply Day_inj in Hd as ->. lia.
Qed.

(** An allocation on day [c]; if hours are left, the walk goes on from a
    later day [c']. *)
Lemma TitlesInv_put wd seen ttl c c' rem rem' st m :
  ttl ∉ seen →
  AllocInv wd c st → gt0 rem = true → (gt0 rem' = true → (c < c')%Z) →
  TitlesInv seen ttl c rem (st_schedule st) →
  TitlesInv seen ttl c' rem' (addAllocation (st_schedule st) (Day c) ttl m).
Proof.
  intros Hnew Hinv Hrem Hlater (Hsq & _ & Hrec).
  assert (squash (allTitles (addAllocation (st_schedule st) (Day c) ttl m))
          = seen ++ [ttl]) as Hsq'.
  { rewrite allTitles_add;
      [|apply (ai_chrono _ _ _ Hinv)|by apply (AllocInv_dates wd)].
    rewrite squash_snoc, <- squash_last. destruct Hsq as [-> | ->].
    - rewrite bool_decide_eq_false_2; [done|].
      intros Hlast. apply Hnew. rewrite last_Some in Hlast.
      destruct Hlast as [l' ->]. rewrite elem_of_app, list_elem_of_singleton.
      by right.
    - by rewrite last_snoc, bool_decide_eq_true_2. }
  assert (∀ r', r' ∈ addAllocation (st_schedule st) (Day c) ttl m →
            gt0 rem' = true → date r' ≠ Day c') as Hearlier.
  { intros r' Hr' Hmore Hd. specialize (Hlater Hmore).
    apply addAllocation_elem in Hr' as [[Hd' _]|Hr'].
    - rewrite Hd in Hd'. apply Day_inj in Hd'. lia.
    - destruct (ai_dates _ _ _ Hinv r' Hr') as (n & Hn & Hnc & _).
      rewrite Hn in Hd. apply Day_inj in Hd. lia. }
  split_and!; [by right|done|].
  intros r' Hr'. pose proof (Hearlier r' Hr') as Hno.
  apply addAllocation_cases in Hr' as [Hr'|[(r & Hr & Hd & ->)| ->]].
  - destruct (Hrec r' Hr') as (Hnd & Hin & _). split_and!; [done|done|].
    intros Hmore Hd. by destruct (Hno Hmore).
  - destruct (Hrec r Hr) as (Hnd & Hin & Hfresh).
    unfold titlesOf in *. simpl. rewrite map_app. simpl. split_and!.
    + apply NoDup_app. split_and!; [done| |apply NoDup_singleton].
      intros t Ht ->%list_elem_of_singleton. by apply Hfresh.
    + intros t [Ht| ->%list_elem_of_singleton]%elem_of_app;
        [by apply Hin|by right].
    + intros Hmore Hd'. by destruct (Hno Hmore).
  - unfold titlesOf. simpl. split_and!.
    + apply NoDup_singleton.
    + intros t ->%list_elem_of_singleton. by right.
    + intros Hmore Hd'. by destruct (Hno Hmore).
Qed.

Lemma scheduleTasks_titles host fuel inp out :
  scheduleTasks host fuel inp = Returned out →
  squash (allTitles (schedule out)) = recommendedOrder out
  ∧ ∀ r, r ∈ schedule out →
      NoDup (titlesOf r) ∧ ∀ t, t ∈ titlesOf r → t ∈ recommendedOrder out.
Proof.
  intros Hrun.
  destruct (scheduleTasks_phases _ _ _ _ Hrun)
    as (ts & tm & _ & _ & _ & Hnd & _ & Hperm & Hprec & _ & Hphase).
  set (wd := default defaultWorkDays (workDays inp)) in *.
  set (h := default 8%float (workHoursPerDay inp)) in *.
  destruct (allocatePhase_invariant host fuel wd h tm (startDate inp)
              (λ seen _ _ sched _,
                 squash (allTitles sched) = seen
                 ∧ ∀ r, r ∈ sched →
                     NoDup (titlesOf r) ∧ ∀ t, t ∈ titlesOf r → t ∈ seen)
              (λ seen ttl c rem _ sched _, TitlesInv seen ttl c rem sched))
    with (topo := recommendedOrder out) (out := out)
    as (_ & c & st & _ & _ & _ & _ & HJ); [| | | | | | |done..|done].
  - intros seen ttl c c' rem st _ Hinv Hrem _ (Hle & _) HI.
    apply (TitlesInv_move wd seen ttl c c' rem st); [done|lia|done].
  - intros seen ttl c c' rem st Hnew Hinv Hrem _ _ (Hle & _) HI.
    apply (TitlesInv_put wd seen ttl c c' rem); [done|done|done| |done].
    intros _. lia.
  - intros seen ttl c rem st Hnew Hinv Hrem _ Hlast HI.
    apply (TitlesInv_put wd seen ttl c c rem); [done|done|done| |done].
    intros Hmore. congruence.
  - intros seen ttl c st _ Hnew _ Hh [Hsq Hrec]. split_and!; [by left| |].
    + intros Hle. congruence.
    + intros r Hr. destruct (Hrec r Hr) as [Hndr Hin].
      split_and!; [done| |].
      * intros t Ht. left. by apply Hin.
      * intros _ _ Ht. apply Hnew. by apply Hin.
  - intros c c' free warns _ _ _. split; [done|]. by intros r ?%elem_of_nil.
  - intros seen ttl c rem st _ _ Hrem _ (_ & Hend & Hrec).
    split; [by apply Hend|]. intros r Hr.
    destruct (Hrec r Hr) as (Hndr & Hin & _). split; [done|].
    intros t Ht. rewrite elem_of_app, list_elem_of_singleton. by apply Hin.
  - intros s c _ _. split; [done|]. by intros r ?%elem_of_nil.
Qed.

(** X8: when [scheduleTasks] succeeds, the tasks are worked one after the
    other in the recommended order: read day by day and allocation by
    allocation, the titles of the schedule are those of [recommendedOrder],
    each repeated without interruption; and no day lists a task twice. *)
Theorem one_task_after_the_other host fuel inp out :
  scheduleTasks host fuel inp = Returned out →
  squash (allTitles (schedule out)) = recommendedOrder out
  ∧ ∀ r, r ∈ schedule out → NoDup (titlesOf r).
Proof.
  intros Hrun. destruct (scheduleTasks_titles _ _ _ _ Hrun) as [Hsq Hrec].
  split; [done|]. intros r Hr. by destruct (Hrec r Hr).
Qed.

Lemma one_task_after_the_other_witness :
  squash (allTitles (schedule examplePriorityOutput))
  = recommendedOrder examplePriorityOutput
  ∧ ∀ r, r ∈ schedule examplePriorityOutput → NoDup (titlesOf r).
Proof.
  apply (one_task_after_the_other codeHost 20 examplePriority).
  vm_compute. reflexivity.
Defined.

(** ** Warnings *)







Lemma normalizes_raw host ts tm ttl :
  Forall2 (normalizes host) ts tm → ttl ∈ map title tm →
  ∃ raw, raw ∈ ts ∧ normalizes host raw (getTask tm ttl).
Proof.
  intros Hall Hin. apply getTask_elem, list_elem_of_lookup in Hin as [i Hi].
  destruct (Forall2_lookup_r _ _ _ _ _ Hall Hi) as (raw & Hraw & Hn).
  exists raw. split; [by eapply list_elem_of_lookup_2|done].
Qed.







(** ** Which error is reported *)

Lemma registry_first host : ∀ ts acc e,
  registry host ts acc = Threw e →
  ∃ l1 raw l2 new,
    ts = l1 ++ raw :: l2 ∧ registry host l1 acc = Returned (acc ++ new)
    ∧ ((e = InvalidTask raw
        ∧ ((raw_title raw = None ∨ raw_title raw = Some "")
           ∨ raw_estimatedHours raw = None
           ∨ ∃ h, raw_estimatedHours raw = Some h ∧ le0 h = true))
       ∨ (∃ ttl h, e = InvalidDueDate ttl ∧ raw_title raw = Some ttl
            ∧ ttl ≠ "" ∧ raw_estimatedHours raw = Some h ∧ le0 h = false
            ∧ parseDate host (raw_dueDate raw) = None)
       ∨ (∃ ttl, e = DuplicateTitle ttl ∧ raw_title raw = Some ttl
            ∧ ¬ badDescriptor host raw ∧ ttl ∈ map title (acc ++ new))).
Proof.
  induction ts as [|raw ts IH]; intros acc e; [done|].
  cbn [registry].
  destruct (raw_title raw) as [ttl|] eqn:Httl.
  2: { intros [= <-]. exists [], raw, ts, []. rewrite app_nil_r.
       split_and!; [done|done|]. left. split; [done|]. left. by left. }
  destruct (raw_estimatedHours raw) as [h|] eqn:Hh.
  2: { intros [= <-]. exists [], raw, ts, []. rewrite app_nil_r.
       split_and!; [done|done|]. left. split; [done|]. right. by left. }
  destruct (bool_decide (ttl = "") || le0 h) eqn:Hbad.
  { intros [= <-]. exists [], raw, ts, []. rewrite app_nil_r.
    split_and!; [done|done|]. left. split; [done|].
    apply orb_true_iff in Hbad as [->%bool_decide_eq_true|Hle].
    - left. by right.
    - right. right. by exists h. }
  apply orb_false_iff in Hbad as [Hne%bool_decide_eq_false Hpos].
  destruct (parseDate host (raw_dueDate raw)) as [due|] eqn:Hdue.
  2: { intros [= <-]. exists [], raw, ts, []. rewrite app_nil_r.
       split_and!; [done|done|]. right. left. exists ttl, h.
       by split_and!. }
  destruct (has acc ttl) eqn:Hhas.
  { intros [= <-]. exists [], raw, ts, []. rewrite app_nil_r.
    split_and!; [done|done|]. right. right. exists ttl.
    split_and!; [done|done| |by apply has_true].
    intros [[?|?]|[[?|(h' & ? & ?)]|?]]; congruence. }
  intros Hrun.
  destruct (IH _ _ Hrun) as (l1 & raw0 & l2 & new & -> & Hreg & Hfault).
  set (t := {| title := ttl; estimatedHours := h; dueDate := due;
               dependencies := default [] (raw_dependencies raw) |}) in *.
  exists (raw :: l1), raw0, l2, (t :: new).
  rewrite <- app_assoc in Hreg, Hfault. simpl in Hreg, Hfault.
  split_and!; [done| |done].
  cbn [registry]. rewrite Httl, Hh, Hdue, Hhas.
  rewrite (proj2 (orb_false_iff _ _)); [done|split; [|done]].
  by apply bool_decide_eq_false.
Qed.

Lemma checkDeps_first tm ttl : ∀ deps e,
  checkDeps tm ttl deps = Threw e →
  ∃ d1 d d2, deps = d1 ++ d :: d2
    ∧ (∀ x, x ∈ d1 → x ∈ map title tm ∧ x ≠ ttl)
    ∧ ((e = UnknownDependency ttl d ∧ d ∉ map title tm)
       ∨ (e = SelfDependency ttl ∧ d = ttl)).
Proof.
  induction deps as [|d deps IH]; intros e; [done|]. cbn [checkDeps].
  destruct (has tm d) eqn:Hhas; simpl.
  - apply has_true in Hhas. case_bool_decide as Hself.
    + intros [= <-]. exists [], d, deps.
      split_and!; [done|by intros x ?%elem_of_nil|by right].
    + intros Hrun. destruct (IH _ Hrun) as (d1 & d' & d2 & -> & Hok & Hbad).
      exists (d :: d1), d', d2. split; [done|]. split; [|done].
      intros x [->|Hx]%elem_of_cons; [done|by apply Hok].
  - apply has_false in Hhas. intros [= <-]. exists [], d, deps.
    split_and!; [done|by intros x ?%elem_of_nil|by left].
Qed.

Lemma checkAllDeps_first tm : ∀ ts e,
  checkAllDeps tm ts = Threw e →
  ∃ l1 t l2 d1 d d2, ts = l1 ++ t :: l2
    ∧ (∀ u x, u ∈ l1 → x ∈ dependencies u → x ∈ map title tm ∧ x ≠ title u)
    ∧ dependencies t = d1 ++ d :: d2
    ∧ (∀ x, x ∈ d1 → x ∈ map title tm ∧ x ≠ title t)
    ∧ ((e = UnknownDependency (title t) d ∧ d ∉ map title tm)
       ∨ (e = SelfDependency (title t) ∧ d = title t)).
Proof.
  induction ts as [|t ts IH]; intros e; [done|]. cbn [checkAllDeps].
  pose proof (checkDeps_spec tm (title t) (dependencies t)) as Hd.
  destruct (checkDeps tm (title t) (dependencies t)) as [[]|e'|] eqn:Hchk;
    cbn [mbind Outcome_bind]; [| |done].
  - intros Hrun.
    destruct (IH _ Hrun) as (l1 & t' & l2 & d1 & d & d2 & -> & Hok & Hrest).
    exists (t :: l1), t', l2, d1, d, d2. split; [done|]. split; [|done].
    intros u x [->|Hu]%elem_of_cons Hx; [by apply Hd|by eapply Hok].
  - intros [= ->].
    destruct (checkDeps_first _ _ _ _ Hchk) as (d1 & d & d2 & Hdeps & Hrest).
    exists [], t, ts, d1, d, d2.
    split_and!; [done|by intros u x ?%elem_of_nil|done|tauto|tauto].
Qed.

Lemma registry_accepted host ts tm :
  registry host ts [] = Returned tm → accepted host ts.
Proof.
  intros [Hall Hnd]%registry_returned. split.
  - intros raw Hraw. apply list_elem_of_lookup in Hraw as [i Hi].
    destruct (Forall2_lookup_l _ _ _ _ _ Hall Hi) as (t & _ & Hn).
    by apply (normalizes_not_bad host raw t).
  - by apply (normalizes_raw_nodup host ts tm).
Qed.

Lemma normalizes_checked host ts l tm' tm :
  Forall2 (normalizes host) ts tm → Forall2 (normalizes host) l tm' →
  (∀ u x, u ∈ tm' → x ∈ dependencies u → x ∈ map title tm ∧ x ≠ title u) →
  depsChecked ts l.
Proof.
  intros Hall Hl Hok raw ttl d Hraw Httl Hd.
  apply list_elem_of_lookup in Hraw as [i Hi].
  destruct (Forall2_lookup_l _ _ _ _ _ Hl Hi) as (t & Ht & Hn).
  apply list_elem_of_lookup_2 in Ht.
  destruct Hn as (Htitle & _ & _ & _ & _ & Hdeps).
  rewrite <- Hdeps in Hd. destruct (Hok t d Ht Hd) as [Hknown Hself].
  split; [by apply (normalizes_known host ts tm d Hall)|]. congruence.
Qed.

Lemma prepare_first host fuel ts e :
  ts ≠ [] → prepare host fuel ts = Threw e → firstFault host ts e.
Proof.
  intros Hne. unfold prepare.
  destruct (registry host ts []) as [tm|e'|] eqn:Hreg;
    cbn [mbind Outcome_bind]; [| |done].
  2: { intros [= ->].
       destruct (registry_first _ _ _ _ Hreg)
         as (l1 & raw & l2 & new & -> & Hreg1 & Hfault).
       simpl in Hreg1. pose proof (registry_accepted _ _ _ Hreg1) as Hacc.
       apply registry_returned in Hreg1 as [Hall1 _].
       destruct Hfault as [[-> Hbad]|[(ttl & h & -> & ?)|(ttl & -> & ? & ? & Hin)]];
         simpl.
       - by exists l1, l2.
       - by exists l1, raw, l2, h.
       - exists l1, raw, l2. split_and!; try done.
         by apply (normalizes_known host l1 new ttl Hall1). }
  pose proof (registry_accepted _ _ _ Hreg) as Hacc.
  apply registry_returned in Hreg as [Hall Hnd].
  destruct (checkAllDeps tm tm) as [[]|e'|] eqn:Hchk;
    cbn [mbind Outcome_bind]; [| |done].
  2: { intros [= ->].
       destruct (checkAllDeps_first _ _ _ Hchk)
         as (l1 & t & l2 & d1 & d & d2 & Htm & Hok & Hdeps & Hok1 & Hbad).
       rewrite Htm in Hall.
       apply Forall2_app_inv_r in Hall as (r1 & r2 & Hall1 & Hall2 & ->).
       apply Forall2_cons_inv_r in Hall2 as (raw & r3 & Hn & Hall3 & ->).
       assert (Forall2 (normalizes host) (r1 ++ raw :: r3) tm) as Hall.
       { rewrite Htm. apply Forall2_app; [done|]. by constructor. }
       pose proof (normalizes_checked host _ r1 l1 tm Hall Hall1 Hok)
         as Hchecked.
       destruct Hn as (Htitle & _ & _ & _ & _ & Hdeps').
       assert (∀ x, x ∈ d1 → goodDep (r1 ++ raw :: r3) (title t) x) as Hgood.
       { intros x Hx. destruct (Hok1 x Hx) as [Hk Hs].
         split; [by apply (normalizes_known host _ tm x Hall)|done]. }
       destruct Hbad as [[-> Hun]|[-> ->]]; simpl.
       - split; [done|]. exists r1, raw, r3, d1, d2.
         split_and!; try done; [congruence|].
         by rewrite (normalizes_known host _ tm d Hall).
       - split; [done|]. exists r1, raw, r3, d1, d2.
         split_and!; try done. congruence. }
  destruct (sequence host fuel tm) as [topo|e'|] eqn:Hseq;
    cbn [mbind Outcome_bind]; [done| |done].
  intros [= ->].
  destruct (sequence_threw host tm Hnd (λ _, True) (λ _ _, True)
              ltac:(done) ltac:(done) fuel e Hseq)
    as (-> & res & Hres & Hsub & Hlen & Hready).
  pose proof (checkAllDeps_spec tm tm) as Hspec. rewrite Hchk in Hspec.
  simpl. split_and!; [done| |].
  - by apply (normalizes_checked host ts ts tm tm).
  - destruct (stuck_cycle tm res Hnd) as [t Ht]; try done.
    { intros t d Ht Hd. by destruct (Hspec t d Ht Hd). }
    exists t. by apply (cycle_transfer host ts tm t Hall Hnd).
Qed.

(** A task list that passes the registry and the sequencer has no fault. *)
Lemma prepare_accepted host fuel ts tm topo :
  prepare host fuel ts = Returned (tm, topo) →
  accepted host ts ∧ depsChecked ts ts ∧ ¬ ∃ t, tc (depEdge ts) t t.
Proof.
  intros Hprep. pose proof Hprep as (Hall & Hnd & Hdeps & Hseq)%prepare_returned.
  unfold prepare in Hprep.
  destruct (registry host ts []) as [tm'|e'|] eqn:Hreg;
    cbn [mbind Outcome_bind] in Hprep; [|done..].
  destruct (checkAllDeps tm' tm') as [[]|e'|] eqn:Hchk;
    cbn [mbind Outcome_bind] in Hprep; [|done..].
  destruct (sequence host fuel tm') as [topo'|e'|] eqn:Hseq';
    cbn [mbind Outcome_bind] in Hprep; [|done..].
  injection Hprep as -> ->. split_and!.
  - by apply (registry_accepted host ts tm).
  - by apply (normalizes_checked host ts ts tm tm).
  - intros [t Ht]. apply (cycle_transfer host ts tm t Hall Hnd) in Ht.
    destruct (sequence_returned host tm Hnd (λ _, True) (λ _ _, True)
                ltac:(done) ltac:(done) fuel topo Hseq)
      as (Hperm & Hnd' & Hprec & _).
    apply (precedes_irrefl topo t Hnd').
    by apply (order_acyclic tm topo Hperm Hnd' Hprec).
Qed.

(** X12: an error of [scheduleTasks] names the first thing at fault, in the
    order of the checks: the first descriptor that is bad or repeats a
    title, all descriptors before it being accepted; failing that, the first
    dependency that is unknown or names its own task; failing that, a
    cycle; failing that, it is the [TypeError] of a task whose hours are
    [NaN]. *)
Theorem error_names_first_fault host fuel inp e :
  scheduleTasks host fuel inp = Threw e →
  match tasks inp with
  | None => e = TasksNotArray
  | Some ts => firstFault host ts e
  end.
Proof.
  intros Hrun. pose proof Hrun as Hrun'. unfold scheduleTasks in Hrun.
  destruct (tasks inp) as [[|raw ts]|] eqn:Hts;
    [by injection Hrun as <-| |by injection Hrun as <-].
  apply scheduleTasks_threw in Hrun'
    as [?|[?|[(ts' & Hts' & Hprep)
             |(-> & ts' & tm & topo & t & Hts' & Hprep & Ht & Hnan)]]];
    [congruence..| |]; rewrite Hts in Hts'; injection Hts' as <-.
  - by apply (prepare_first host fuel).
  - destruct (prepare_accepted _ _ _ _ _ Hprep) as (Hacc & Hchk & Hcyc).
    apply prepare_returned in Hprep as (Hall & _).
    simpl. split_and!; [done..|].
    apply list_elem_of_lookup in Ht as [i Hi].
    destruct (Forall2_lookup_r _ _ _ _ _ Hall Hi)
      as (raw0 & Hraw & (_ & _ & Hest & _)).
    exists raw0, (estimatedHours t). split_and!; [|done..].
    by apply list_elem_of_lookup_2 in Hraw.
Qed.

Lemma error_names_first_fault_witness :
  firstFault codeHost
    [mkRaw "A" 1 "2024-01-10" []; mkRaw "B" nan "2024-01-11" []] TypeError.
Proof.
  apply (error_names_first_fault codeHost 20 exampleNaN TypeError).
  vm_compute. reflexivity.
Defined.

(** ** The order in which the tasks are listed *)

Lemma normalizes_inj host raw t t' :
  normalizes host raw t → normalizes host raw t' → t = t'.
Proof.
  intros (H1 & _ & H2 & _ & H3 & H4) (H1' & _ & H2' & _ & H3' & H4').
  destruct t, t'. simpl in *. congruence.
Qed.

Lemma normalizes_all_inj host ts : ∀ tm tm',
  Forall2 (normalizes host) ts tm → Forall2 (normalizes host) ts tm' →
  tm = tm'.
Proof.
  induction ts as [|raw ts IH]; intros tm tm' H1 H2; inversion H1;
    inversion H2; subst; [done|].
  f_equal; [by apply (normalizes_inj host raw)|by apply IH].
Qed.

Lemma getTask_perm host ts ts' tm tm' :
  ts ≡ₚ ts' →
  Forall2 (normalizes host) ts tm → Forall2 (normalizes host) ts' tm' →
  NoDup (map title tm) → NoDup (map title tm') →
  (∀ s, s ∈ map title tm ↔ s ∈ map title tm')
  ∧ ∀ s, getTask tm s = getTask tm' s.
Proof.
  intros Hperm Hall Hall' Hnd Hnd'.
  assert (∀ s, s ∈ map title tm ↔ s ∈ map title tm') as Hsame.
  { intros s. rewrite <- (normalizes_known host ts tm s Hall).
    rewrite <- (normalizes_known host ts' tm' s Hall'). by rewrite Hperm. }
  split; [done|]. intros s.
  destruct (decide (s ∈ map title tm)) as [Hin|Hout].
  - destruct (normalizes_raw host ts tm s Hall Hin) as (raw & Hraw & Hn).
    pose proof Hn as (Ht & _). rewrite getTask_title in Ht.
    rewrite Hperm in Hraw.
    destruct (normalizes_getTask host ts' tm' raw s Hall' Hnd' Hraw Ht)
      as [Hn' _].
    by apply (normalizes_inj host raw).
  - rewrite (getTask_default tm s Hout). symmetry. apply getTask_default.
    by rewrite <- Hsame.
Qed.

Lemma allocate_ext fuel0 wd hoursPerDay tm tm' ttl :
  getTask tm ttl = getTask tm' ttl →
  ∀ fuel rem st,
    allocate fuel0 fuel wd hoursPerDay tm ttl rem st
    = allocate fuel0 fuel wd hoursPerDay tm' ttl rem st.
Proof.
  intros Hget. induction fuel as [|fuel IH]; intros rem st; [done|].
  rewrite !allocate_S, Hget. destruct (gt0 rem); [|done]. cbv zeta.
  destruct (le0 _).
  - destruct (advanceToNextWorkday _ _ _ _); cbn [mbind Outcome_bind];
      [apply IH|done|done].
  - destruct (gt0 (rem - _)); [|apply IH].
    destruct (advanceToNextWorkday _ _ _ _); cbn [mbind Outcome_bind];
      [apply IH|done|done].
Qed.

Lemma scheduleAll_ext host fuel wd hoursPerDay tm tm' remaining remaining' :
  (∀ s, getTask tm s = getTask tm' s) →
  (∀ s, getOr 0%float remaining s = getOr 0%float remaining' s) →
  ∀ order st,
    scheduleAll host fuel wd hoursPerDay tm remaining order st
    = scheduleAll host fuel wd hoursPerDay tm' remaining' order st.
Proof.
  intros Hget Hrem. induction order as [|ttl order IH]; intros st; [done|].
  cbn [scheduleAll].
  assert (scheduleTask host fuel wd hoursPerDay tm remaining ttl st
          = scheduleTask host fuel wd hoursPerDay tm' remaining' ttl st) as ->.
  { unfold scheduleTask. rewrite (Hget ttl), (Hrem ttl).
    destruct (if isAfter _ _ then _ else _) as [st1|e|];
      cbn [mbind Outcome_bind]; [|done|done].
    by rewrite (allocate_ext fuel wd hoursPerDay tm tm' ttl (Hget ttl)). }
  destruct (scheduleTask _ _ _ _ _ _ _ _); cbn [mbind Outcome_bind];
    [apply IH|done|done].
Qed.

(** Two orders that put dependencies first and always emit the task ranked
    first among the ready ones are the same order, when no two distinct
    tasks rank equally. *)
Lemma order_unique tm (R : string → string → Prop) :
  (∀ a b, R a b → R b a → a = b) →
  ∀ s1 p s2,
    NoDup (p ++ s1) → p ++ s1 ≡ₚ p ++ s2 →
    (∀ x, x ∈ p ++ s1 → x ∈ map title tm) →
    Prec tm (p ++ s1) → Prec tm (p ++ s2) →
    Hist tm R (p ++ s1) → Hist tm R (p ++ s2) →
    s1 = s2.
Proof.
  intros Hanti. induction s1 as [|a s1 IH]; intros p s2 Hnd Hperm Hsub
    Hp1 Hp2 Hh1 Hh2.
  { apply Permutation_length in Hperm. rewrite !length_app in Hperm.
    destruct s2; [done|simpl in Hperm; lia]. }
  destruct s2 as [|b s2].
  { apply Permutation_length in Hperm. rewrite !length_app in Hperm.
    simpl in Hperm. lia. }
  assert (NoDup (p ++ b :: s2)) as Hnd2 by (by rewrite <- Hperm).
  assert (a = b) as <-.
  { destruct (decide (a = b)) as [|Hne]; [done|].
    assert ((a ∉ p) ∧ (b ∉ p)) as [Hap Hbp].
    { apply NoDup_app in Hnd as (_ & Hd1 & _).
      apply NoDup_app in Hnd2 as (_ & Hd2 & _).
      split; intros Hin; [apply (Hd1 a Hin)|apply (Hd2 b Hin)]; left. }
    assert (b ∈ map title tm) as Hb.
    { apply Hsub. rewrite Hperm, elem_of_app, elem_of_cons. tauto. }
    assert (a ∈ map title tm) as Ha.
    { apply Hsub. rewrite elem_of_app, elem_of_cons. tauto. }
    apply Hanti.
    - apply (Hh1 p a s1 eq_refl b Hb Hbp ltac:(congruence)).
      by apply (Hp2 p b s2).
    - apply (Hh2 p b s2 eq_refl a Ha Hap Hne). by apply (Hp1 p a s1). }
  f_equal. apply (IH (p ++ [a])); rewrite <- ?app_assoc; try done.
Qed.

Lemma cmp_separates host tm a b :
  Collation host → Separating host →
  (∀ s, ∃ t, dueDate (getTask tm s) = Time t) →
  (∀ s, is_nan (estimatedHours (getTask tm s)) = false) →
  ranked (cmp host tm) a b → ranked (cmp host tm) b a → a = b.
Proof.
  intros Hcol Hsep Hdates Hnum.
  destruct (Hdates a) as [x Hx], (Hdates b) as [y Hy]. unfold ranked.
  rewrite (cmp_key false host tm a b x y Hx Hy (Hnum a) (Hnum b)).
  rewrite (cmp_key false host tm b a y x Hy Hx (Hnum b) (Hnum a)).
  unfold keyBefore. rewrite !ltb_ord, !eqb_ord by done.
  rewrite !Z.ltb_lt, !Z.eqb_eq.
  intros [?|[[-> ?]|[-> [? Hab]]]] [?|[[? ?]|[? [? Hba]]]]; try lia.
  apply Hsep. destruct (Z.lt_trichotomy (localeCompare host a b) 0)
    as [Hlt|[?|?]]; [|done|lia].
  apply (lc_antisym _ Hcol) in Hlt. lia.
Qed.

Lemma cmp_ext host tm tm' :
  (∀ s, getTask tm s = getTask tm' s) →
  ∀ a b, cmp host tm a b = cmp host tm' a b.
Proof. intros Hget a b. unfold cmp. by rewrite !Hget. Qed.

(** X13: the outcome does not depend on the order in which the tasks are
    listed: when the collation is consistent and tells distinct titles
    apart, two inputs that differ only by a permutation of [tasks], and on
    which [scheduleTasks] succeeds, give the same recommended order, the same
    schedule and the same warnings. *)
Theorem outcome_independent_of_listing host fuel inp inp' ts ts' out out' :
  Collation host → Separating host →
  tasks inp = Some ts → tasks inp' = Some ts' → ts ≡ₚ ts' →
  workHoursPerDay inp = workHoursPerDay inp' →
  workDays inp = workDays inp' → startDate inp = startDate inp' →
  scheduleTasks host fuel inp = Returned out →
  scheduleTasks host fuel inp' = Returned out' →
  out = out'.
Proof.
  intros Hcol Hsep Hts Hts' Hperm Hh Hwd Hstart Hrun Hrun'.
  destruct (scheduleTasks_returned _ _ _ _ Hrun)
    as (ts0 & tm & _ & _ & Hts0 & _ & Hall & Hnd & _ & Hp & Hprec & Hseq
        & Hpos & _).
  destruct (scheduleTasks_returned _ _ _ _ Hrun')
    as (ts0' & tm' & _ & _ & Hts0' & _ & Hall' & Hnd' & _ & Hp' & Hprec'
        & Hseq' & Hpos' & _).
  destruct (scheduleTasks_phases _ _ _ _ Hrun)
    as (ts1 & tm1 & Hts1 & _ & Hall1 & _ & _ & _ & _ & _ & Hphase).
  destruct (scheduleTasks_phases _ _ _ _ Hrun')
    as (ts1' & tm1' & Hts1' & _ & Hall1' & _ & _ & _ & _ & _ & Hphase').
  rewrite Hts in Hts0, Hts1. injection Hts0 as <-. injection Hts1 as <-.
  rewrite Hts' in Hts0', Hts1'. injection Hts0' as <-. injection Hts1' as <-.
  assert (tm1 = tm) as -> by (by apply (normalizes_all_inj host ts)).
  assert (tm1' = tm') as -> by (by apply (normalizes_all_inj host ts')).
  destruct (getTask_perm host ts ts' tm tm' Hperm Hall Hall' Hnd Hnd')
    as [Hsame Hget].
  pose proof (normalizes_dates host ts tm Hall) as Hdates.
  pose proof (normalizes_dates host ts' tm' Hall') as Hdates'.
  pose proof (positive_hours_numbers tm Hpos) as Hnum.
  pose proof (positive_hours_numbers tm' Hpos') as Hnum'.
  pose proof (sequence_priority host tm Hcol Hdates Hnum fuel _ Hnd Hseq)
    as Hhist.
  pose proof (sequence_priority host tm' Hcol Hdates' Hnum' fuel _ Hnd' Hseq')
    as Hhist'.
  assert (recommendedOrder out = recommendedOrder out') as Horder.
  { apply (order_unique tm (ranked (cmp host tm))) with (p := []); simpl.
    - intros a b. by apply cmp_separates.
    - rewrite Hp. done.
    - rewrite Hp, Hp'. apply NoDup_Permutation; [done|done|].
      apply Hsame.
    - intros x Hx. by rewrite <- Hp.
    - done.
    - intros l1 t l2 Heq d Hd. rewrite Hget in Hd. by eapply Hprec'.
    - done.
    - intros l1 a l2 Heq b Hb Hnot Hne Hdeps. unfold ranked.
      rewrite (cmp_ext host tm tm' Hget).
      apply (Hhist' l1 a l2 Heq b); [by apply Hsame|done|done|].
      intros d Hd. apply Hdeps. by rewrite Hget. }
  rewrite <- Hh, <- Hwd, <- Hstart, <- Horder in Hphase'.
  unfold allocatePhase in Hphase, Hphase'.
  destruct (runNextWorkday fuel _ _) as [cur|e|];
    cbn [mbind Outcome_bind] in Hphase, Hphase'; [|done|done].
  rewrite (scheduleAll_ext host fuel _ _ tm tm' (buildRemaining tm ∅)
             (buildRemaining tm' ∅) Hget) in Hphase.
  - rewrite Hphase in Hphase'. by injection Hphase'.
  - intros s. rewrite !buildRemaining_get by done.
    destruct (decide (s ∈ map title tm)) as [Hin|Hout].
    + rewrite !bool_decide_eq_true_2; [by rewrite Hget|by apply Hsame|done].
    + rewrite !bool_decide_eq_false_2; [done|by rewrite <- Hsame|done].
Qed.

Lemma codeHost_separating : Separating codeHost.
Proof.
  intros a b. simpl. destruct (String.compare a b) eqn:Hc; [|done|done].
  intros _. by apply String.compare_eq_iff.
Qed.

Lemma outcome_independent_of_listing_witness :
  scheduleTasks codeHost 20 examplePriorityShuffled
  = Returned examplePriorityOutput
  ∧ examplePriorityOutput = examplePriorityOutput.
Proof.
  split; [vm_compute; reflexivity|].
  apply (outcome_independent_of_listing codeHost 20 examplePriority
           examplePriorityShuffled examplePriorityTasks
           [mkRaw "A" 1 "2024-01-01" ["C"]; mkRaw "C" 1 "2024-01-30" [];
            mkRaw "B" 1 "2024-01-15" []]);
    [apply codeHost_collation|apply codeHost_separating|reflexivity
    |reflexivity| |reflexivity|reflexivity|reflexivity
    |vm_compute; reflexivity|vm_compute; reflexivity].
  apply Permutation_swap.
Defined.

(** ** The comparator *)

Lemma normalizes_numbers host ts tm :
  Forall2 (normalizes host) ts tm →
  (∀ raw h, raw ∈ ts → raw_estimatedHours raw = Some h → is_nan h = false) →
  ∀ s, is_nan (estimatedHours (getTask tm s)) = false.
Proof.
  intros Hall Hnum s. destruct (decide (s ∈ map title tm)) as [Hin|Hout].
  - destruct (normalizes_raw host ts tm s Hall Hin)
      as (raw & Hraw & (_ & _ & Hh & _)).
    by apply (Hnum raw).
  - by rewrite (getTask_default _ _ Hout).
Qed.

(** With a task whose hours are [NaN] the comparator is not transitive:
    "A" ranks before "B" and "B" before "C" by title, and "C" before "A"
    by hours. *)
Example cmp_nan_not_transitive :
  let tm := [ {| title := "A"; estimatedHours := 1; dueDate := Day 19752;
                 dependencies := [] |};
              {| title := "B"; estimatedHours := nan; dueDate := Day 19752;
                 dependencies := [] |};
              {| title := "C"; estimatedHours := 2; dueDate := Day 19752;
                 dependencies := [] |} ] in
  registry codeHost [mkRaw "A" 1 "2024-01-30" []; mkRaw "B" nan "2024-01-30" [];
                     mkRaw "C" 2 "2024-01-30" []] [] = Returned tm
  ∧ cmp codeHost tm "A" "B" = (-1)%Z ∧ cmp codeHost tm "B" "C" = (-1)%Z
  ∧ cmp codeHost tm "A" "C" = 1%Z.
Proof. vm_compute. done. Qed.

(** X14: on the task map the registry builds, [cmp] is a consistent
    comparator whenever [localeCompare] is one and no task has [NaN] for
    its hours: it compares any two titles, it is transitive, and it never
    ranks two titles each strictly before the other. *)
Theorem cmp_is_consistent host ts tm :
  Collation host → registry host ts [] = Returned tm →
  (∀ raw h, raw ∈ ts → raw_estimatedHours raw = Some h → is_nan h = false) →
  (∀ a b, (cmp host tm a b <= 0)%Z ∨ (cmp host tm b a <= 0)%Z)
  ∧ (∀ a b d, (cmp host tm a b <= 0)%Z → (cmp host tm b d <= 0)%Z →
       (cmp host tm a d <= 0)%Z)
  ∧ (∀ a b, (cmp host tm a b < 0)%Z → (0 < cmp host tm b a)%Z).
Proof.
  intros Hcol [Hall _]%registry_returned Hraw.
  pose proof (normalizes_dates host ts tm Hall) as Hdates.
  pose proof (normalizes_numbers host ts tm Hall Hraw) as Hnum. split_and!.
  - intros a b. by apply cmp_total.
  - intros a b d. by apply cmp_trans.
  - intros a b Hlt.
    pose proof (cmp_antisym host tm Hcol Hdates Hnum a b Hlt) as Hn.
    unfold ranked in Hn. lia.
Qed.

Lemma cmp_is_consistent_witness :
  let tm := [ {| title := "A"; estimatedHours := 1; dueDate := Day 19752;
                 dependencies := [] |};
              {| title := "B"; estimatedHours := 3; dueDate := Day 19752;
                 dependencies := ["A"] |};
              {| title := "C"; estimatedHours := 2; dueDate := Day 19737;
                 dependencies := [] |} ] in
  (∀ a b, (cmp codeHost tm a b <= 0)%Z ∨ (cmp codeHost tm b a <= 0)%Z)
  ∧ (∀ a b d, (cmp codeHost tm a b <= 0)%Z → (cmp codeHost tm b d <= 0)%Z →
       (cmp codeHost tm a d <= 0)%Z)
  ∧ (∀ a b, (cmp codeHost tm a b < 0)%Z → (0 < cmp codeHost tm b a)%Z).
Proof.
  apply (cmp_is_consistent codeHost
           [mkRaw "A" 1 "2024-01-30" []; mkRaw "B" 3 "2024-01-30" ["A"];
            mkRaw "C" 2 "2024-01-15" []]);
    [apply codeHost_collation|vm_compute; reflexivity|].
  intros raw h Hraw Hh.
  repeat (apply elem_of_cons in Hraw as [->|Hraw]);
    [injection Hh as <-; reflexivity..|by apply elem_of_nil in Hraw].
Defined.

(** ** What the dependencies are used for *)

Lemma getTask_withoutDependencies tm s :
  getTask (withoutDependencies tm) s
  = {| title := title (getTask tm s);
       estimatedHours := estimatedHours (getTask tm s);
       dueDate := dueDate (getTask tm s); dependencies := [] |}.
Proof.
  induction tm as [|t tm IH]; [done|].
  cbn [withoutDependencies map]. fold (withoutDependencies tm).
  rewrite !getTask_cons. cbn [title]. by case_bool_decide.
Qed.

Lemma buildRemaining_withoutDependencies tm : ∀ acc,
  buildRemaining (withoutDependencies tm) acc = buildRemaining tm acc.
Proof. induction tm as [|t tm IH]; intros acc; [done|]. simpl. apply IH. Qed.

Lemma allocate_due fuel0 wd hoursPerDay tm tm' ttl :
  dueDate (getTask tm ttl) = dueDate (getTask tm' ttl) →
  ∀ fuel rem st,
    allocate fuel0 fuel wd hoursPerDay tm ttl rem st
    = allocate fuel0 fuel wd hoursPerDay tm' ttl rem st.
Proof.
  intros Hdue. induction fuel as [|fuel IH]; intros rem st; [done|].
  rewrite !allocate_S, Hdue. destruct (gt0 rem); [|done]. cbv zeta.
  destruct (le0 _).
  - destruct (advanceToNextWorkday _ _ _ _); cbn [mbind Outcome_bind];
      [apply IH|done|done].
  - destruct (gt0 (rem - _)); [|apply IH].
    destruct (advanceToNextWorkday _ _ _ _); cbn [mbind Outcome_bind];
      [apply IH|done|done].
Qed.

(** Between two tasks the gate of lines 143-147 asks the same of a task with
    its dependencies as of a task without: whether the current day is
    before 1970-01-01. *)
Lemma scheduleTask_withoutDependencies host fuel wd hoursPerDay tm remaining
    seen ttl c st :
  WalkBase wd seen c st →
  (∀ d, d ∈ dependencies (getTask tm ttl) → d ∈ seen) →
  scheduleTask host fuel wd hoursPerDay (withoutDependencies tm) remaining
    ttl st
  = scheduleTask host fuel wd hoursPerDay tm remaining ttl st.
Proof.
  intros Hbase Hdeps. unfold scheduleTask.
  rewrite getTask_withoutDependencies. cbn [dependencies earliestReadyOf].
  destruct (earliestReadyOf_bound host (finishedAt st) c
              (dependencies (getTask tm ttl)) 0) as (e & Her & He0 & He).
  { intros d Hd. by apply (wb_fin _ _ _ _ Hbase), Hdeps. }
  unfold epoch in *. rewrite Her.
  rewrite (ai_day _ _ _ (wb_alloc _ _ _ _ Hbase)). rewrite !isAfter_Day.
  assert (bool_decide (c < 0)%Z = bool_decide (c < e)%Z
          ∧ ((c < 0)%Z → e = 0%Z)) as [-> He'].
  { split; [|lia]. destruct (decide (c < 0)%Z).
    - rewrite !bool_decide_eq_true_2; [done|lia|lia].
    - rewrite !bool_decide_eq_false_2; [done|lia|lia]. }
  assert (∀ st1 : AllocState,
            allocate fuel fuel wd hoursPerDay (withoutDependencies tm) ttl
              (getOr 0%float remaining ttl) st1
            = allocate fuel fuel wd hoursPerDay tm ttl
                (getOr 0%float remaining ttl) st1) as Halloc.
  { intros st1. apply allocate_due. by rewrite getTask_withoutDependencies. }
  case_bool_decide as Hjump.
  - rewrite (He' ltac:(lia)).
    destruct (runNextWorkday fuel (Day 0) wd); cbn [mbind Outcome_bind];
      [|done|done].
    by rewrite Halloc.
  - cbn [mbind Outcome_bind]. by rewrite Halloc.
Qed.

Lemma scheduleAll_withoutDependencies host fuel wd hoursPerDay tm remaining :
  ∀ order seen st c,
    WalkBase wd seen c st →
    NoDup (seen ++ order) → Prec tm (seen ++ order) →
    (∀ t, t ∈ order →
       getOr 0%float remaining t = estimatedHours (getTask tm t)) →
    scheduleAll host fuel wd hoursPerDay (withoutDependencies tm) remaining
      order st
    = scheduleAll host fuel wd hoursPerDay tm remaining order st.
Proof.
  induction order as [|ttl order IH]; intros seen st c Hbase Hnd Hprec Hrem;
    [done|].
  cbn [scheduleAll].
  assert (ttl ∉ seen) as Hnew.
  { apply NoDup_app in Hnd as (_ & Hdisj & _). intros Hin.
    apply (Hdisj ttl Hin). left. }
  assert (∀ d, d ∈ dependencies (getTask tm ttl) → d ∈ seen) as Hdeps
    by (by apply (Hprec seen ttl order)).
  rewrite (scheduleTask_withoutDependencies host fuel wd hoursPerDay tm
             remaining seen ttl c st Hbase Hdeps).
  destruct (scheduleTask host fuel wd hoursPerDay tm remaining ttl st)
    as [st1|e|] eqn:Hone; cbn [mbind Outcome_bind]; [|done|done].
  pose proof (Hrem ttl ltac:(left)) as Hr.
  destruct (scheduleTask_invariant host fuel wd hoursPerDay tm
              (λ _ _ _ _ _, True) (λ _ _ _ _ _ _ _, True)
              ltac:(done) ltac:(done) ltac:(done) ltac:(done) ltac:(done)
              ltac:(done) remaining seen ttl st c st1 Hbase Hnew Hdeps Hr
              I Hone) as (_ & c1 & Hbase1 & _).
  apply (IH (seen ++ [ttl]) st1 c1 Hbase1); rewrite <- ?app_assoc; try done.
  intros t Ht. apply Hrem. by right.
Qed.

(** X20: the dependencies shape the schedule through [recommendedOrder] only:
    walking the same order over the same tasks with their dependency lists
    emptied gives the same schedule and the same warnings.  The wait for
    the finish dates of the dependencies (lines 128-147) never moves the
    current day once the order puts every dependency first. *)
Theorem dependencies_act_through_order host fuel wd hoursPerDay start tm topo :
  NoDup (map title tm) →
  topo ≡ₚ map title tm → Prec tm topo →
  allocatePhase host fuel wd hoursPerDay start (withoutDependencies tm) topo
  = allocatePhase host fuel wd hoursPerDay start tm topo.
Proof.
  intros Hnd Hperm Hprec. unfold allocatePhase, runNextWorkday.
  rewrite buildRemaining_withoutDependencies.
  destruct (nextWorkday fuel (startOf host start) wd) as [cur|] eqn:Hn;
    cbn [mbind Outcome_bind]; [|done].
  destruct (startOf host start) as [s|] eqn:Hs;
    [|by rewrite nextWorkday_invalid in Hn].
  destruct (startOf_Day _ _ _ Hs) as (s0 & Hs0). rewrite Hs0 in *.
  destruct (nextWorkday_minimal _ _ _ _ Hn) as (c & -> & Hfirst).
  set (st0 := {| currentDay := Day c; freeHoursToday := hoursPerDay;
                 st_schedule := []; st_warnings := []; finishedAt := ∅ |}).
  assert (WalkBase wd [] c st0) as Hbase.
  { split; [split| | |]; simpl; try done.
    - by destruct Hfirst as (_ & ? & _).
    - by intros r ?%elem_of_nil.
    - constructor.
    - apply WalkInv_nil.
    - by intros t ?%elem_of_nil. }
  rewrite (scheduleAll_withoutDependencies host fuel wd hoursPerDay tm
             (buildRemaining tm ∅) topo [] st0 c Hbase); simpl; try done.
  - by rewrite Hperm.
  - intros t Ht. rewrite Hperm in Ht.
    by rewrite buildRemaining_get, bool_decide_eq_true_2 by done.
Qed.

Lemma dependencies_act_through_order_witness :
  allocatePhase codeHost 20 defaultWorkDays 8 (Some "2024-01-08")
    (withoutDependencies
       [ {| title := "A"; estimatedHours := 8; dueDate := Day 21924;
            dependencies := [] |};
         {| title := "B"; estimatedHours := 4; dueDate := Day 19732;
            dependencies := ["A"] |} ]) ["A"; "B"]
  = allocatePhase codeHost 20 defaultWorkDays 8 (Some "2024-01-08")
      [ {| title := "A"; estimatedHours := 8; dueDate := Day 21924;
           dependencies := [] |};
        {| title := "B"; estimatedHours := 4; dueDate := Day 19732;
           dependencies := ["A"] |} ] ["A"; "B"].
Proof.
  apply (dependencies_act_through_order codeHost 20 defaultWorkDays 8
           (Some "2024-01-08")).
  - simpl. apply NoDup_cons. split; [|apply NoDup_singleton].
    by intros ?%list_elem_of_singleton.
  - reflexivity.
  - intros l1 t l2 Heq d Hd.
    destruct l1 as [|x [|y l1]]; simplify_eq/=.
    + by apply elem_of_nil in Hd.
    + apply list_elem_of_singleton in Hd as ->. left.
    + by destruct l1.
Defined.

